(** * ircmessage: a scanner for RFC1459 IRC messages with IRCv3 tags

    Shallow embedding of [ircmessage.go] (package [ircmessage]) and the
    properties of its scanner and of [ParsePrefix].

    Conventions of the embedding.
    - A [rune] is a code point, kept as a [Z].
    - A Go [string] built by this package only ever comes from
      [bytes.Buffer.WriteRune] or from [string([]rune)], so it is valid
      UTF-8 and is kept as its sequence of runes ([gostring]).  All the
      separators the package searches for are one-character ASCII constants,
      for which searching bytes and searching runes select the same
      substrings.
    - [bufio.Reader] is modelled by what the package observes of it: the
      (rune, size) pairs that successive [ReadRune] calls will deliver, the
      error delivered once they are exhausted, and the one-rune memory that
      [UnreadRune] needs.
    - A Go method on [*Scanner] is a function from the scanner state to an
      [outcome]: a result with the new state, a run-time panic, or the
      exhaustion of the fuel that bounds a [for] loop.  A Go [(T, error)]
      result is a pair whose second component is [None] for [nil]. *)

From Stdlib Require Import ZArith String Ascii Lia.
From stdpp Require Import gmap list.

Local Open Scope Z_scope.

(** ** Runes and strings *)

Definition rune := Z.
Definition gostring := list rune.

Definition str (s : string) : gostring :=
  map (fun a => Z.of_N (N_of_ascii a)) (list_ascii_of_string s).

Definition maxMessageSize : Z := 512.
Definition runeAt : rune := 64.
Definition runeColon : rune := 58.
Definition runeSemicolon : rune := 59.
Definition runeSpace : rune := 32.
Definition runeEquals : rune := 61.
Definition runeCR : rune := 13.
Definition runeLF : rune := 10.
Definition runeBang : rune := 33.
Definition runeDot : rune := 46.

Definition CRLF : gostring := [runeCR; runeLF].

(** [utf8.RuneLen] for the runes [ReadRune] can deliver: the number of bytes
    [WriteRune] appends. *)
Definition RuneLen (r : rune) : Z :=
  if r <? 128 then 1 else if r <? 2048 then 2 else if r <? 65536 then 3 else 4.

(** [len(s)] of a string, in bytes. *)
Definition byteLen (s : gostring) : Z := foldr (fun r n => RuneLen r + n) 0 s.

(** [strings.Contains(s, sep)] for a one-character [sep]. *)
Fixpoint Contains (s : gostring) (sep : rune) : bool :=
  match s with
  | [] => false
  | c :: s' => (c =? sep) || Contains s' sep
  end.

(** [strings.HasPrefix(s, sep)] for a one-character [sep]. *)
Definition HasPrefix (s : gostring) (sep : rune) : bool :=
  match s with
  | [] => false
  | c :: _ => c =? sep
  end.

(** [strings.Split(s, sep)] for a one-character [sep]: the substrings between
    the separators; the empty string gives one empty substring. *)
Fixpoint Split (s : gostring) (sep : rune) : list gostring :=
  match s with
  | [] => [[]]
  | c :: s' =>
      if c =? sep then [] :: Split s' sep
      else match Split s' sep with
           | [] => [[c]]
           | t :: ts => (c :: t) :: ts
           end
  end.

(** [strings.Join(elems, sep)] for a one-character [sep]. *)
Fixpoint Join (elems : list gostring) (sep : rune) : gostring :=
  match elems with
  | [] => []
  | [e] => e
  | e :: es => e ++ sep :: Join es sep
  end.

(** [strings.Index(s, sep)] for a one-character [sep]; [-1] when absent. *)
Fixpoint Index (s : gostring) (sep : rune) : Z :=
  match s with
  | [] => -1
  | c :: s' =>
      if c =? sep then 0
      else let i := Index s' sep in if i <? 0 then -1 else i + 1
  end.

(** The slice expressions [s[lo:]], [s[:hi]] and [s[lo:hi]]. *)
Definition sliceFrom {A} (s : list A) (lo : Z) : list A := drop (Z.to_nat lo) s.
Definition sliceTo {A} (s : list A) (hi : Z) : list A := take (Z.to_nat hi) s.
Definition slice {A} (s : list A) (lo hi : Z) : list A :=
  take (Z.to_nat (hi - lo)) (drop (Z.to_nat lo) s).

(** ** Errors *)

Inductive error : Type :=
| EOF                    (* io.EOF *)
| ErrUnexpectedEOF       (* io.ErrUnexpectedEOF *)
| ErrMessageMalformed
| ErrInvalidUnreadRune   (* bufio.ErrInvalidUnreadRune *)
| ErrIO (code : nat).    (* any other error of the source reader *)

Definition error_eqb (a b : error) : bool :=
  match a, b with
  | EOF, EOF | ErrUnexpectedEOF, ErrUnexpectedEOF
  | ErrMessageMalformed, ErrMessageMalformed
  | ErrInvalidUnreadRune, ErrInvalidUnreadRune => true
  | ErrIO m, ErrIO n => Nat.eqb m n
  | _, _ => false
  end.

(** ** The buffered source: [bufio.Reader]

    [pending] are the runes still to be delivered, each with the size in bytes
    that [ReadRune] reports for it (a byte that starts no valid encoding is
    delivered as U+FFFD with size 1); [final] is the error the exhausted
    source answers with, then and at every later call ([io.EOF] for a reader
    that simply ends); [lastRune] is the rune the last operation delivered,
    if that operation was a successful [ReadRune]: [bufio] keeps its size in
    a field that [ReadRune] sets and that a failed [ReadRune] and every
    [UnreadRune] clear, so that [UnreadRune] succeeds only right after a
    successful [ReadRune]. *)

Record Reader : Type := mkReader {
  pending : list (rune * Z);
  lastRune : option (rune * Z);
  final : error
}.

Definition ReadRune (b : Reader) : (rune * Z * option error) * Reader :=
  match pending b with
  | [] => ((0, 0, Some (final b)), mkReader [] None (final b))
  | it :: rest => ((fst it, snd it, None), mkReader rest (Some it) (final b))
  end.

Definition UnreadRune (b : Reader) : option error * Reader :=
  match lastRune b with
  | None => (Some ErrInvalidUnreadRune, b)
  | Some it => (None, mkReader (it :: pending b) None (final b))
  end.

(** A source over a text whose runes are all encoded validly. *)
Definition NewReader (text : gostring) : Reader :=
  mkReader (map (fun r => (r, RuneLen r)) text) None EOF.

(** ** Messages and the scanner state *)

Record Message : Type := mkMessage {
  Raw : gostring;
  Tags : option (gmap gostring gostring);   (* [None] is the nil map *)
  Prefix : gostring;
  Command : gostring;
  Params : list gostring
}.

(** [Message{}] *)
Definition zeroMessage : Message := mkMessage [] None [] [] [].

Record Scanner : Type := mkScanner {
  src : Reader;
  buf : gostring;
  rawBuf : list rune;
  message : Message;
  err : option error;
  currentMsgSize : Z;
  lastRuneSize : Z
}.

Definition NewScanner (r : Reader) : Scanner :=
  mkScanner r [] [] zeroMessage None 0 0.

Definition set_src (r : Reader) (s : Scanner) : Scanner :=
  mkScanner r (buf s) (rawBuf s) (message s) (err s) (currentMsgSize s) (lastRuneSize s).
Definition set_buf (b : gostring) (s : Scanner) : Scanner :=
  mkScanner (src s) b (rawBuf s) (message s) (err s) (currentMsgSize s) (lastRuneSize s).
Definition set_rawBuf (r : list rune) (s : Scanner) : Scanner :=
  mkScanner (src s) (buf s) r (message s) (err s) (currentMsgSize s) (lastRuneSize s).
Definition set_message (m : Message) (s : Scanner) : Scanner :=
  mkScanner (src s) (buf s) (rawBuf s) m (err s) (currentMsgSize s) (lastRuneSize s).
Definition set_err (e : option error) (s : Scanner) : Scanner :=
  mkScanner (src s) (buf s) (rawBuf s) (message s) e (currentMsgSize s) (lastRuneSize s).
Definition set_currentMsgSize (n : Z) (s : Scanner) : Scanner :=
  mkScanner (src s) (buf s) (rawBuf s) (message s) (err s) n (lastRuneSize s).
Definition set_lastRuneSize (n : Z) (s : Scanner) : Scanner :=
  mkScanner (src s) (buf s) (rawBuf s) (message s) (err s) (currentMsgSize s) n.

(** ** Methods as state transformers *)

Inductive outcome (A : Type) : Type :=
| Ret (a : A) (s : Scanner)
| Panic
| OutOfFuel.
Arguments Ret {A} a s.
Arguments Panic {A}.
Arguments OutOfFuel {A}.

Definition M (A : Type) : Type := Scanner -> outcome A.

Global Instance M_ret : MRet M := fun A (a : A) s => Ret a s.

Global Instance M_bind : MBind M := fun A B (f : A -> M B) (m : M A) s =>
  match m s with
  | Ret a s' => f a s'
  | Panic => Panic
  | OutOfFuel => OutOfFuel
  end.

Definition modify (f : Scanner -> Scanner) : M unit := fun s => Ret tt (f s).
Definition gets {A} (f : Scanner -> A) : M A := fun s => Ret (f s) s.

(** The fuel a loop that consumes one rune per turn needs in state [s]. *)
Definition fuelOf (s : Scanner) : nat := S (length (pending (src s))).

(** [func (s *Scanner) read() (rune, error)] *)
Definition read : M (rune * option error) := fun s =>
  let '((rn, n, e), b) := ReadRune (src s) in
  match e with
  | Some e => Ret (0, Some e) (set_src b s)
  | None =>
      let s1 := set_src b s in
      let s2 := set_lastRuneSize n s1 in
      let s3 := set_currentMsgSize (currentMsgSize s2 + n) s2 in
      let s4 := set_rawBuf (rawBuf s3 ++ [rn]) s3 in
      if currentMsgSize s4 >? maxMessageSize
      then Ret (0, Some ErrMessageMalformed) s4
      else Ret (rn, None) s4
  end.

(** [func (s *Scanner) unread() error]; the slice expression
    [s.rawBuf[:len(s.rawBuf)-1]] panics on an empty [rawBuf]. *)
Definition unread : M (option error) := fun s =>
  let '(e, b) := UnreadRune (src s) in
  match e with
  | Some e => Ret (Some e) (set_src b s)
  | None =>
      let s1 := set_src b s in
      let s2 := set_currentMsgSize (currentMsgSize s1 - lastRuneSize s1) s1 in
      match rawBuf s2 with
      | [] => Panic
      | _ => Ret None (set_rawBuf (sliceTo (rawBuf s2) (Z.of_nat (length (rawBuf s2)) - 1)) s2)
      end
  end.

(** [func (s *Scanner) skipSpace()] *)
Fixpoint skipSpace_loop (fuel : nat) : M unit :=
  match fuel with
  | O => fun _ => OutOfFuel
  | S fuel' =>
      '(ch, _) ← read;
      if negb (ch =? runeSpace) then unread;; mret tt
      else skipSpace_loop fuel'
  end.

Definition skipSpace : M unit := fuel ← gets fuelOf; skipSpace_loop fuel.

(** [s.buf.Reset()] and [s.buf.WriteRune(ch)] *)
Definition buf_Reset : M unit := modify (set_buf []).
Definition buf_WriteRune (ch : rune) : M unit := modify (fun s => set_buf (buf s ++ [ch]) s).

(** The [for] loop of [readTags]: [Some e] when the loop returns from the
    method with the error [e], [None] when it is left by [break]. *)
Fixpoint readTags_loop (fuel : nat) : M (option error) :=
  match fuel with
  | O => fun _ => OutOfFuel
  | S fuel' =>
      '(ch, err) ← read;
      match err with
      | Some e =>
          if error_eqb e EOF then mret (Some ErrUnexpectedEOF) else mret (Some e)
      | None =>
          if ch =? runeSpace then mret None
          else
            len ← gets (fun s => byteLen (buf s));
            if len >=? maxMessageSize then mret (Some ErrMessageMalformed)
            else buf_WriteRune ch;; readTags_loop fuel'
      end
  end.

(** The [range] loop over [splitTags]; [None] when it returns from the method
    with [ErrMessageMalformed]. *)
Fixpoint splitTags_loop (splitTags : list gostring) (tagMap : gmap gostring gostring)
  : option (gmap gostring gostring) :=
  match splitTags with
  | [] => Some tagMap
  | v :: rest =>
      if Contains v runeEquals then
        let pair := Split v runeEquals in
        if (length pair <? 2)%nat || (2 <? length pair)%nat then None
        else splitTags_loop rest (<[pair !!! 0%nat := pair !!! 1%nat]> tagMap)
      else splitTags_loop rest (<[v := []]> tagMap)
  end.

(** [func (s *Scanner) readTags() (map[string]string, error)].  In the branch
    without a semicolon the source appends the text to the local slice [tags],
    which nothing reads afterwards: the branch leaves [tagMap] empty. *)
Definition readTags : M (option (gmap gostring gostring) * option error) :=
  buf_Reset;;
  fuel ← gets fuelOf;
  r ← readTags_loop fuel;
  match r with
  | Some e => mret (None, Some e)
  | None =>
      text ← gets buf;
      let tagMap : gmap gostring gostring := ∅ in
      let r :=
        if negb (Contains text runeSemicolon) then Some tagMap
        else splitTags_loop (Split text runeSemicolon) tagMap in
      match r with
      | None => mret (None, Some ErrMessageMalformed)
      | Some tagMap => skipSpace;; mret (Some tagMap, None)
      end
  end.

(** [func (s *Scanner) readPrefix() (string, error)] *)
Fixpoint readPrefix_loop (fuel : nat) : M (option error) :=
  match fuel with
  | O => fun _ => OutOfFuel
  | S fuel' =>
      '(ch, err) ← read;
      match err with
      | Some e =>
          if error_eqb e EOF then mret (Some ErrUnexpectedEOF) else mret (Some e)
      | None =>
          if ch =? runeSpace then mret None
          else buf_WriteRune ch;; readPrefix_loop fuel'
      end
  end.

Definition readPrefix : M (gostring * option error) :=
  buf_Reset;;
  fuel ← gets fuelOf;
  r ← readPrefix_loop fuel;
  match r with
  | Some e => mret ([], Some e)
  | None =>
      prefix ← gets buf;
      skipSpace;;
      mret (prefix, None)
  end.

(** [func (s *Scanner) readCommand() (string, error)] *)
Fixpoint readCommand_loop (fuel : nat) : M (option error) :=
  match fuel with
  | O => fun _ => OutOfFuel
  | S fuel' =>
      '(ch, err) ← read;
      match err with
      | Some e =>
          if error_eqb e EOF then mret (Some ErrUnexpectedEOF) else mret (Some e)
      | None =>
          if ch =? runeSpace then mret None
          else if ch =? runeCR then unread;; mret None
          else buf_WriteRune ch;; readCommand_loop fuel'
      end
  end.

Definition readCommand : M (gostring * option error) :=
  buf_Reset;;
  fuel ← gets fuelOf;
  r ← readCommand_loop fuel;
  match r with
  | Some e => mret ([], Some e)
  | None => skipSpace;; text ← gets buf; mret (text, None)
  end.

(** [func (s *Scanner) isLineEnd() (bool, error)] *)
Definition isLineEnd : M (bool * option error) :=
  '(ch, err) ← read;
  match err with
  | Some e => mret (false, Some e)
  | None =>
      if ch =? runeCR then
        '(ch, err) ← read;
        match err with
        | Some e => mret (false, Some e)
        | None =>
            if ch =? runeLF then mret (true, None)
            else unread;; unread;; mret (false, None)
        end
      else unread;; mret (false, None)
  end.

(** The reading loop of [readParams]. *)
Fixpoint readParams_loop (fuel : nat) : M (option error) :=
  match fuel with
  | O => fun _ => OutOfFuel
  | S fuel' =>
      '(end_, _) ← isLineEnd;
      if (end_ : bool) then mret None
      else
        '(ch, err) ← read;
        match err with
        | Some e =>
            if error_eqb e EOF then mret (Some ErrUnexpectedEOF) else mret (Some e)
        | None => buf_WriteRune ch;; readParams_loop fuel'
        end
  end.

(** The [range] loop of [readParams] over [paramString], from index [i] and
    for at most [n] more turns, with the parameters gathered so far. *)
Fixpoint params_loop (n : nat) (i : nat) (paramString : list gostring)
    (params : list gostring) : list gostring :=
  match n with
  | O => params
  | S n' =>
      match paramString !! i with
      | None => params
      | Some v =>
          if HasPrefix v runeColon then
            let paramString := <[i := sliceFrom (paramString !!! i) 1]> paramString in
            params ++ [Join (sliceFrom paramString (Z.of_nat i)) runeSpace]
          else
            params_loop n' (S i) paramString
              (if bool_decide (v ≠ []) then params ++ [v] else params)
      end
  end.

(** [func (s *Scanner) readParams() ([]string, error)] *)
Definition readParams : M (list gostring * option error) :=
  let params : list gostring := [] in
  buf_Reset;;
  fuel ← gets fuelOf;
  r ← readParams_loop fuel;
  match r with
  | Some e => mret ([], Some e)
  | None =>
      text ← gets buf;
      let paramString := Split text runeSpace in
      mret (params_loop (length paramString) 0 paramString params, None)
  end.

Definition with_Tags (t : option (gmap gostring gostring)) (m : Message) : Message :=
  mkMessage (Raw m) t (Prefix m) (Command m) (Params m).
Definition with_Prefix (p : gostring) (m : Message) : Message :=
  mkMessage (Raw m) (Tags m) p (Command m) (Params m).
Definition with_Command (c : gostring) (m : Message) : Message :=
  mkMessage (Raw m) (Tags m) (Prefix m) c (Params m).
Definition with_Params (p : list gostring) (m : Message) : Message :=
  mkMessage (Raw m) (Tags m) (Prefix m) (Command m) p.
Definition with_Raw (r : gostring) (m : Message) : Message :=
  mkMessage r (Tags m) (Prefix m) (Command m) (Params m).

(** The block of [next] guarded by [ch == runeAt]: the tags, the reset of the
    size counter and the next rune; [inr e] when the block returns from
    [next] with the error [e]. *)
Definition next_tags (msg : Message) (ch : rune) : M (Message * rune + error) :=
  if ch =? runeAt then
    '(tags, err) ← readTags;
    match err with
    | Some e => mret (inr e)
    | None =>
        modify (set_currentMsgSize 0);;
        '(ch, err) ← read;
        match err with
        | Some e =>
            if error_eqb e EOF then mret (inr ErrUnexpectedEOF) else mret (inr e)
        | None => mret (inl (with_Tags tags msg, ch))
        end
    end
  else mret (inl (msg, ch)).

(** The block of [next] that reads the prefix or pushes [ch] back. *)
Definition next_prefix (msg : Message) (ch : rune) : M (Message + error) :=
  if ch =? runeColon then
    '(p, err) ← readPrefix;
    match err with
    | Some e => mret (inr e)
    | None => mret (inl (with_Prefix p msg))
    end
  else unread;; mret (inl msg).

(** The rest of [next], from [readCommand] on. *)
Definition next_command (msg : Message) : M (Message * option error) :=
  '(c, err) ← readCommand;
  match err with
  | Some e => mret (zeroMessage, Some e)
  | None =>
      let msg := with_Command c msg in
      '(end_, err) ← isLineEnd;
      match err with
      | Some e => mret (zeroMessage, Some e)
      | None =>
          if (end_ : bool) then raw ← gets rawBuf; mret (with_Raw raw msg, None)
          else
            unread;;
            '(ps, err) ← readParams;
            match err with
            | Some e => mret (zeroMessage, Some e)
            | None =>
                let msg := with_Params ps msg in
                raw ← gets rawBuf; mret (with_Raw raw msg, None)
            end
      end
  end.

(** [func (s *Scanner) next() (Message, error)] *)
Definition next : M (Message * option error) :=
  modify (set_rawBuf []);;
  modify (set_currentMsgSize 0);;
  let msg := zeroMessage in
  '(ch, err) ← read;
  match err with
  | Some e => mret (zeroMessage, Some e)
  | None =>
      r ← next_tags msg ch;
      match r with
      | inr e => mret (zeroMessage, Some e)
      | inl (msg, ch) =>
          r ← next_prefix msg ch;
          match r with
          | inr e => mret (zeroMessage, Some e)
          | inl msg => next_command msg
          end
      end
  end.

(** [func (s *Scanner) Scan() bool] *)
Definition Scan : M bool :=
  e ← gets err;
  match e with
  | Some _ => mret false
  | None =>
      '(msg, e) ← next;
      match e with
      | Some e => modify (set_err (Some e));; mret false
      | None => modify (set_message msg);; mret true
      end
  end.

(** [func (s *Scanner) Message() Message] *)
Definition MessageOf (s : Scanner) : Message := message s.

(** [func (s *Scanner) Err() error] *)
Definition Err (s : Scanner) : option error :=
  match err s with
  | None => None
  | Some e => if error_eqb e EOF then None else Some e
  end.

(** ** Prefixes *)

Module Parsed.
Record Prefix : Type := mkPrefix {
  Raw : gostring;
  IsServer : bool;
  Nickname : gostring;
  User : gostring;
  Host : gostring
}.
End Parsed.

Definition set_Nickname (v : gostring) (p : Parsed.Prefix) : Parsed.Prefix :=
  Parsed.mkPrefix (Parsed.Raw p) (Parsed.IsServer p) v (Parsed.User p) (Parsed.Host p).
Definition set_User (v : gostring) (p : Parsed.Prefix) : Parsed.Prefix :=
  Parsed.mkPrefix (Parsed.Raw p) (Parsed.IsServer p) (Parsed.Nickname p) v (Parsed.Host p).
Definition set_Host (v : gostring) (p : Parsed.Prefix) : Parsed.Prefix :=
  Parsed.mkPrefix (Parsed.Raw p) (Parsed.IsServer p) (Parsed.Nickname p) (Parsed.User p) v.
Definition set_IsServer (v : bool) (p : Parsed.Prefix) : Parsed.Prefix :=
  Parsed.mkPrefix (Parsed.Raw p) v (Parsed.Nickname p) (Parsed.User p) (Parsed.Host p).

(** [func ParsePrefix(in string) *Prefix]; [None] is the nil pointer.
    Positions count the elements of the string. *)
Definition ParsePrefix (in_ : gostring) : option Parsed.Prefix :=
  match in_ with
  | [] => None
  | in0 :: _ =>
      if (in0 =? runeBang) || (in0 =? runeAt) then None
      else
        let dpos := Index in_ runeDot + 1 in
        let upos := Index in_ runeBang + 1 in
        let hpos := Index (sliceFrom in_ upos) runeAt + 1 + upos in
        let p := Parsed.mkPrefix in_ false [] [] [] in
        Some (
          if upos >? 0 then
            let p := set_Nickname (sliceTo in_ (upos - 1)) p in
            if (hpos >? 0) && (upos <? hpos) then
              let p := set_User (slice in_ upos (hpos - 1)) p in
              set_Host (sliceFrom in_ hpos) p
            else set_User (sliceFrom in_ upos) p
          else if hpos >? 0 then
            let p := set_Nickname (sliceTo in_ (hpos - 1)) p in
            set_Host (sliceFrom in_ hpos) p
          else if dpos >? 0 then
            let p := set_Host in_ p in
            set_IsServer true p
          else set_Nickname in_ p)
  end.

(** ** Running the scanner on concrete inputs *)

Definition scanText (text : gostring) : outcome (Message * option error) :=
  next (NewScanner (NewReader text)).

Definition resultOf {A} (o : outcome A) : option A :=
  match o with Ret a _ => Some a | _ => None end.

(** * Definitions used by the statements

    ** What a method establishes

    [wp m Q s]: run from [s], the method [m] returns (it neither panics nor
    runs out of fuel) and its result and final state satisfy [Q]. *)

Definition wp {A} (m : M A) (Q : A -> Scanner -> Prop) (s : Scanner) : Prop :=
  match m s with
  | Ret a s' => Q a s'
  | Panic | OutOfFuel => False
  end.

(** Total size, as [ReadRune] reports it, of a run of source runes. *)
Definition sizeOf (c : list (rune * Z)) : Z := foldr (fun it n => it.2 + n) 0 c.

(** ** The bookkeeping invariant of the cursor

    Within one call of [next] that started with the runes [inp] pending:
    [k] are the runes consumed before the last reset of the size counter and
    [c] those consumed since.  [rawBuf] holds exactly the consumed runes,
    [currentMsgSize] is the size of [c], a rune that can still be unread is
    the last one of [c], and [lastRuneSize] is its size.  The stored message
    [m0], the stored error [e0] and the source's final error [fin] do not
    move. *)
Definition Inv (inp : list (rune * Z)) (m0 : Message) (e0 : option error)
    (fin : error) (k c : list (rune * Z)) (s : Scanner) : Prop :=
  inp = k ++ c ++ pending (src s)
  /\ rawBuf s = (k ++ c).*1
  /\ currentMsgSize s = sizeOf c
  /\ (forall it, lastRune (src s) = Some it ->
        lastRuneSize s = it.2 /\ exists c', c = c' ++ [it])
  /\ message s = m0 /\ err s = e0 /\ final (src s) = fin.

(** The two kinds of failure of a scan step: the malformed-message error, or
    an error of the exhausted source [fin], returned as it is or, when it is
    [io.EOF], as [io.ErrUnexpectedEOF]; in the second case nothing is left
    pending in the source. *)
Definition endOrMalformed (fin : error) (e : error) (s' : Scanner) : Prop :=
  e = ErrMessageMalformed
  \/ (pending (src s') = []
      /\ (e = fin \/ (fin = EOF /\ e = ErrUnexpectedEOF))).

(** The next rune of the source is a space or a carriage return. *)
Definition atSeparator (s : Scanner) : Prop :=
  exists it rest, pending (src s) = it :: rest
                  /\ (it.1 = runeSpace \/ it.1 = runeCR).

(** The state is at the end of a message whose size counter is within
    bounds: what [isLineEnd] establishes when it answers [true]. *)
Definition atLineEnd (c : list (rune * Z)) (s : Scanner) : Prop :=
  sizeOf c <= maxMessageSize /\ exists body, rawBuf s = body ++ CRLF.

(** What a successful call of [next] has consumed: [k] up to the reset of the
    size counter (empty without a tag block), then [c]. *)
Definition consumed (s : Scanner) (m : Message) (s' : Scanner)
    (k c : list (rune * Z)) : Prop :=
  pending (src s) = k ++ c ++ pending (src s')
  /\ Raw m = (k ++ c).*1
  /\ sizeOf k <= maxMessageSize
  /\ sizeOf c <= maxMessageSize
  /\ currentMsgSize s' = sizeOf c
  /\ (forall it rest, pending (src s) = it :: rest -> it.1 <> runeAt -> k = [])
  /\ exists body, Raw m = body ++ CRLF.

(** Where the command reader started in a successful call of [next]. *)
Definition commandRead (s : Scanner) (m : Message) (s1 : Scanner) : Prop :=
  (exists pre, pending (src s) = pre ++ pending (src s1)
     /\ (forall it rest, pending (src s) = it :: rest ->
           it.1 <> runeAt -> it.1 <> runeColon -> pre = []))
  /\ (exists s2, readCommand s1 = Ret (Command m, None) s2)
  /\ (Command m = [] <-> atSeparator s1).

(** ** Parameters: the specification's reading of [readParams]

    Definition following the specification's words: walking the tokens in
    order, the first token that begins with the trailing-parameter marker has
    the marker stripped and becomes, together with all the tokens after it
    rejoined with single spaces, the one final parameter, and the walk stops;
    any other non-empty token becomes a parameter of its own; empty tokens
    are dropped. *)
Fixpoint walkTokens_spec (tokens : list gostring) : list gostring :=
  match tokens with
  | [] => []
  | [] :: rest => walkTokens_spec rest
  | (c :: tail) :: rest =>
      if c =? runeColon then [Join (tail :: rest) runeSpace]
      else (c :: tail) :: walkTokens_spec rest
  end.

(** The parameters of the accumulated parameter text, by the specification:
    the text is split on single spaces and the tokens are walked. *)
Definition Params_spec (text : gostring) : list gostring :=
  walkTokens_spec (Split text runeSpace).

(** ** Prefixes: the specification's reading of [ParsePrefix] *)

(** The text before the first [sep] and the text after it, if [sep] occurs. *)
Fixpoint cutAt (sep : rune) (s : gostring) : option (gostring * gostring) :=
  match s with
  | [] => None
  | c :: s' =>
      if c =? sep then Some ([], s')
      else match cutAt sep s' with
           | Some (before, after) => Some (c :: before, after)
           | None => None
           end
  end.

(** Definition following the specification's words. *)
Definition ParsePrefix_spec (s : gostring) : option Parsed.Prefix :=
  match s with
  | [] => None
  | c :: _ =>
      if (c =? runeBang) || (c =? runeAt) then None
      else Some
        match cutAt runeBang s with
        | Some (nickname, rest) =>
            match cutAt runeAt rest with
            | Some (user, host) => Parsed.mkPrefix s false nickname user host
            | None => Parsed.mkPrefix s false nickname rest []
            end
        | None =>
            match cutAt runeAt s with
            | Some (nickname, host) => Parsed.mkPrefix s false nickname [] host
            | None =>
                if Contains s runeDot then Parsed.mkPrefix s true [] [] s
                else Parsed.mkPrefix s false s [] []
            end
        end
  end.

(** ** Concrete runs *)

(** Scanning a text from a fresh scanner: the message of a successful call
    of [next], or the error of a failed one. *)
Definition scanned (text : gostring) : option Message :=
  match scanText text with
  | Ret (m, None) _ => Some m
  | _ => None
  end.

Definition scanError (text : gostring) : option error :=
  match scanText text with
  | Ret (_, Some e) _ => Some e
  | _ => None
  end.

(** The state and the message a method ends with. *)
Definition stateAfter {A} (m : M A) (s : Scanner) : Scanner :=
  match m s with
  | Ret _ s' => s'
  | _ => s
  end.

Definition messageAfter (m : M (Message * option error)) (s : Scanner) : Message :=
  match m s with
  | Ret (msg, _) _ => msg
  | _ => zeroMessage
  end.

(** One [read], result dropped. *)
Definition readStep (s : Scanner) : Scanner := stateAfter read s.

(** The caller's loop [for s.Scan() { ... s.Message() ... }] followed by
    [s.Err()]: the messages delivered and the error reported at the end. *)
Fixpoint scanLoop (fuel : nat) (s : Scanner) (acc : list Message)
  : option (list Message * option error) :=
  match fuel with
  | O => None
  | S fuel' =>
      match Scan s with
      | Ret true s' => scanLoop fuel' s' (acc ++ [MessageOf s'])
      | Ret false s' => Some (acc, Err s')
      | _ => None
      end
  end.

Definition scanAll (text : gostring) : option (list Message * option error) :=
  scanLoop (S (length text)) (NewScanner (NewReader text)) [].

(** What [TestScanner] expects for the line [text]: one message with the
    given fields, whose [Raw] is the line with its terminator, and then a
    clean end. *)
Definition expectScan (text : string) (tags : option (gmap gostring gostring))
    (prefix command : gostring) (params : list gostring)
  : option (list Message * option error) :=
  Some ([mkMessage (str text ++ CRLF) tags prefix command params], None).

(** What [TestParsePrefix] looks at, [Raw] apart: the table of the test
    leaves [Raw] empty, while [ParsePrefix] sets it to its input. *)
Definition prefixFields (p : option Parsed.Prefix)
  : option (bool * gostring * gostring * gostring) :=
  (fun p => (Parsed.IsServer p, Parsed.Nickname p, Parsed.User p, Parsed.Host p)) <$> p.

(** [n + 1] calls of [Scan] in a row; the answer of the last one. *)
Fixpoint repeatScan (n : nat) : M bool :=
  match n with
  | O => Scan
  | S n' => Scan;; repeatScan n'
  end.

(** ** The stages of a call of [next]

    The states a call of [next] started in [s] goes through, each computed
    by running the code up to that point. *)

(** After the first [read]. *)
Definition firstRead (s : Scanner) : Scanner :=
  readStep (set_currentMsgSize 0 (set_rawBuf [] s)).

(** Where [readTags], called after the first [read], leaves the scanner:
    the state in which [next] resets the size counter. *)
Definition tagsRead (s : Scanner) : Scanner := stateAfter readTags (firstRead s).

(** Whether the next rune of the source is [@]: the line has a tag block. *)
Definition startsWithAt (s : Scanner) : bool :=
  match pending (src s) with
  | it :: _ => it.1 =? runeAt
  | [] => false
  end.

(** Where the segment of the line that is budgeted last begins: after the
    tag block when there is one, at the start of the line otherwise. *)
Definition segmentStart (s : Scanner) : Scanner :=
  if startsWithAt s then tagsRead s else s.

(** The state in which [next] calls [readCommand]: after the first [read],
    the tag block and the prefix block. *)
Definition commandStart (s : Scanner) : Scanner :=
  match read (set_currentMsgSize 0 (set_rawBuf [] s)) with
  | Ret (ch, _) s1 =>
      match next_tags zeroMessage ch s1 with
      | Ret (inl (msg, ch)) s2 => stateAfter (next_prefix msg ch) s2
      | _ => s1
      end
  | _ => s
  end.

(** The state in which [next] tests for the end of the line: where
    [readCommand] has left the scanner. *)
Definition commandEnd (s : Scanner) : Scanner :=
  stateAfter readCommand (commandStart s).

(** The state in which [next] calls [readParams]: after the test for the
    end of the line and the [unread] that follows it. *)
Definition paramsStart (s : Scanner) : Scanner :=
  stateAfter unread (stateAfter isLineEnd (commandEnd s)).

(** * The earlier version of the file

    The file holds an earlier version of the package, whose scanner has the
    same [read], [unread] and buffers and exports [next] as [Next].  Its
    [readTrailingParam], which nothing calls, is the one method the later
    version does not have.  The error it returns at the end of the input is
    the package's own [ErrUnexpectedEOF] there. *)

(** The [for] loop of [readTrailingParam]: [Some e] when the loop returns
    from the method with the error [e], [None] when it is left by [break]. *)
Fixpoint readTrailingParam_loop (fuel : nat) : M (option error) :=
  match fuel with
  | O => fun _ => OutOfFuel
  | S fuel' =>
      '(ch, err) ← read;
      match err with
      | Some e =>
          if error_eqb e EOF then mret (Some ErrUnexpectedEOF) else mret (Some e)
      | None =>
          if ch =? runeCR then
            '(ch, _) ← read;
            if negb (ch =? runeLF) then mret (Some ErrMessageMalformed)
            else mret None
          else buf_WriteRune ch;; readTrailingParam_loop fuel'
      end
  end.

(** [func (s *Scanner) readTrailingParam() (string, error)] *)
Definition readTrailingParam : M (gostring * option error) :=
  buf_Reset;;
  fuel ← gets fuelOf;
  r ← readTrailingParam_loop fuel;
  match r with
  | Some e => mret ([], Some e)
  | None => text ← gets buf; mret (text, None)
  end.

(** * Runs on known inputs, formatted lines

    ** Progress of the cursor *)

(** From [s] to [s'] exactly the runes [c] have been consumed: they have
    left the source and have been added to the raw buffer and to the size
    counter; the source's final error, the stored message and the stored
    error are unchanged. *)
Definition advanced (s : Scanner) (c : list (rune * Z)) (s' : Scanner) : Prop :=
  pending (src s) = c ++ pending (src s')
  /\ rawBuf s' = rawBuf s ++ c.*1
  /\ currentMsgSize s' = currentMsgSize s + sizeOf c
  /\ final (src s') = final (src s)
  /\ message s' = message s /\ err s' = err s.

(** Where [skipSpace] stops when the size counter is [cur]: the source is
    exhausted, or the next rune is not a space, or reading it would exceed
    the budget (the [read] then fails and its error is discarded). *)
Definition stopsSkip (cur : Z) (rest : list (rune * Z)) : Prop :=
  match rest with
  | [] => True
  | it :: _ => it.1 <> runeSpace \/ cur + it.2 > maxMessageSize
  end.

(** A source text whose runes are all encoded validly, as [ReadRune]
    delivers it. *)
Definition encode (text : gostring) : list (rune * Z) :=
  map (fun r => (r, RuneLen r)) text.

(** What [Err] reports once [next] has returned the final error [fin] of
    the source. *)
Definition finalErr (fin : error) : option error :=
  if error_eqb fin EOF then None else Some fin.

(** ** The pure parts of [readTags] and [readParams] *)

(** The second half of [readTags]: the map built from the tag text, [None]
    when the method returns [ErrMessageMalformed]. *)
Definition tagMapOf (text : gostring) : option (gmap gostring gostring) :=
  if negb (Contains text runeSemicolon) then Some ∅
  else splitTags_loop (Split text runeSemicolon) ∅.

(** The second half of [readParams]: the parameters built from the
    parameter text. *)
Definition paramsOf (text : gostring) : list gostring :=
  let paramString := Split text runeSpace in
  params_loop (length paramString) 0 paramString [].

(** ** Formatted tags and parameters *)

(** A tag: a key, or a key, [=] and a value. *)
Definition tagToken (e : gostring * option gostring) : gostring :=
  match e.2 with
  | Some v => e.1 ++ runeEquals :: v
  | None => e.1
  end.

(** Tags separated by semicolons. *)
Definition tagsText (entries : list (gostring * option gostring)) : gostring :=
  Join (tagToken <$> entries) runeSemicolon.

(** The map of a list of tags: every key bound to its value, the empty
    string for a bare key, a later tag overriding an earlier one. *)
Definition tagsMap (entries : list (gostring * option gostring))
  : gmap gostring gostring :=
  foldl (fun m e => <[e.1 := default [] e.2]> m) ∅ entries.

(** A tag whose key and value hold neither [;] nor [=]. *)
Definition plainTag (e : gostring * option gostring) : Prop :=
  Contains e.1 runeSemicolon = false /\ Contains e.1 runeEquals = false
  /\ match e.2 with
     | Some v => Contains v runeSemicolon = false /\ Contains v runeEquals = false
     | None => True
     end.

(** A key or a value without space, [;] and [=]. *)
Definition tagWord (w : gostring) : Prop :=
  Forall (fun r => r <> runeSpace /\ r <> runeSemicolon /\ r <> runeEquals) w.

(** A parameter that can stand in the middle of a parameter list: not
    empty, without space, not starting with a colon. *)
Definition plainParam (w : gostring) : Prop :=
  w <> [] /\ Contains w runeSpace = false /\ HasPrefix w runeColon = false.

(** Parameters separated by single spaces, the trailing one, if any, after
    a colon. *)
Definition paramTokens (middle : list gostring) (trailing : option gostring)
  : list gostring :=
  middle ++ match trailing with Some t => [runeColon :: t] | None => [] end.

Definition paramsText (middle : list gostring) (trailing : option gostring) : gostring :=
  Join (paramTokens middle trailing) runeSpace.

(** ** Formatted lines *)

Definition spaces (n : nat) : gostring := repeat runeSpace n.

(** The parts of a line: the tags, as keys with their optional values, and
    the prefix, each with the number of spaces that follow it beyond the
    first; the command; the parameter text that follows the command and one
    space. *)
Record Line : Type := mkLine {
  lineTags : option (list (gostring * option gostring) * nat);
  linePrefix : option (gostring * nat);
  lineCommand : gostring;
  lineParams : option gostring
}.

Definition tagBlock (l : Line) : gostring :=
  match lineTags l with
  | Some (entries, n) => runeAt :: tagsText entries ++ spaces (S n)
  | None => []
  end.

Definition prefixBlock (l : Line) : gostring :=
  match linePrefix l with
  | Some (p, n) => runeColon :: p ++ spaces (S n)
  | None => []
  end.

Definition paramBlock (b : option gostring) : gostring :=
  match b with Some b => runeSpace :: b | None => [] end.

(** The line after its tag block, terminator included. *)
Definition mainBlock (l : Line) : gostring :=
  prefixBlock l ++ lineCommand l ++ paramBlock (lineParams l) ++ CRLF.

(** The line as it is sent. *)
Definition wire (l : Line) : gostring := tagBlock l ++ mainBlock l.

(** The message the line stands for, read off its format: its text as
    sent; the map that binds every key of the tag block to its value, no
    map without a tag block; the prefix; the command; the parameters the
    specification reads off the parameter text, none without parameter
    text. *)
Definition parsed (l : Line) : Message :=
  mkMessage (wire l)
    (match lineTags l with Some (entries, _) => Some (tagsMap entries) | None => None end)
    (match linePrefix l with Some (p, _) => p | None => [] end)
    (lineCommand l)
    (match lineParams l with Some b => Params_spec b | None => [] end).

(** The lines [next] reads back: the command is not empty and holds neither
    space nor carriage return; the tags are plain, their text holds no
    space, the block does not hold exactly one tag (a block with a single
    tag is decoded to the empty map) and fits the budget; without tag block
    and prefix the command does not start with [@]; the prefix holds no
    space; without prefix the command does not start with [:]; the parameter
    text holds no carriage return; the line after the tag block fits the
    budget. *)
Definition wellFormed (l : Line) : Prop :=
  lineCommand l <> []
  /\ Forall (fun r => r <> runeSpace /\ r <> runeCR) (lineCommand l)
  /\ match lineTags l with
     | Some (entries, _) =>
         Forall (fun r => r <> runeSpace) (tagsText entries)
         /\ (Forall plainTag entries /\ length entries <> 1%nat)
         /\ byteLen (tagBlock l) <= maxMessageSize
     | None =>
         match linePrefix l with
         | Some _ => True
         | None => head (lineCommand l) <> Some runeAt
         end
     end
  /\ match linePrefix l with
     | Some (p, _) => Forall (fun r => r <> runeSpace) p
     | None => head (lineCommand l) <> Some runeColon
     end
  /\ match lineParams l with
     | Some b => Forall (fun r => r <> runeCR) b
     | None => True
     end
  /\ byteLen (mainBlock l) <= maxMessageSize.

(** ** Prefixes *)

(** A text that [ParsePrefix] accepts: not empty, not starting with [!] or
    [@]. *)
Definition startsName (s : gostring) : Prop :=
  match s with
  | c :: _ => c <> runeBang /\ c <> runeAt
  | [] => False
  end.

(** The slice expression [s[lo:hi]] as Go evaluates it: a run-time panic,
    here [None], unless [0 <= lo <= hi <= len(s)]. *)
Definition sliceChecked {A} (s : list A) (lo hi : Z) : option (list A) :=
  if (0 <=? lo) && (lo <=? hi) && (hi <=? Z.of_nat (length s))
  then Some (slice s lo hi) else None.

(** [ParsePrefix] with the bounds check of every slice expression written
    out, [s[lo:]] being [s[lo:len(s)]] and [s[:hi]] being [s[0:hi]]: the
    outer [None] is a run-time panic, the inner one the nil pointer.  The
    index expression [in[0]] is evaluated on a non-empty string only. *)
Definition ParsePrefix_checked (in_ : gostring) : option (option Parsed.Prefix) :=
  let len := Z.of_nat (length in_) in
  match in_ with
  | [] => Some None
  | in0 :: _ =>
      if (in0 =? runeBang) || (in0 =? runeAt) then Some None
      else
        let dpos := Index in_ runeDot + 1 in
        let upos := Index in_ runeBang + 1 in
        tail ← sliceChecked in_ upos len;
        let hpos := Index tail runeAt + 1 + upos in
        let p := Parsed.mkPrefix in_ false [] [] [] in
        if upos >? 0 then
          nick ← sliceChecked in_ 0 (upos - 1);
          let p := set_Nickname nick p in
          if (hpos >? 0) && (upos <? hpos) then
            user ← sliceChecked in_ upos (hpos - 1);
            let p := set_User user p in
            host ← sliceChecked in_ hpos len;
            Some (Some (set_Host host p))
          else
            user ← sliceChecked in_ upos len;
            Some (Some (set_User user p))
        else if hpos >? 0 then
          nick ← sliceChecked in_ 0 (hpos - 1);
          let p := set_Nickname nick p in
          host ← sliceChecked in_ hpos len;
          Some (Some (set_Host host p))
        else if dpos >? 0 then
          let p := set_Host in_ p in
          Some (Some (set_IsServer true p))
        else Some (Some (set_Nickname in_ p))
  end.

(** ** Scanners that differ in what a scan step overwrites *)

(** Two scanner states that agree on the cursor: the source, the raw
    buffer, the size counter and the size of the last rune, and, when
    [withBuf] is set, the scratch buffer.  The stored message and the stored
    error are left out. *)
Definition sameCursor (withBuf : bool) (a b : Scanner) : Prop :=
  src a = src b /\ rawBuf a = rawBuf b /\ currentMsgSize a = currentMsgSize b
  /\ lastRuneSize a = lastRuneSize b /\ (withBuf = true -> buf a = buf b).

(** Two outcomes with the same result and states that agree. *)
Definition sameRun {A} (withBuf : bool) (o1 o2 : outcome A) : Prop :=
  match o1, o2 with
  | Ret x a, Ret y b => x = y /\ sameCursor withBuf a b
  | Panic, Panic | OutOfFuel, OutOfFuel => True
  | _, _ => False
  end.

(** * Reasoning about methods *)

Lemma wp_ret {A} (a : A) (Q : A -> Scanner -> Prop) s : Q a s -> wp (mret a) Q s.
Proof. exact (fun H => H). Qed.

Lemma wp_bind {A B} (m : M A) (f : A -> M B) (Q : B -> Scanner -> Prop) s :
  wp m (fun a s' => wp (f a) Q s') s -> wp (m ≫= f) Q s.
Proof.
  unfold wp, mbind, M_bind. destruct (m s); auto.
Qed.

Lemma wp_bind_ret {A B} (m : M A) (f : A -> M B) (Q : B -> Scanner -> Prop) s a s1 :
  m s = Ret a s1 -> wp (f a) Q s1 -> wp (m ≫= f) Q s.
Proof.
  unfold wp, mbind, M_bind. intros ->. auto.
Qed.

Lemma wp_mono {A} (m : M A) (P Q : A -> Scanner -> Prop) s :
  wp m P s -> (forall a s', P a s' -> Q a s') -> wp m Q s.
Proof.
  unfold wp. destruct (m s); auto.
Qed.

Lemma wp_gets {A} (f : Scanner -> A) (Q : A -> Scanner -> Prop) s :
  Q (f s) s -> wp (gets f) Q s.
Proof. exact (fun H => H). Qed.

Lemma wp_modify (f : Scanner -> Scanner) (Q : unit -> Scanner -> Prop) s :
  Q tt (f s) -> wp (modify f) Q s.
Proof. exact (fun H => H). Qed.

Lemma wp_elim {A} (m : M A) (Q : A -> Scanner -> Prop) s a s' :
  wp m Q s -> m s = Ret a s' -> Q a s'.
Proof.
  unfold wp. intros H E. rewrite E in H. exact H.
Qed.

Lemma wp_returns {A} (m : M A) (Q : A -> Scanner -> Prop) s :
  wp m Q s -> exists a s', m s = Ret a s' /\ Q a s'.
Proof.
  unfold wp. destruct (m s) as [a s'| |]; [eauto | tauto | tauto].
Qed.

Lemma sizeOf_app c1 c2 : sizeOf (c1 ++ c2) = sizeOf c1 + sizeOf c2.
Proof.
  induction c1 as [|it c1 IH]; simpl; [reflexivity | rewrite IH; lia].
Qed.

Lemma sizeOf_length c :
  Forall (fun it : rune * Z => 1 <= it.2) c -> Z.of_nat (length c) <= sizeOf c.
Proof.
  induction 1 as [|it c H _ IH]; simpl; lia.
Qed.

Lemma byteLen_app a b : byteLen (a ++ b) = byteLen a + byteLen b.
Proof.
  induction a as [|r a IH]; simpl; [reflexivity | rewrite IH; lia].
Qed.

Lemma RuneLen_pos r : 1 <= RuneLen r.
Proof.
  unfold RuneLen. destruct (r <? 128), (r <? 2048), (r <? 65536); lia.
Qed.

Lemma byteLen_nonneg s : 0 <= byteLen s.
Proof.
  induction s as [|r s IH]; simpl; [lia | pose proof (RuneLen_pos r); lia].
Qed.

Lemma byteLen_fst c :
  Forall (fun it : rune * Z => it.2 = RuneLen it.1) c -> byteLen (c.*1) = sizeOf c.
Proof.
  induction 1 as [|it c H _ IH]; [reflexivity|].
  rewrite fmap_cons. change (RuneLen it.1 + byteLen (c.*1) = it.2 + sizeOf c).
  rewrite IH, H. reflexivity.
Qed.

Lemma sliceTo_snoc {A} (l : list A) (x : A) :
  sliceTo (l ++ [x]) (Z.of_nat (length (l ++ [x])) - 1) = l.
Proof.
  unfold sliceTo. rewrite length_app. simpl.
  replace (Z.to_nat (Z.of_nat (length l + 1) - 1)) with (length l) by lia.
  apply take_app_length.
Qed.

Lemma match_snoc {A B} (l : list A) (x : A) (p q : B) :
  match l ++ [x] with [] => p | _ :: _ => q end = q.
Proof. destruct l; reflexivity. Qed.

Lemma error_eqb_eq a b : error_eqb a b = true <-> a = b.
Proof.
  destruct a, b; simpl; split; try congruence; try reflexivity.
  - intros H. apply Nat.eqb_eq in H. congruence.
  - intros H. injection H as ->. apply Nat.eqb_refl.
Qed.

Ltac wp_call spec :=
  apply wp_bind; eapply wp_mono; [eapply spec; eauto|]; cbv beta.

Section Tracking.
Variable inp : list (rune * Z).
Variable m0 : Message.
Variable e0 : option error.
Variable fin : error.

Local Abbreviation Tracked := (Inv inp m0 e0 fin).
Local Abbreviation Failure := (endOrMalformed fin).

Lemma Inv_set_buf k c b s : Tracked k c s -> Tracked k c (set_buf b s).
Proof. exact (fun H => H). Qed.

Lemma Failure_malformed s : Failure ErrMessageMalformed s.
Proof. left. reflexivity. Qed.

Lemma Failure_source s : pending (src s) = [] -> Failure fin s.
Proof. intros H. right. auto. Qed.

Lemma Failure_converted e s :
  Failure e s -> Failure (if error_eqb e EOF then ErrUnexpectedEOF else e) s.
Proof.
  intros H. destruct (error_eqb e EOF) eqn:He; [|exact H].
  apply error_eqb_eq in He as ->.
  destruct H as [H|(Hp & [H|(_ & H)])]; try discriminate.
  right. split; [exact Hp|]. right. auto.
Qed.

(** [if err == io.EOF { return ..., io.ErrUnexpectedEOF }; return ..., err] *)
Lemma error_case_wp {A} (e : error) (f : error -> A) (Q : A -> Scanner -> Prop) s :
  Q (f (if error_eqb e EOF then ErrUnexpectedEOF else e)) s ->
  wp (if error_eqb e EOF then mret (f ErrUnexpectedEOF) else mret (f e)) Q s.
Proof.
  intros H. destruct (error_eqb e EOF); apply wp_ret, H.
Qed.

Lemma read_wp k c s :
  Tracked k c s ->
  wp read (fun r s' =>
    buf s' = buf s /\
    match pending (src s) with
    | [] => r = (0, Some fin) /\ Tracked k c s' /\ lastRune (src s') = None
            /\ pending (src s') = []
    | it :: rest =>
        Tracked k (c ++ [it]) s' /\ lastRune (src s') = Some it
        /\ pending (src s') = rest
        /\ (if sizeOf c + it.2 >? maxMessageSize
            then r = (0, Some ErrMessageMalformed)
            else r = (it.1, None))
    end) s.
Proof.
  intros (Hin & Hraw & Hsz & Hlast & Hm & He & Hf).
  unfold wp, read, ReadRune.
  destruct (pending (src s)) as [|it rest] eqn:Hp; simpl.
  - split; [reflexivity|]. split; [congruence|].
    split; [|auto]. unfold Inv; simpl.
    repeat split; auto; try discriminate.
  - rewrite Hsz.
    assert (HI : forall s', src s' = mkReader rest (Some it) (final (src s)) ->
               rawBuf s' = rawBuf s ++ [it.1] ->
               currentMsgSize s' = sizeOf c + it.2 ->
               lastRuneSize s' = it.2 -> message s' = message s ->
               err s' = err s -> Tracked k (c ++ [it]) s').
    { intros s' Hs' Hr' Hc' Hl' Hm' He'. unfold Inv. rewrite Hs'; simpl.
      repeat split.
      - rewrite Hin, <- (app_assoc c). reflexivity.
      - rewrite Hr', Hraw, !fmap_app, <- app_assoc. reflexivity.
      - rewrite Hc', sizeOf_app. simpl. lia.
      - injection H as <-. exact Hl'.
      - injection H as <-. eauto.
      - congruence.
      - congruence.
      - exact Hf. }
    destruct (sizeOf c + it.2 >? maxMessageSize); simpl;
      (split; [reflexivity|]); (split; [apply HI; reflexivity|]); auto.
Qed.

(** What the readers use of [read]: the result is an error of the two kinds
    above, or a rune that took the counter no further than the budget. *)
Lemma read_cases k c s :
  Tracked k c s ->
  wp read (fun r s' =>
    buf s' = buf s /\
    (length (pending (src s')) <= length (pending (src s)))%nat /\
    ((exists e, r = (0, Some e) /\ Failure e s' /\ exists c', Tracked k c' s')
     \/ (exists it, r = (it.1, None)
           /\ pending (src s) = it :: pending (src s')
           /\ Tracked k (c ++ [it]) s'
           /\ lastRune (src s') = Some it
           /\ sizeOf (c ++ [it]) <= maxMessageSize))) s.
Proof.
  intros HI. eapply wp_mono; [apply (read_wp k c s HI)|].
  intros r s' (Hb & H). split; [exact Hb|].
  destruct (pending (src s)) as [|it rest].
  - destruct H as (-> & HI' & _ & Hp). split; [rewrite Hp; reflexivity|].
    left. exists fin.
    split; [reflexivity|]. split; [apply Failure_source, Hp|eauto].
  - destruct H as (HI' & Hl & Hp & Hr). split; [rewrite Hp; simpl; lia|].
    destruct (Z.gtb_spec (sizeOf c + it.2) maxMessageSize) as [Hgt|Hle]; subst r.
    + left. exists ErrMessageMalformed.
      split; [reflexivity|]. split; [apply Failure_malformed|eauto].
    + right. exists it. rewrite Hp, sizeOf_app. simpl.
      split; [reflexivity|]. split; [reflexivity|]. split; [exact HI'|].
      split; [exact Hl|lia].
Qed.

Lemma unread_wp k c s :
  Tracked k c s ->
  wp unread (fun e s' =>
    buf s' = buf s /\ lastRune (src s') = None /\
    match lastRune (src s) with
    | None => e = Some ErrInvalidUnreadRune /\ Tracked k c s'
              /\ pending (src s') = pending (src s)
    | Some it => e = None /\ pending (src s') = it :: pending (src s)
                 /\ exists c', c = c' ++ [it] /\ Tracked k c' s'
    end) s.
Proof.
  intros (Hin & Hraw & Hsz & Hlast & Hm & He & Hf).
  unfold wp, unread, UnreadRune.
  destruct (lastRune (src s)) as [it|] eqn:Hl; simpl.
  - destruct (Hlast it eq_refl) as (Hls & c' & ->).
    rewrite Hraw, app_assoc, fmap_app. simpl.
    rewrite match_snoc, sliceTo_snoc.
    split; [reflexivity|]. split; [reflexivity|].
    split; [reflexivity|]. split; [reflexivity|].
    exists c'. split; [reflexivity|]. unfold Inv; simpl.
    repeat split; auto; try discriminate.
    + rewrite Hin, <- (app_assoc c'). reflexivity.
    + rewrite Hsz, Hls, sizeOf_app. simpl. lia.
  - repeat split; auto; simpl in *; intros; congruence.
Qed.

(** [unread] right after a successful [read] of [it] takes the cursor back. *)
Lemma unread_after_read k c it s :
  Tracked k (c ++ [it]) s -> lastRune (src s) = Some it ->
  wp unread (fun _ s' =>
    buf s' = buf s /\ lastRune (src s') = None
    /\ pending (src s') = it :: pending (src s) /\ Tracked k c s') s.
Proof.
  intros HI Hl. eapply wp_mono; [apply (unread_wp _ _ _ HI)|].
  intros e s' (Hb & Hl' & H). rewrite Hl in H.
  destruct H as (_ & Hp & c' & Hc & HI'). apply app_inj_tail in Hc as [<- _]. auto.
Qed.

Lemma skipSpace_loop_wp fuel : forall k c s,
  Tracked k c s ->
  (length (pending (src s)) < fuel)%nat ->
  wp (skipSpace_loop fuel) (fun _ s' =>
    buf s' = buf s /\ lastRune (src s') = None /\
    exists c', Tracked k c' s' /\
      (sizeOf c <= maxMessageSize -> sizeOf c' <= maxMessageSize)) s.
Proof.
  induction fuel as [|fuel IH]; intros k c s HI Hfuel; [lia|].
  simpl. wp_call read_wp.
  intros [ch e] s1 (Hb & H).
  destruct (pending (src s)) as [|it rest] eqn:Hp.
  - destruct H as (Hr & HI1 & Hl1 & _). injection Hr as -> ->. simpl.
    wp_call unread_wp. intros e s2 (Hb2 & Hl2 & H2). rewrite Hl1 in H2.
    destruct H2 as (_ & HI2 & _). apply wp_ret.
    split; [congruence|]. split; [exact Hl2|]. exists c. auto.
  - destruct H as (HI1 & Hl1 & Hp1 & Hr).
    assert (Hback : wp (unread;; mret ()) (fun _ s' =>
              buf s' = buf s /\ lastRune (src s') = None /\
              exists c', Tracked k c' s' /\
                (sizeOf c <= maxMessageSize -> sizeOf c' <= maxMessageSize)) s1).
    { wp_call unread_after_read. intros e' s2 (Hb2 & Hl2 & _ & HI2).
      apply wp_ret. split; [congruence|]. split; [exact Hl2|]. exists c. auto. }
    destruct (Z.gtb_spec (sizeOf c + it.2) maxMessageSize) as [Hgt|Hle];
      injection Hr as -> ->.
    + exact Hback.
    + destruct (it.1 =? runeSpace) eqn:Hsp; simpl; [|exact Hback].
      eapply wp_mono;
        [apply (IH k (c ++ [it]) s1 HI1); rewrite Hp1; simpl in Hfuel; lia|].
      intros _ s2 (Hb2 & Hl2 & c' & HI2 & Hsz). split; [congruence|].
      split; [exact Hl2|]. exists c'. split; [exact HI2|].
      intros _. apply Hsz. rewrite sizeOf_app. simpl. lia.
Qed.

Lemma skipSpace_wp k c s :
  Tracked k c s ->
  wp skipSpace (fun _ s' =>
    buf s' = buf s /\ lastRune (src s') = None /\
    exists c', Tracked k c' s' /\
      (sizeOf c <= maxMessageSize -> sizeOf c' <= maxMessageSize)) s.
Proof.
  intros HI. unfold skipSpace. apply wp_bind, wp_gets.
  apply skipSpace_loop_wp; [exact HI | unfold fuelOf; lia].
Qed.

Lemma readTags_loop_wp fuel : forall k c s,
  Tracked k c s ->
  (length (pending (src s)) < fuel)%nat ->
  wp (readTags_loop fuel) (fun r s' =>
    exists c', Tracked k c' s' /\
      match r with
      | Some e => Failure e s'
      | None => sizeOf c' <= maxMessageSize
      end) s.
Proof.
  induction fuel as [|fuel IH]; intros k c s HI Hfuel; [lia|].
  simpl. wp_call read_cases.
  intros r s1 (Hb & Hlen & [(e & -> & Hf & c1 & HI1)|(it & -> & Hp & HI1 & Hl1 & Hsz)]).
  - apply (error_case_wp e Some). exists c1. split; [exact HI1|].
    apply Failure_converted, Hf.
  - cbv beta iota. destruct (it.1 =? runeSpace).
    + apply wp_ret. eexists. split; [exact HI1|exact Hsz].
    + apply wp_bind, wp_gets. destruct (byteLen (buf s1) >=? maxMessageSize).
      * apply wp_ret. eexists. split; [exact HI1|apply Failure_malformed].
      * apply wp_bind, wp_modify. apply (IH k (c ++ [it])); [apply Inv_set_buf, HI1|].
        simpl. rewrite Hp in Hfuel. simpl in Hfuel. lia.
Qed.

Lemma readPrefix_loop_wp fuel : forall k c s,
  Tracked k c s ->
  (length (pending (src s)) < fuel)%nat ->
  wp (readPrefix_loop fuel) (fun r s' =>
    exists c', Tracked k c' s' /\ forall e, r = Some e -> Failure e s') s.
Proof.
  induction fuel as [|fuel IH]; intros k c s HI Hfuel; [lia|].
  simpl. wp_call read_cases.
  intros r s1 (Hb & Hlen & [(e & -> & Hf & c1 & HI1)|(it & -> & Hp & HI1 & Hl1 & Hsz)]).
  - apply (error_case_wp e Some). exists c1. split; [exact HI1|].
    intros e' [= <-]. apply Failure_converted, Hf.
  - cbv beta iota. destruct (it.1 =? runeSpace).
    + apply wp_ret. eexists. split; [exact HI1|discriminate].
    + apply wp_bind, wp_modify. apply (IH k (c ++ [it])); [apply Inv_set_buf, HI1|].
      simpl. rewrite Hp in Hfuel. simpl in Hfuel. lia.
Qed.

Lemma readCommand_loop_wp fuel : forall k c s,
  Tracked k c s ->
  (length (pending (src s)) < fuel)%nat ->
  wp (readCommand_loop fuel) (fun r s' =>
    (exists w, buf s' = buf s ++ w) /\
    (exists c', Tracked k c' s') /\
    match r with
    | Some e => Failure e s'
    | None => buf s' = buf s <-> atSeparator s
    end) s.
Proof.
  induction fuel as [|fuel IH]; intros k c s HI Hfuel; [lia|].
  simpl. wp_call read_cases.
  intros r s1 (Hb & Hlen & [(e & -> & Hf & c1 & HI1)|(it & -> & Hp & HI1 & Hl1 & Hsz)]).
  - apply (error_case_wp e Some).
    split; [exists []; rewrite app_nil_r; exact Hb|].
    split; [exists c1; exact HI1|]. apply Failure_converted, Hf.
  - cbv beta iota. destruct (Z.eqb_spec it.1 runeSpace) as [Hsp|Hsp].
    { apply wp_ret. split; [exists []; rewrite app_nil_r; exact Hb|].
      split; [eexists; exact HI1|]. split; [|intros _; exact Hb].
      intros _. exists it, (pending (src s1)). auto. }
    destruct (Z.eqb_spec it.1 runeCR) as [Hcr|Hcr].
    { wp_call unread_after_read. intros e' s2 (Hb2 & Hl2 & _ & HI2). apply wp_ret.
      split; [exists []; rewrite app_nil_r; congruence|].
      split; [eexists; exact HI2|]. split; [|intros _; congruence].
      intros _. exists it, (pending (src s1)). auto. }
    apply wp_bind, wp_modify.
    eapply wp_mono.
    { apply (IH k (c ++ [it])); [apply Inv_set_buf, HI1|].
      simpl. rewrite Hp in Hfuel. simpl in Hfuel. lia. }
    simpl. intros r s2 ((w & Hw) & HIc & Hr). rewrite Hb in Hw.
    split; [exists (it.1 :: w); rewrite Hw, <- app_assoc; reflexivity|].
    split; [exact HIc|]. destruct r as [e|]; [exact Hr|]. split.
    + intros Heq. rewrite Heq in Hw. rewrite <- app_assoc in Hw.
      apply (f_equal length) in Hw. rewrite length_app in Hw. simpl in Hw. lia.
    + intros (it' & rest' & Hp' & Hsep). rewrite Hp in Hp'.
      injection Hp' as <- <-. tauto.
Qed.

Lemma isLineEnd_wp k c s :
  Tracked k c s ->
  wp isLineEnd (fun r s' =>
    buf s' = buf s /\
    (length (pending (src s')) <= length (pending (src s)))%nat /\
    exists c', Tracked k c' s'
      /\ (r.1 = true -> r.2 = None /\ atLineEnd c' s')
      /\ (forall e, r.2 = Some e -> Failure e s')) s.
Proof.
  intros HI. unfold isLineEnd. wp_call read_cases.
  intros r s1 (Hb & Hlen & [(e & -> & Hf & c1 & HI1)|(it & -> & Hp & HI1 & Hl1 & Hsz)]).
  { apply wp_ret. split; [exact Hb|]. split; [exact Hlen|].
    exists c1. split; [exact HI1|]. split; [discriminate|].
    intros e' [= <-]. exact Hf. }
  cbv beta iota. destruct (Z.eqb_spec it.1 runeCR) as [Hcr|Hcr].
  2:{ wp_call unread_after_read. intros e' s2 (Hb2 & Hl2 & Hp2 & HI2). apply wp_ret.
      split; [congruence|]. split; [rewrite Hp2, Hp; reflexivity|].
      exists c. split; [exact HI2|]. split; discriminate. }
  wp_call read_cases.
  intros r s2 (Hb2 & Hlen2 & [(e & -> & Hf & c2 & HI2)|(it2 & -> & Hp2 & HI2 & Hl2 & Hsz2)]).
  { apply wp_ret. split; [congruence|]. split; [lia|].
    exists c2. split; [exact HI2|]. split; [discriminate|].
    intros e' [= <-]. exact Hf. }
  cbv beta iota. destruct (Z.eqb_spec it2.1 runeLF) as [Hlf|Hlf].
  - apply wp_ret. split; [congruence|]. split; [lia|].
    eexists. split; [exact HI2|]. split; [|discriminate].
    intros _. split; [reflexivity|]. split; [exact Hsz2|].
    destruct HI2 as (_ & Hraw & _). exists (k ++ c).*1.
    rewrite Hraw, <- !app_assoc, !fmap_app. simpl.
    rewrite Hcr, Hlf, <- app_assoc. reflexivity.
  - wp_call unread_after_read. intros e3 s3 (Hb3 & Hl3 & Hp3 & HI3).
    wp_call unread_wp. intros e4 s4 (Hb4 & Hl4 & H4). rewrite Hl3 in H4.
    destruct H4 as (_ & HI4 & Hp4). apply wp_ret.
    split; [congruence|]. split; [rewrite Hp4, Hp3, Hp; simpl; lia|].
    eexists. split; [exact HI4|]. split; discriminate.
Qed.

Lemma readParams_loop_wp fuel : forall k c s,
  Tracked k c s ->
  (length (pending (src s)) < fuel)%nat ->
  wp (readParams_loop fuel) (fun r s' =>
    exists c', Tracked k c' s' /\
      match r with
      | Some e => Failure e s'
      | None => atLineEnd c' s'
      end) s.
Proof.
  induction fuel as [|fuel IH]; intros k c s HI Hfuel; [lia|].
  simpl. wp_call isLineEnd_wp.
  intros [end_ e] s1 (Hb & Hlen & c1 & HI1 & Hend & _). simpl in Hend.
  destruct end_.
  { apply wp_ret. exists c1. split; [exact HI1|]. apply Hend. reflexivity. }
  wp_call read_cases.
  intros r s2 (Hb2 & Hlen2 & [(e2 & -> & Hf & c2 & HI2)|(it & -> & Hp & HI2 & Hl2 & Hsz)]).
  - apply (error_case_wp e2 Some). exists c2. split; [exact HI2|].
    apply Failure_converted, Hf.
  - cbv beta iota. apply wp_bind, wp_modify.
    apply (IH k (c1 ++ [it])); [apply Inv_set_buf, HI2|].
    simpl. rewrite Hp in Hlen. simpl in Hlen. lia.
Qed.

Lemma readTags_wp k c s :
  Tracked k c s ->
  wp readTags (fun r s' =>
    exists c', Tracked k c' s' /\
      match r.2 with
      | Some e => Failure e s'
      | None => sizeOf c' <= maxMessageSize /\ lastRune (src s') = None
      end) s.
Proof.
  intros HI. unfold readTags.
  apply wp_bind, wp_modify, wp_bind, wp_gets.
  wp_call readTags_loop_wp.
  intros [e|] s1 (c1 & HI1 & H1).
  { apply wp_ret. exists c1. split; [exact HI1|exact H1]. }
  apply wp_bind, wp_gets.
  destruct (if negb (Contains (buf s1) runeSemicolon) then Some ∅
            else splitTags_loop (Split (buf s1) runeSemicolon) ∅) as [tagMap|].
  - wp_call skipSpace_wp. intros _ s2 (_ & Hl2 & c2 & HI2 & Hsz2).
    apply wp_ret. exists c2. split; [exact HI2|]. simpl. auto.
  - apply wp_ret. exists c1. split; [exact HI1|apply Failure_malformed].
Qed.

Lemma readPrefix_wp k c s :
  Tracked k c s ->
  wp readPrefix (fun r s' =>
    exists c', Tracked k c' s' /\ forall e, r.2 = Some e -> Failure e s') s.
Proof.
  intros HI. unfold readPrefix.
  apply wp_bind, wp_modify, wp_bind, wp_gets.
  wp_call readPrefix_loop_wp.
  intros [e|] s1 (c1 & HI1 & H1).
  { apply wp_ret. exists c1. split; [exact HI1|]. intros e' [= <-]. auto. }
  apply wp_bind, wp_gets.
  wp_call skipSpace_wp. intros _ s2 (_ & _ & c2 & HI2 & _).
  apply wp_ret. exists c2. split; [exact HI2|discriminate].
Qed.

Lemma readCommand_wp k c s :
  Tracked k c s ->
  wp readCommand (fun r s' =>
    (exists c', Tracked k c' s') /\
    match r.2 with
    | Some e => Failure e s'
    | None => r.1 = [] <-> atSeparator s
    end) s.
Proof.
  intros HI. unfold readCommand.
  apply wp_bind, wp_modify, wp_bind, wp_gets.
  wp_call readCommand_loop_wp.
  intros [e|] s1 ((w & Hw) & (c1 & HI1) & Hsep).
  { apply wp_ret. split; [exists c1; exact HI1|exact Hsep]. }
  wp_call skipSpace_wp. intros _ s2 (Hb2 & _ & c2 & HI2 & _).
  apply wp_bind, wp_gets, wp_ret.
  split; [exists c2; exact HI2|]. simpl. rewrite Hb2. exact Hsep.
Qed.

Lemma readParams_wp k c s :
  Tracked k c s ->
  wp readParams (fun r s' =>
    exists c', Tracked k c' s' /\
      match r.2 with
      | Some e => Failure e s'
      | None =>
          atLineEnd c' s' /\
          r.1 = params_loop (length (Split (buf s') runeSpace)) 0
                  (Split (buf s') runeSpace) []
      end) s.
Proof.
  intros HI. unfold readParams.
  apply wp_bind, wp_modify, wp_bind, wp_gets.
  wp_call readParams_loop_wp.
  intros [e|] s1 (c1 & HI1 & Hend).
  { apply wp_ret. exists c1. split; [exact HI1|exact Hend]. }
  apply wp_bind, wp_gets, wp_ret.
  exists c1. split; [exact HI1|]. split; [exact Hend|reflexivity].
Qed.

(** The reset of the size counter after the tag block. *)
Lemma Inv_checkpoint c s :
  Tracked [] c s -> lastRune (src s) = None -> Tracked c [] (set_currentMsgSize 0 s).
Proof.
  intros (Hin & Hraw & Hsz & Hlast & Hm & He & Hf) Hl.
  unfold Inv; simpl. rewrite app_nil_r.
  repeat split; auto; rewrite Hl in *; discriminate.
Qed.

Lemma next_tags_wp msg ch c s :
  Tracked [] c s ->
  wp (next_tags msg ch) (fun r s' =>
    (ch <> runeAt -> r = inl (msg, ch) /\ s' = s) /\
    (forall m ch', r = inl (m, ch') ->
       Prefix m = Prefix msg /\ Command m = Command msg /\ Params m = Params msg) /\
    (forall e, r = inr e -> Failure e s') /\
    exists k' c', Tracked k' c' s' /\ sizeOf k' <= maxMessageSize
                  /\ (ch <> runeAt -> k' = [])) s.
Proof.
  intros HI. unfold next_tags.
  destruct (Z.eqb_spec ch runeAt) as [Hat|Hat].
  2:{ apply wp_ret. split; [auto|]. split; [intros m ch' [= <- <-]; auto|].
      split; [discriminate|].
      exists [], c. split; [exact HI|]. unfold maxMessageSize. simpl.
      split; [lia|reflexivity]. }
  wp_call readTags_wp. intros [tags [e|]] s1 (c1 & HI1 & H1); simpl in H1.
  { apply wp_ret. split; [tauto|]. split; [discriminate|].
    split; [intros e' [= <-]; exact H1|].
    exists [], c1. split; [exact HI1|]. unfold maxMessageSize. simpl.
    split; [lia|reflexivity]. }
  destruct H1 as (Hsz1 & Hl1).
  apply wp_bind, wp_modify.
  wp_call read_cases; [apply Inv_checkpoint; eassumption|].
  intros r s2 (_ & _ & [(e & -> & Hf & c2 & HI2)|(it & -> & _ & HI2 & _ & _)]).
  - apply (error_case_wp e inr). split; [tauto|]. split; [discriminate|].
    split; [intros e' [= <-]; apply Failure_converted, Hf|].
    exists c1, c2. split; [exact HI2|tauto].
  - apply wp_ret. split; [tauto|]. split; [intros m ch' [= <- <-]; auto|].
    split; [discriminate|]. eexists c1, _. split; [exact HI2|tauto].
Qed.

Lemma next_prefix_wp msg ch k c s :
  Tracked k c s ->
  wp (next_prefix msg ch) (fun r s' =>
    (forall m, r = inl m -> Command m = Command msg /\ Params m = Params msg) /\
    (forall e, r = inr e -> Failure e s') /\
    (ch <> runeColon -> forall it, lastRune (src s) = Some it ->
       pending (src s') = it :: pending (src s)) /\
    exists c', Tracked k c' s') s.
Proof.
  intros HI. unfold next_prefix.
  destruct (Z.eqb_spec ch runeColon) as [Hc|Hc].
  - wp_call readPrefix_wp. intros [p [e|]] s1 (c1 & HI1 & H1); apply wp_ret.
    + split; [discriminate|]. split; [intros e' [= <-]; apply H1; reflexivity|].
      split; [tauto|]. exists c1. exact HI1.
    + split; [intros m [= <-]; auto|]. split; [discriminate|].
      split; [tauto|]. exists c1. exact HI1.
  - wp_call unread_wp. intros e s1 (_ & _ & H1). apply wp_ret.
    split; [intros m [= <-]; auto|]. split; [discriminate|]. split.
    + intros _ it Hl. rewrite Hl in H1. tauto.
    + destruct (lastRune (src s)); [destruct H1 as (_ & _ & c' & _ & H1)|];
        eexists; apply H1.
Qed.

Lemma next_command_wp msg k c s :
  Tracked k c s ->
  wp (next_command msg) (fun r s' =>
    (r.2 <> None -> r.1 = zeroMessage) /\
    (forall e, r.2 = Some e -> Failure e s') /\
    exists c', Tracked k c' s' /\
      (r.2 = None ->
         atLineEnd c' s' /\ Raw r.1 = rawBuf s' /\
         (exists s2, readCommand s = Ret (Command r.1, None) s2) /\
         (Command r.1 = [] <-> atSeparator s) /\
         (Params r.1 = Params msg \/
          Params r.1 = params_loop (length (Split (buf s') runeSpace)) 0
                         (Split (buf s') runeSpace) []))) s.
Proof.
  intros HI. unfold next_command.
  destruct (wp_returns _ _ _ (readCommand_wp k c s HI))
    as ([cmd e] & s1 & Hcmd & (c1 & HI1) & Hsep).
  eapply wp_bind_ret; [exact Hcmd|]. simpl in Hsep.
  destruct e as [e|].
  { apply wp_ret. split; [reflexivity|]. split; [intros e' [= <-]; exact Hsep|].
    exists c1. split; [exact HI1|discriminate]. }
  wp_call isLineEnd_wp. intros [end_ e] s2 (_ & _ & c2 & HI2 & Hend & Hfail).
  simpl in Hend, Hfail.
  destruct e as [e|].
  { apply wp_ret. split; [reflexivity|]. split; [intros e' [= <-]; auto|].
    exists c2. split; [exact HI2|discriminate]. }
  destruct end_.
  { apply wp_bind, wp_gets, wp_ret. split; [intros []; reflexivity|].
    split; [discriminate|].
    exists c2. split; [exact HI2|]. intros _. simpl.
    split; [apply Hend; reflexivity|]. split; [reflexivity|].
    split; [eauto|]. split; [exact Hsep|]. left; reflexivity. }
  wp_call unread_wp. intros e s3 (_ & _ & H3).
  assert (exists c3, Tracked k c3 s3) as (c3 & HI3).
  { destruct (lastRune (src s2)); [destruct H3 as (_ & _ & c' & _ & H3)|];
      eexists; apply H3. }
  wp_call readParams_wp. intros [ps [e'|]] s4 (c4 & HI4 & H4); simpl in H4.
  { apply wp_ret. split; [reflexivity|]. split; [intros e'' [= <-]; exact H4|].
    exists c4. split; [exact HI4|discriminate]. }
  apply wp_bind, wp_gets, wp_ret. split; [intros []; reflexivity|].
  split; [discriminate|].
  exists c4. split; [exact HI4|]. intros _. simpl.
  destruct H4 as (Hend4 & Hps).
  split; [exact Hend4|]. split; [reflexivity|].
  split; [eauto|]. split; [exact Hsep|]. right; exact Hps.
Qed.

End Tracking.

(** The first [read] of [next], right after the raw buffer and the size
    counter have been reset: it establishes the invariant. *)
Lemma read_first s :
  rawBuf s = [] -> currentMsgSize s = 0 ->
  wp read (fun r s' =>
    message s' = message s /\ err s' = err s /\ final (src s') = final (src s) /\
    match pending (src s) with
    | [] => r = (0, Some (final (src s))) /\ pending (src s') = []
    | it :: rest =>
        Inv (pending (src s)) (message s) (err s) (final (src s)) [] [it] s'
        /\ lastRune (src s') = Some it
        /\ (if it.2 >? maxMessageSize
            then r = (0, Some ErrMessageMalformed)
            else r = (it.1, None))
    end) s.
Proof.
  intros Hraw Hsz. unfold wp, read, ReadRune.
  destruct (pending (src s)) as [|it rest] eqn:Hp; simpl.
  - repeat split; discriminate.
  - rewrite Hsz, Hraw. simpl.
    assert (HI : forall s', src s' = mkReader rest (Some it) (final (src s)) ->
               rawBuf s' = [it.1] -> currentMsgSize s' = it.2 ->
               lastRuneSize s' = it.2 -> message s' = message s ->
               err s' = err s ->
               Inv (it :: rest) (message s) (err s) (final (src s)) [] [it] s').
    { intros s' Hs' Hr' Hc' Hl' Hm' He'. unfold Inv. rewrite Hs'; simpl.
      repeat split; auto.
      - rewrite Hc'. lia.
      - injection H as <-. exact Hl'.
      - injection H as <-. exists []. reflexivity. }
    change (0 + it.2) with (it.2).
    destruct (it.2 >? maxMessageSize); simpl;
      (split; [reflexivity|]); (split; [reflexivity|]); (split; [reflexivity|]);
      (split; [apply HI; reflexivity|]); split; reflexivity.
Qed.

Lemma next_wp s :
  wp next (fun r s' =>
    message s' = message s /\ err s' = err s /\ final (src s') = final (src s) /\
    (r.2 <> None -> r.1 = zeroMessage) /\
    (forall e, r.2 = Some e -> endOrMalformed (final (src s)) e s') /\
    (r.2 = None ->
       (exists k c, consumed s r.1 s' k c) /\
       (exists s1, commandRead s r.1 s1) /\
       (Params r.1 = [] \/
        Params r.1 = params_loop (length (Split (buf s') runeSpace)) 0
                       (Split (buf s') runeSpace) []))) s.
Proof.
  unfold next. apply wp_bind, wp_modify, wp_bind, wp_modify.
  set (s0 := set_currentMsgSize 0 (set_rawBuf [] s)).
  apply wp_bind. eapply wp_mono; [apply (read_first s0); reflexivity|].
  intros [ch e] s1 (Hm1 & He1 & Hf1 & H1). simpl in *.
  destruct (pending (src s)) as [|it rest] eqn:Hp.
  { destruct H1 as ([= -> ->] & Hp1). apply wp_ret. simpl.
    do 4 (split; [auto|]). split; [|discriminate].
    intros e [= <-]. right. auto. }
  destruct H1 as (HI1 & Hl1 & Hr).
  assert (Hframe : forall k c s', Inv (it :: rest) (message s) (err s) (final (src s)) k c s' ->
            message s' = message s /\ err s' = err s /\ final (src s') = final (src s)).
  { intros k c s' (_ & _ & _ & _ & ? & ? & ?). auto. }
  destruct (it.2 >? maxMessageSize); injection Hr as -> ->.
  { apply wp_ret. simpl. destruct (Hframe _ _ _ HI1) as (? & ? & ?).
    do 4 (split; [auto|]). split; [|discriminate].
    intros e [= <-]. left. reflexivity. }
  wp_call next_tags_wp. intros r s2 (Hnt & Hfr2 & Hfail2 & k2 & c2 & HI2 & Hk2 & Hk2nil).
  destruct r as [[msg2 ch2]|e].
  2:{ apply wp_ret. simpl. destruct (Hframe _ _ _ HI2) as (? & ? & ?).
      do 4 (split; [auto|]). split; [|discriminate].
      intros e' [= <-]. apply Hfail2. reflexivity. }
  destruct (Hfr2 _ _ eq_refl) as (_ & _ & Hps2).
  wp_call next_prefix_wp. intros r s3 (Hfr3 & Hfail3 & Hnp & c3 & HI3).
  destruct r as [msg3|e].
  2:{ apply wp_ret. simpl. destruct (Hframe _ _ _ HI3) as (? & ? & ?).
      do 4 (split; [auto|]). split; [|discriminate].
      intros e' [= <-]. apply Hfail3. reflexivity. }
  destruct (Hfr3 _ eq_refl) as (_ & Hps3).
  eapply wp_mono; [eapply next_command_wp; exact HI3|].
  intros [m e] s4 (Hz & Hfail4 & c4 & HI4 & H4). simpl in *.
  destruct (Hframe _ _ _ HI4) as (? & ? & ?).
  do 4 (split; [assumption|]). split; [exact Hfail4|]. intros ->.
  destruct (H4 eq_refl) as ((Hsz4 & Hcrlf) & Hraw & Hrc & Hsep & Hparams).
  destruct HI4 as (Hin4 & Hraw4 & Hcs4 & _).
  split; [|split].
  - exists k2, c4. unfold consumed. split; [rewrite Hp; exact Hin4|].
    split; [congruence|].
    split; [exact Hk2|]. split; [exact Hsz4|]. split; [exact Hcs4|].
    split; [|rewrite Hraw; exact Hcrlf].
    intros it' rest' Hp'. rewrite Hp in Hp'. injection Hp' as <- <-. exact Hk2nil.
  - exists s3. unfold commandRead. split; [|auto].
    destruct HI3 as (Hin3 & _). exists (k2 ++ c3).
    split; [rewrite Hp, <- app_assoc; exact Hin3|].
    intros it' rest' Hp'. rewrite Hp in Hp'. injection Hp' as <- <-.
    intros Hat Hcolon.
    destruct (Hnt Hat) as ([= -> ->] & ->).
    specialize (Hnp Hcolon _ Hl1).
    destruct HI1 as (Hin1 & _). simpl in Hin1.
    rewrite Hnp in Hin3. injection Hin1 as Hin1. rewrite <- Hin1 in Hin3.
    apply (f_equal length) in Hin3. rewrite !length_app in Hin3. simpl in Hin3.
    destruct k2, c3; simpl in *; try lia. reflexivity.
  - destruct Hparams as [Hparams|Hparams]; [left|right; exact Hparams].
    rewrite Hparams, Hps3, Hps2. reflexivity.
Qed.

Lemma params_loop_walk n : forall i paramString params,
  (length paramString <= i + n)%nat ->
  params_loop n i paramString params = params ++ walkTokens_spec (drop i paramString).
Proof.
  induction n as [|n IH]; intros i ps acc Hlen; simpl.
  - rewrite drop_ge by lia. simpl. rewrite app_nil_r. reflexivity.
  - destruct (ps !! i) as [v|] eqn:Hv.
    2:{ apply lookup_ge_None in Hv. rewrite drop_ge by lia. simpl.
        rewrite app_nil_r. reflexivity. }
    pose proof (lookup_lt_Some _ _ _ Hv) as Hi.
    rewrite (drop_S _ _ _ Hv).
    rewrite (list_lookup_total_correct _ _ _ Hv).
    destruct v as [|ch tail]; simpl.
    + apply IH. lia.
    + destruct (ch =? runeColon).
      * f_equal. f_equal. unfold sliceFrom. rewrite Nat2Z.id.
        erewrite drop_S; [|apply list_lookup_insert_eq; exact Hi].
        rewrite drop_insert_lt by lia. reflexivity.
      * rewrite IH by lia. rewrite <- app_assoc. reflexivity.
Qed.

Lemma Split_nonempty s sep : Split s sep <> [].
Proof.
  destruct s as [|c s]; simpl; [discriminate|].
  destruct (c =? sep); [discriminate|]. destruct (Split s sep); discriminate.
Qed.

Lemma Join_Split s sep : Join (Split s sep) sep = s.
Proof.
  induction s as [|c s IH]; simpl; [reflexivity|].
  pose proof (Split_nonempty s sep) as Hne.
  destruct (Z.eqb_spec c sep) as [->|_].
  - destruct (Split s sep) as [|t ts]; [contradiction|].
    change (sep :: Join (t :: ts) sep = sep :: s). rewrite IH. reflexivity.
  - destruct (Split s sep) as [|t ts]; [contradiction|].
    rewrite <- IH. destruct ts; reflexivity.
Qed.

Lemma Split_app_sep w rest sep :
  Contains w sep = false -> Split (w ++ sep :: rest) sep = w :: Split rest sep.
Proof.
  induction w as [|c w IH]; simpl; intros H.
  - rewrite Z.eqb_refl. reflexivity.
  - apply orb_false_elim in H as [Hc Hw]. rewrite Hc, (IH Hw). reflexivity.
Qed.

Lemma Split_no_sep w sep : Contains w sep = false -> Split w sep = [w].
Proof.
  induction w as [|c w IH]; simpl; intros H; [reflexivity|].
  apply orb_false_elim in H as [Hc Hw]. rewrite Hc, (IH Hw). reflexivity.
Qed.

(** The parameters of a text, by the shape of the text: a trailing parameter
    is taken verbatim; a token in front of a space is kept if it is not
    empty. *)
Lemma Params_spec_trailing t : Params_spec (runeColon :: t) = [t].
Proof.
  unfold Params_spec. simpl.
  pose proof (Split_nonempty t runeSpace) as Hne. pose proof (Join_Split t runeSpace) as HJ.
  destruct (Split t runeSpace) as [|t0 ts]; [contradiction|].
  change (walkTokens_spec ((runeColon :: t0) :: ts)) with [Join (t0 :: ts) runeSpace].
  rewrite HJ. reflexivity.
Qed.

Lemma Params_spec_token w rest :
  Contains w runeSpace = false -> HasPrefix w runeColon = false ->
  Params_spec (w ++ runeSpace :: rest)
  = (if bool_decide (w = []) then [] else [w]) ++ Params_spec rest.
Proof.
  intros Hsp Hcolon. unfold Params_spec. rewrite (Split_app_sep _ _ _ Hsp).
  destruct w as [|c w]; [reflexivity|]. simpl in Hcolon. simpl. rewrite Hcolon.
  reflexivity.
Qed.

Lemma readParams_result s ps s' :
  readParams s = Ret (ps, None) s' -> ps = Params_spec (buf s').
Proof.
  unfold readParams, mbind, M_bind, buf_Reset, modify, gets, mret, M_ret.
  destruct (readParams_loop _ _) as [[e|] s1| |]; try discriminate.
  intros [= <- <-]. rewrite params_loop_walk by lia. reflexivity.
Qed.

Lemma cutAt_None sep s : cutAt sep s = None -> Index s sep = -1.
Proof.
  induction s as [|c s IH]; simpl; [reflexivity|].
  destruct (c =? sep); [discriminate|].
  destruct (cutAt sep s) as [[a b]|]; [discriminate|].
  intros _. rewrite IH by reflexivity. reflexivity.
Qed.

Lemma cutAt_Some sep s : forall before after,
  cutAt sep s = Some (before, after) ->
  Index s sep = Z.of_nat (length before) /\ s = before ++ sep :: after.
Proof.
  induction s as [|c s IH]; simpl; intros a b H; [discriminate|].
  destruct (Z.eqb_spec c sep) as [->|Hne].
  - injection H as <- <-. auto.
  - destruct (cutAt sep s) as [[a' b']|]; [|discriminate].
    injection H as <- <-. destruct (IH _ _ eq_refl) as [Hi Hs].
    rewrite Hi. split.
    + destruct (Z.ltb_spec (Z.of_nat (length a')) 0); simpl length; lia.
    + simpl. congruence.
Qed.

Lemma Contains_Index s sep : Contains s sep = (Index s sep + 1 >? 0).
Proof.
  induction s as [|c s IH]; simpl; [reflexivity|].
  destruct (c =? sep); simpl; [reflexivity|]. rewrite IH.
  destruct (Z.ltb_spec (Index s sep) 0), (Z.gtb_spec (Index s sep + 1) 0);
    try lia; symmetry; try reflexivity; apply Z.gtb_lt; lia.
Qed.

Lemma sliceTo_app {A} (a b : list A) : sliceTo (a ++ b) (Z.of_nat (length a)) = a.
Proof. unfold sliceTo. rewrite Nat2Z.id. apply take_app_length. Qed.

Lemma sliceFrom_app_cons {A} (a : list A) x b :
  sliceFrom (a ++ x :: b) (Z.of_nat (length a) + 1) = b.
Proof.
  unfold sliceFrom. replace (Z.to_nat (Z.of_nat (length a) + 1)) with (length (a ++ [x])).
  - rewrite (cons_middle x a b), app_assoc. apply drop_app_length.
  - rewrite length_app. simpl. lia.
Qed.

Lemma sliceFrom_0 {A} (s : list A) : sliceFrom s 0 = s.
Proof. reflexivity. Qed.

Lemma ParsePrefix_refines s : ParsePrefix s = ParsePrefix_spec s.
Proof.
  destruct s as [|c0 s0]; [reflexivity|].
  unfold ParsePrefix, ParsePrefix_spec.
  destruct ((c0 =? runeBang) || (c0 =? runeAt)); [reflexivity|]. f_equal.
  generalize (c0 :: s0). clear c0 s0. intros s.
  destruct (cutAt runeBang s) as [[nick rest]|] eqn:Hb.
  - apply cutAt_Some in Hb as [Hi Hs]. rewrite Hi.
    replace (Z.of_nat (length nick) + 1 >? 0) with true by (symmetry; apply Z.gtb_lt; lia).
    replace (Z.of_nat (length nick) + 1 - 1) with (Z.of_nat (length nick)) by lia.
    assert (Hfrom : sliceFrom s (Z.of_nat (length nick) + 1) = rest)
      by (rewrite Hs; apply sliceFrom_app_cons).
    assert (Hto : sliceTo s (Z.of_nat (length nick)) = nick)
      by (rewrite Hs; apply sliceTo_app).
    rewrite Hfrom, Hto.
    destruct (cutAt runeAt rest) as [[user host]|] eqn:Ha.
    + apply cutAt_Some in Ha as [Hj Hr]. rewrite Hj.
      replace (Z.of_nat (length user) + 1 + (Z.of_nat (length nick) + 1) >? 0) with true
        by (symmetry; apply Z.gtb_lt; lia).
      replace (Z.of_nat (length nick) + 1 <?
               Z.of_nat (length user) + 1 + (Z.of_nat (length nick) + 1)) with true
        by (symmetry; apply Z.ltb_lt; lia).
      assert (Huser : slice s (Z.of_nat (length nick) + 1)
                        (Z.of_nat (length user) + 1 + (Z.of_nat (length nick) + 1) - 1)
                      = user).
      { unfold slice. fold (sliceFrom s (Z.of_nat (length nick) + 1)). rewrite Hfrom.
        replace (Z.of_nat (length user) + 1 + (Z.of_nat (length nick) + 1) - 1
                 - (Z.of_nat (length nick) + 1)) with (Z.of_nat (length user)) by lia.
        rewrite Hr. apply sliceTo_app. }
      assert (Hhost : sliceFrom s (Z.of_nat (length user) + 1 + (Z.of_nat (length nick) + 1))
                      = host).
      { replace (Z.of_nat (length user) + 1 + (Z.of_nat (length nick) + 1))
          with (Z.of_nat (length (nick ++ runeBang :: user)) + 1)
          by (rewrite length_app; simpl; lia).
        rewrite Hs, Hr, (app_comm_cons user), app_assoc. apply sliceFrom_app_cons. }
      rewrite Huser, Hhost. reflexivity.
    + apply cutAt_None in Ha. rewrite Ha.
      replace (Z.of_nat (length nick) + 1 <? -1 + 1 + (Z.of_nat (length nick) + 1))
        with false by (symmetry; apply Z.ltb_ge; lia).
      rewrite andb_false_r. reflexivity.
  - apply cutAt_None in Hb. rewrite Hb. change (-1 + 1) with 0.
    rewrite sliceFrom_0. change (0 >? 0) with false. cbv iota.
    destruct (cutAt runeAt s) as [[nick host]|] eqn:Ha.
    + apply cutAt_Some in Ha as [Hj Hs]. rewrite Hj.
      replace (Z.of_nat (length nick) + 1 + 0) with (Z.of_nat (length nick) + 1) by lia.
      replace (Z.of_nat (length nick) + 1 >? 0) with true
        by (symmetry; apply Z.gtb_lt; lia).
      replace (Z.of_nat (length nick) + 1 - 1) with (Z.of_nat (length nick)) by lia.
      assert (Hfrom : sliceFrom s (Z.of_nat (length nick) + 1) = host)
        by (rewrite Hs; apply sliceFrom_app_cons).
      assert (Hto : sliceTo s (Z.of_nat (length nick)) = nick)
        by (rewrite Hs; apply sliceTo_app).
      rewrite Hfrom, Hto. reflexivity.
    + apply cutAt_None in Ha. rewrite Ha. change (-1 + 1 + 0 >? 0) with false.
      cbv iota. rewrite Contains_Index.
      destruct (Index s runeDot + 1 >? 0); reflexivity.
Qed.

(** * Results about one call of [next] *)

Lemma next_total s : exists r s', next s = Ret r s'.
Proof.
  destruct (wp_returns _ _ _ (next_wp s)) as (r & s' & H & _). eauto.
Qed.

Lemma next_post s m e s' :
  next s = Ret (m, e) s' ->
  message s' = message s /\ err s' = err s /\
  (e <> None -> m = zeroMessage) /\
  (forall e', e = Some e' -> endOrMalformed (final (src s)) e' s') /\
  (e = None ->
     (exists k c, consumed s m s' k c) /\
     (exists s1, commandRead s m s1) /\
     (Params m = [] \/ Params m = Params_spec (buf s'))).
Proof.
  intros H.
  pose proof (wp_elim _ _ _ _ _ (next_wp s) H) as (Hm & He & _ & Hz & Hfail & Hok).
  simpl in *. do 4 (split; [assumption|]). intros ->.
  destruct (Hok eq_refl) as (Hc & Hr & Hp). do 2 (split; [assumption|]).
  destruct Hp as [Hp|Hp]; [left; exact Hp|right].
  rewrite Hp. unfold Params_spec. rewrite params_loop_walk by lia. reflexivity.
Qed.

Lemma Scan_total s : exists b s', Scan s = Ret b s'.
Proof.
  unfold Scan, mbind, M_bind, gets, modify. destruct (err s); simpl; [eauto|].
  destruct (next_total s) as ([m [e|]] & s' & ->); simpl; eauto.
Qed.

(** * Evaluating [read] and [unread] on a known state *)

Lemma read_within_budget s it rest :
  pending (src s) = it :: rest ->
  currentMsgSize s + it.2 <= maxMessageSize ->
  read s = Ret (it.1, None)
             (mkScanner (mkReader rest (Some it) (final (src s))) (buf s)
                (rawBuf s ++ [it.1]) (message s) (err s)
                (currentMsgSize s + it.2) it.2).
Proof.
  intros Hp Hle. unfold read, ReadRune. rewrite Hp. simpl.
  destruct (Z.gtb_spec (currentMsgSize s + it.2) maxMessageSize); [lia|reflexivity].
Qed.

Lemma read_over_budget s it rest :
  pending (src s) = it :: rest ->
  currentMsgSize s + it.2 > maxMessageSize ->
  read s = Ret (0, Some ErrMessageMalformed)
             (mkScanner (mkReader rest (Some it) (final (src s))) (buf s)
                (rawBuf s ++ [it.1]) (message s) (err s)
                (currentMsgSize s + it.2) it.2).
Proof.
  intros Hp Hgt. unfold read, ReadRune. rewrite Hp. simpl.
  destruct (Z.gtb_spec (currentMsgSize s + it.2) maxMessageSize); [reflexivity|lia].
Qed.

Lemma unread_last s it raw x :
  lastRune (src s) = Some it -> rawBuf s = raw ++ [x] ->
  unread s = Ret None
               (mkScanner (mkReader (it :: pending (src s)) None (final (src s)))
                  (buf s) raw (message s) (err s)
                  (currentMsgSize s - lastRuneSize s) (lastRuneSize s)).
Proof.
  intros Hl Hraw. unfold unread, UnreadRune. rewrite Hl. simpl.
  rewrite Hraw, match_snoc, sliceTo_snoc. reflexivity.
Qed.

Lemma unread_twice s :
  lastRune (src s) = None -> unread s = Ret (Some ErrInvalidUnreadRune) s.
Proof.
  intros Hl. unfold unread, UnreadRune. rewrite Hl.
  destruct s as [[p l f] b r m e c n]. reflexivity.
Qed.

Lemma isLineEnd_other s it rest :
  pending (src s) = it :: rest -> it.1 <> runeCR ->
  currentMsgSize s + it.2 <= maxMessageSize ->
  isLineEnd s = Ret (false, None)
                  (mkScanner (mkReader (it :: rest) None (final (src s))) (buf s)
                     (rawBuf s) (message s) (err s)
                     (currentMsgSize s + it.2 - it.2) it.2).
Proof.
  intros Hp Hcr Hsz. unfold isLineEnd, mbind, M_bind.
  rewrite (read_within_budget s it rest Hp Hsz).
  destruct (Z.eqb_spec it.1 runeCR) as [|_]; [contradiction|].
  erewrite unread_last; [|reflexivity|reflexivity]. reflexivity.
Qed.

Lemma isLineEnd_CRLF s cr lf rest :
  pending (src s) = cr :: lf :: rest -> cr.1 = runeCR -> lf.1 = runeLF ->
  currentMsgSize s + cr.2 <= maxMessageSize ->
  currentMsgSize s + cr.2 + lf.2 <= maxMessageSize ->
  isLineEnd s = Ret (true, None)
                  (mkScanner (mkReader rest (Some lf) (final (src s))) (buf s)
                     ((rawBuf s ++ [runeCR]) ++ [runeLF]) (message s) (err s)
                     (currentMsgSize s + cr.2 + lf.2) lf.2).
Proof.
  intros Hp Hcr Hlf Hsz1 Hsz2. unfold isLineEnd, mbind, M_bind.
  rewrite (read_within_budget s cr (lf :: rest) Hp Hsz1). rewrite Hcr. simpl.
  erewrite read_within_budget; [|reflexivity|simpl; lia]. simpl.
  rewrite Hlf. reflexivity.
Qed.

(** The reading loop of [readParams] on a line whose parameter text [body]
    holds no carriage return and fits the budget: it accumulates exactly
    [body] and consumes the terminator. *)
Lemma readParams_loop_collects body : forall fuel s cr lf rest,
  pending (src s) = body ++ cr :: lf :: rest ->
  Forall (fun it : rune * Z => it.1 <> runeCR /\ 0 <= it.2) body ->
  cr.1 = runeCR -> lf.1 = runeLF -> 0 <= cr.2 -> 0 <= lf.2 ->
  currentMsgSize s + sizeOf body + cr.2 + lf.2 <= maxMessageSize ->
  (length (pending (src s)) < fuel)%nat ->
  exists s',
    readParams_loop fuel s = Ret None s'
    /\ buf s' = buf s ++ body.*1
    /\ pending (src s') = rest
    /\ rawBuf s' = rawBuf s ++ body.*1 ++ CRLF.
Proof.
  induction body as [|it body IH]; intros fuel s cr lf rest Hp Hall Hcr Hlf Hc0 Hl0 Hsz Hfuel;
    (destruct fuel as [|fuel]; [lia|]); simpl in Hp, Hsz; simpl readParams_loop;
    unfold mbind, M_bind.
  - rewrite (isLineEnd_CRLF s cr lf rest Hp Hcr Hlf) by lia. simpl.
    eexists. split; [reflexivity|]. simpl. rewrite app_nil_r, <- app_assoc. auto.
  - apply Forall_cons in Hall as [[Hne H0] Hall].
    assert (Hb : 0 <= sizeOf body).
    { clear -Hall. induction Hall as [|x l [_ Hx] _ IHl]; simpl; lia. }
    rewrite (isLineEnd_other s it _ Hp Hne) by lia. simpl.
    erewrite read_within_budget; [|reflexivity|simpl; lia]. simpl.
    unfold buf_WriteRune, modify. simpl.
    match goal with
    | |- context [readParams_loop fuel ?s1] =>
        destruct (IH fuel s1 cr lf rest) as (s' & Hrun & Hbuf & Hpend & Hraw);
          [reflexivity|exact Hall|exact Hcr|exact Hlf|exact Hc0|exact Hl0| |
          |rewrite Hrun; exists s'; split; [reflexivity|]]
    end.
    + simpl. lia.
    + simpl. rewrite Hp in Hfuel. simpl in Hfuel. lia.
    + simpl in Hbuf, Hraw. rewrite Hbuf, Hraw, <- !app_assoc. auto.
Qed.

Lemma readParams_of_line s body cr lf rest :
  pending (src s) = body ++ cr :: lf :: rest ->
  Forall (fun it : rune * Z => it.1 <> runeCR /\ 0 <= it.2) body ->
  cr.1 = runeCR -> lf.1 = runeLF -> 0 <= cr.2 -> 0 <= lf.2 ->
  currentMsgSize s + sizeOf body + cr.2 + lf.2 <= maxMessageSize ->
  exists s', readParams s = Ret (Params_spec (body.*1), None) s'
             /\ pending (src s') = rest.
Proof.
  intros Hp Hall Hcr Hlf Hc0 Hl0 Hsz.
  destruct (readParams_loop_collects body (fuelOf (set_buf [] s)) (set_buf [] s)
              cr lf rest Hp Hall Hcr Hlf Hc0 Hl0 Hsz)
    as (s' & Hrun & Hbuf & Hpend & _); [unfold fuelOf; simpl; lia|].
  exists s'. split; [|exact Hpend].
  unfold readParams, mbind, M_bind, buf_Reset, modify, gets, mret, M_ret.
  rewrite Hrun. simpl in Hbuf. rewrite Hbuf, params_loop_walk by lia. reflexivity.
Qed.

(** * The tables of the repository's tests, run on the embedding *)

Lemma scannerTests_pass :
  scanAll (str "FOO" ++ CRLF) = expectScan "FOO" None [] (str "FOO") []
  /\ scanAll (str ":test FOO" ++ CRLF)
     = expectScan ":test FOO" None (str "test") (str "FOO") []
  /\ scanAll (str ":test FOO     " ++ CRLF)
     = expectScan ":test FOO     " None (str "test") (str "FOO") []
  /\ scanAll (str ":test!me@test.ing PRIVMSG #Test :This is a test" ++ CRLF)
     = expectScan ":test!me@test.ing PRIVMSG #Test :This is a test" None
         (str "test!me@test.ing") (str "PRIVMSG") [str "#Test"; str "This is a test"]
  /\ scanAll (str "PRIVMSG #Test :This is a test" ++ CRLF)
     = expectScan "PRIVMSG #Test :This is a test" None
         [] (str "PRIVMSG") [str "#Test"; str "This is a test"]
  /\ scanAll (str ":test PRIVMSG foo :A string  with spaces   " ++ CRLF)
     = expectScan ":test PRIVMSG foo :A string  with spaces   " None
         (str "test") (str "PRIVMSG") [str "foo"; str "A string  with spaces   "]
  /\ scanAll (str ":test    PRIVMSG   foo    :bar" ++ CRLF)
     = expectScan ":test    PRIVMSG   foo    :bar" None
         (str "test") (str "PRIVMSG") [str "foo"; str "bar"]
  /\ scanAll (str ":test FOO bar baz quux" ++ CRLF)
     = expectScan ":test FOO bar baz quux" None
         (str "test") (str "FOO") [str "bar"; str "baz"; str "quux"]
  /\ scanAll (str "FOO bar baz quux" ++ CRLF)
     = expectScan "FOO bar baz quux" None [] (str "FOO") [str "bar"; str "baz"; str "quux"]
  /\ scanAll (str "FOO   bar    baz  quux" ++ CRLF)
     = expectScan "FOO   bar    baz  quux" None
         [] (str "FOO") [str "bar"; str "baz"; str "quux"]
  /\ scanAll (str "FOO bar baz quux :This is a test" ++ CRLF)
     = expectScan "FOO bar baz quux :This is a test" None
         [] (str "FOO") [str "bar"; str "baz"; str "quux"; str "This is a test"]
  /\ scanAll (str ":test PRIVMSG #fo:oo :This is a test" ++ CRLF)
     = expectScan ":test PRIVMSG #fo:oo :This is a test" None
         (str "test") (str "PRIVMSG") [str "#fo:oo"; str "This is a test"]
  /\ scanAll
       (str "@test=super;single :test!me@test.ing FOO bar baz quux :This is a test" ++ CRLF)
     = expectScan "@test=super;single :test!me@test.ing FOO bar baz quux :This is a test"
         (Some (<[str "single" := []]> (<[str "test" := str "super"]> ∅)))
         (str "test!me@test.ing") (str "FOO")
         [str "bar"; str "baz"; str "quux"; str "This is a test"].
Proof.
  repeat split; vm_compute; reflexivity.
Qed.

Lemma prefixTests_pass :
  prefixFields (ParsePrefix (str "nick")) = Some (false, str "nick", [], [])
  /\ prefixFields (ParsePrefix (str "nick!user")) = Some (false, str "nick", str "user", [])
  /\ prefixFields (ParsePrefix (str "se.rv.er")) = Some (true, [], [], str "se.rv.er")
  /\ prefixFields (ParsePrefix (str "nick!us.er@host"))
     = Some (false, str "nick", str "us.er", str "host")
  /\ prefixFields (ParsePrefix (str "nick!")) = Some (false, str "nick", [], [])
  /\ prefixFields (ParsePrefix (str "nick@")) = Some (false, str "nick", [], [])
  /\ prefixFields (ParsePrefix (str "nick!user!resu@host"))
     = Some (false, str "nick", str "user!resu", str "host")
  /\ prefixFields (ParsePrefix (str "nick@kcin!user@host"))
     = Some (false, str "nick@kcin", str "user", str "host")
  /\ prefixFields (ParsePrefix (str "nick!user@host!resu"))
     = Some (false, str "nick", str "user", str "host!resu")
  /\ prefixFields (ParsePrefix (str "nick!user@host@tsoh"))
     = Some (false, str "nick", str "user", str "host@tsoh")
  /\ prefixFields (ParsePrefix (str "ni.ck!user@host"))
     = Some (false, str "ni.ck", str "user", str "host")
  /\ ParsePrefix [] = None
  /\ ParsePrefix (str "@host") = None
  /\ ParsePrefix (str "!user@host") = None
  /\ ParsePrefix (str "!@host") = None
  /\ ParsePrefix (str "!user@") = None.
Proof.
  repeat split; vm_compute; reflexivity.
Qed.

(** * Runs of the methods on a known input

    Each method, run on a source whose pending runes are given, consumes
    what it should and returns what it should. *)

Lemma advanced_trans s1 c1 s2 c2 s3 :
  advanced s1 c1 s2 -> advanced s2 c2 s3 -> advanced s1 (c1 ++ c2) s3.
Proof.
  intros (Hp1 & Hr1 & Hc1 & Hf1 & Hm1 & He1) (Hp2 & Hr2 & Hc2 & Hf2 & Hm2 & He2).
  unfold advanced. rewrite fmap_app, sizeOf_app, <- !app_assoc.
  split; [rewrite Hp1, Hp2; reflexivity|]. split; [rewrite Hr2, Hr1, <- app_assoc; reflexivity|].
  split; [lia|]. repeat split; congruence.
Qed.

(** A [read] of the rune [it] followed by [unread]. *)
Lemma read_then_unread s it rest :
  pending (src s) = it :: rest ->
  exists s1,
    read s = Ret (if currentMsgSize s + it.2 >? maxMessageSize
                  then (0, Some ErrMessageMalformed) else (it.1, None)) s1
    /\ unread s1 = Ret None
         (mkScanner (mkReader (it :: rest) None (final (src s))) (buf s) (rawBuf s)
            (message s) (err s) (currentMsgSize s) it.2).
Proof.
  intros Hp.
  destruct (Z.gtb_spec (currentMsgSize s + it.2) maxMessageSize) as [Hgt|Hle].
  - rewrite (read_over_budget s it rest Hp) by lia. eexists. split; [reflexivity|].
    erewrite unread_last; [|reflexivity|reflexivity]. simpl. do 2 f_equal. lia.
  - rewrite (read_within_budget s it rest Hp Hle). eexists. split; [reflexivity|].
    erewrite unread_last; [|reflexivity|reflexivity]. simpl. do 2 f_equal. lia.
Qed.

Lemma read_at_end s :
  pending (src s) = [] ->
  read s = Ret (0, Some (final (src s)))
             (mkScanner (mkReader [] None (final (src s))) (buf s) (rawBuf s)
                (message s) (err s) (currentMsgSize s) (lastRuneSize s)).
Proof.
  intros Hp. unfold read, ReadRune. rewrite Hp. reflexivity.
Qed.

Lemma sizeOf_nonneg (c : list (rune * Z)) :
  Forall (fun it : rune * Z => 0 <= it.2) c -> 0 <= sizeOf c.
Proof.
  induction 1 as [|x l Hx _ IH]; simpl; lia.
Qed.

Lemma skipSpace_loop_run sp : forall fuel s rest,
  pending (src s) = sp ++ rest ->
  Forall (fun it : rune * Z => it.1 = runeSpace /\ 0 <= it.2) sp ->
  currentMsgSize s + sizeOf sp <= maxMessageSize ->
  stopsSkip (currentMsgSize s + sizeOf sp) rest ->
  (length (pending (src s)) < fuel)%nat ->
  exists s',
    skipSpace_loop fuel s = Ret tt s'
    /\ advanced s sp s'
    /\ pending (src s') = rest
    /\ buf s' = buf s
    /\ lastRune (src s') = None.
Proof.
  induction sp as [|x sp IH]; intros fuel s rest Hp Hall Hsz Hstop Hfuel;
    (destruct fuel as [|fuel]; [lia|]); simpl in Hp, Hsz, Hstop;
    simpl skipSpace_loop; unfold mbind, M_bind.
  - rewrite Z.add_0_r in Hstop. destruct rest as [|it rest].
    + rewrite (read_at_end s Hp). simpl.
      eexists. split; [reflexivity|]. unfold advanced. simpl.
      rewrite Hp, app_nil_r. repeat split; lia.
    + destruct (read_then_unread s it rest Hp) as (s1 & Hr & Hu). rewrite Hr.
      destruct (Z.gtb_spec (currentMsgSize s + it.2) maxMessageSize) as [Hgt|Hle];
        cbv beta iota.
      * change (negb (0 =? runeSpace)) with true. cbv beta iota. rewrite Hu. simpl.
        eexists; split; [reflexivity|]. unfold advanced; simpl.
        rewrite Hp, app_nil_r. repeat split; lia.
      * destruct Hstop as [Hne|Hgt]; [|lia].
        destruct (Z.eqb_spec it.1 runeSpace) as [|_]; [contradiction|].
        cbv beta iota. change (negb false) with true. cbv beta iota. rewrite Hu. simpl.
        eexists; split; [reflexivity|]. unfold advanced; simpl.
        rewrite Hp, app_nil_r. repeat split; lia.
  - apply Forall_cons in Hall as [[Hx Hx0] Hall].
    pose proof (sizeOf_nonneg sp) as Hnn.
    assert (0 <= sizeOf sp).
    { apply Hnn. eapply Forall_impl; [exact Hall|]. intros ? [_ ?]. assumption. }
    rewrite (read_within_budget s x (sp ++ rest) Hp) by lia. rewrite Hx. simpl.
    match goal with
    | |- context [skipSpace_loop fuel ?s1] =>
        destruct (IH fuel s1 rest) as (s' & Hrun & Hadv & Hpend & Hbuf & Hlast);
          [reflexivity|exact Hall|simpl; lia| |simpl; rewrite Hp in Hfuel; simpl in Hfuel; lia|]
    end.
    + simpl. replace (currentMsgSize s + x.2 + sizeOf sp)
        with (currentMsgSize s + (x.2 + sizeOf sp)) by lia. exact Hstop.
    + rewrite Hrun. exists s'. split; [reflexivity|].
      split; [|auto].
      destruct Hadv as (Ha & Hb & Hc & Hd & He & Hf). simpl in *.
      unfold advanced. simpl. rewrite Hp. rewrite Ha, Hb, Hc, <- app_assoc, <- Hx.
      repeat split; auto; lia.
Qed.

Lemma skipSpace_run s sp rest :
  pending (src s) = sp ++ rest ->
  Forall (fun it : rune * Z => it.1 = runeSpace /\ 0 <= it.2) sp ->
  currentMsgSize s + sizeOf sp <= maxMessageSize ->
  stopsSkip (currentMsgSize s + sizeOf sp) rest ->
  exists s',
    skipSpace s = Ret tt s'
    /\ advanced s sp s'
    /\ pending (src s') = rest
    /\ buf s' = buf s
    /\ lastRune (src s') = None.
Proof.
  intros Hp Hall Hsz Hstop. unfold skipSpace, mbind, M_bind, gets.
  apply skipSpace_loop_run; auto; unfold fuelOf; lia.
Qed.

Lemma advanced_cons s it rest b c s' :
  pending (src s) = it :: rest ->
  advanced (mkScanner (mkReader rest (Some it) (final (src s))) b
              (rawBuf s ++ [it.1]) (message s) (err s) (currentMsgSize s + it.2) it.2)
           c s' ->
  advanced s (it :: c) s'.
Proof.
  intros Hp (Ha & Hb & Hc & Hd & He & Hf). simpl in *.
  unfold advanced. simpl. rewrite Hp, Ha, Hb, Hc, <- app_assoc, Hd, He, Hf.
  repeat split; lia.
Qed.

Lemma readPrefix_loop_run body : forall fuel s sp rest,
  pending (src s) = body ++ sp :: rest ->
  Forall (fun it : rune * Z => it.1 <> runeSpace /\ 0 <= it.2) body ->
  sp.1 = runeSpace -> 0 <= sp.2 ->
  currentMsgSize s + sizeOf body + sp.2 <= maxMessageSize ->
  (length (pending (src s)) < fuel)%nat ->
  exists s',
    readPrefix_loop fuel s = Ret None s'
    /\ advanced s (body ++ [sp]) s'
    /\ pending (src s') = rest
    /\ buf s' = buf s ++ body.*1.
Proof.
  induction body as [|x body IH]; intros fuel s sp rest Hp Hall Hsp Hsp0 Hsz Hfuel;
    (destruct fuel as [|fuel]; [lia|]); simpl in Hp, Hsz;
    simpl readPrefix_loop; unfold mbind, M_bind.
  - rewrite (read_within_budget s sp rest Hp) by lia. rewrite Hsp. simpl.
    eexists. split; [reflexivity|]. simpl. rewrite app_nil_r.
    split; [|auto]. unfold advanced. simpl. rewrite Hp, Hsp. repeat split; lia.
  - apply Forall_cons in Hall as [[Hx Hx0] Hall].
    assert (0 <= sizeOf body).
    { apply sizeOf_nonneg. eapply Forall_impl; [exact Hall|]. intros ? [_ ?]. assumption. }
    rewrite (read_within_budget s x _ Hp) by lia.
    destruct (Z.eqb_spec x.1 runeSpace) as [|_]; [contradiction|].
    unfold buf_WriteRune, modify. simpl.
    match goal with
    | |- context [readPrefix_loop fuel ?s1] =>
        destruct (IH fuel s1 sp rest) as (s' & Hrun & Hadv & Hpend & Hbuf);
          [reflexivity|exact Hall|exact Hsp|exact Hsp0|simpl; lia
          |simpl; rewrite Hp in Hfuel; simpl in Hfuel; lia|]
    end.
    rewrite Hrun. exists s'. split; [reflexivity|].
    split; [eapply advanced_cons; [exact Hp|exact Hadv]|].
    split; [exact Hpend|]. simpl in Hbuf. rewrite Hbuf, <- app_assoc. reflexivity.
Qed.

Lemma readCommand_loop_run body : forall fuel s,
  Forall (fun it : rune * Z => it.1 <> runeSpace /\ it.1 <> runeCR /\ 0 <= it.2) body ->
  (length (pending (src s)) < fuel)%nat ->
  (forall sp rest,
     pending (src s) = body ++ sp :: rest ->
     sp.1 = runeSpace -> 0 <= sp.2 ->
     currentMsgSize s + sizeOf body + sp.2 <= maxMessageSize ->
     exists s',
       readCommand_loop fuel s = Ret None s'
       /\ advanced s (body ++ [sp]) s'
       /\ pending (src s') = rest
       /\ buf s' = buf s ++ body.*1)
  /\ (forall cr rest,
     pending (src s) = body ++ cr :: rest ->
     cr.1 = runeCR -> 0 <= cr.2 ->
     currentMsgSize s + sizeOf body + cr.2 <= maxMessageSize ->
     exists s',
       readCommand_loop fuel s = Ret None s'
       /\ advanced s body s'
       /\ pending (src s') = cr :: rest
       /\ buf s' = buf s ++ body.*1
       /\ lastRune (src s') = None).
Proof.
  induction body as [|x body IH]; intros fuel s Hall Hfuel;
    (destruct fuel as [|fuel]; [lia|]); simpl readCommand_loop; unfold mbind, M_bind.
  - split.
    + intros sp rest Hp Hsp Hsp0 Hsz. simpl in Hp, Hsz.
      rewrite (read_within_budget s sp rest Hp) by lia. rewrite Hsp. simpl.
      eexists. split; [reflexivity|]. simpl. rewrite app_nil_r.
      split; [|auto]. unfold advanced. simpl. rewrite Hp, Hsp. repeat split; lia.
    + intros cr rest Hp Hcr Hcr0 Hsz. simpl in Hp, Hsz.
      destruct (read_then_unread s cr rest Hp) as (s1 & Hr & Hu). rewrite Hr.
      destruct (Z.gtb_spec (currentMsgSize s + cr.2) maxMessageSize) as [|_]; [lia|].
      rewrite Hcr. simpl. rewrite Hu. simpl.
      eexists. split; [reflexivity|]. simpl. rewrite app_nil_r.
      split; [|auto]. unfold advanced. simpl. rewrite Hp, app_nil_r. repeat split; lia.
  - apply Forall_cons in Hall as [(Hx & Hxc & Hx0) Hall].
    assert (0 <= sizeOf body).
    { apply sizeOf_nonneg. eapply Forall_impl; [exact Hall|]. intros ? (_ & _ & ?). assumption. }
    split.
    + intros sp rest Hp Hsp Hsp0 Hsz. simpl in Hp, Hsz.
      rewrite (read_within_budget s x _ Hp) by lia.
      destruct (Z.eqb_spec x.1 runeSpace) as [|_]; [contradiction|].
      destruct (Z.eqb_spec x.1 runeCR) as [|_]; [contradiction|].
      unfold buf_WriteRune, modify. simpl.
      match goal with
      | |- context [readCommand_loop fuel ?s1] =>
          destruct (IH fuel s1 Hall) as [IH1 _];
            [simpl; rewrite Hp in Hfuel; simpl in Hfuel; lia|];
          destruct (IH1 sp rest) as (s' & Hrun & Hadv & Hpend & Hbuf);
            [reflexivity|exact Hsp|exact Hsp0|simpl; lia|]
      end.
      rewrite Hrun. exists s'. split; [reflexivity|].
      split; [eapply advanced_cons; [exact Hp|exact Hadv]|].
      split; [exact Hpend|]. simpl in Hbuf. rewrite Hbuf, <- app_assoc. reflexivity.
    + intros cr rest Hp Hcr Hcr0 Hsz. simpl in Hp, Hsz.
      rewrite (read_within_budget s x _ Hp) by lia.
      destruct (Z.eqb_spec x.1 runeSpace) as [|_]; [contradiction|].
      destruct (Z.eqb_spec x.1 runeCR) as [|_]; [contradiction|].
      unfold buf_WriteRune, modify. simpl.
      match goal with
      | |- context [readCommand_loop fuel ?s1] =>
          destruct (IH fuel s1 Hall) as [_ IH2];
            [simpl; rewrite Hp in Hfuel; simpl in Hfuel; lia|];
          destruct (IH2 cr rest) as (s' & Hrun & Hadv & Hpend & Hbuf & Hlast);
            [reflexivity|exact Hcr|exact Hcr0|simpl; lia|]
      end.
      rewrite Hrun. exists s'. split; [reflexivity|].
      split; [eapply advanced_cons; [exact Hp|exact Hadv]|].
      split; [exact Hpend|]. simpl in Hbuf. rewrite Hbuf, <- app_assoc. auto.
Qed.

Lemma byteLen_cons r s : byteLen (r :: s) = RuneLen r + byteLen s.
Proof. reflexivity. Qed.

Lemma readTags_loop_run body : forall fuel s sp rest,
  pending (src s) = body ++ sp :: rest ->
  Forall (fun it : rune * Z => it.1 <> runeSpace /\ 0 <= it.2) body ->
  sp.1 = runeSpace -> 0 <= sp.2 ->
  currentMsgSize s + sizeOf body + sp.2 <= maxMessageSize ->
  byteLen (buf s) + byteLen (body.*1) <= maxMessageSize ->
  (length (pending (src s)) < fuel)%nat ->
  exists s',
    readTags_loop fuel s = Ret None s'
    /\ advanced s (body ++ [sp]) s'
    /\ pending (src s') = rest
    /\ buf s' = buf s ++ body.*1.
Proof.
  induction body as [|x body IH]; intros fuel s sp rest Hp Hall Hsp Hsp0 Hsz Hlen Hfuel;
    (destruct fuel as [|fuel]; [lia|]); simpl in Hp, Hsz;
    simpl readTags_loop; unfold mbind, M_bind.
  - rewrite (read_within_budget s sp rest Hp) by lia. rewrite Hsp. simpl.
    eexists. split; [reflexivity|]. simpl. rewrite app_nil_r.
    split; [|auto]. unfold advanced. simpl. rewrite Hp, Hsp. repeat split; lia.
  - apply Forall_cons in Hall as [[Hx Hx0] Hall].
    assert (0 <= sizeOf body).
    { apply sizeOf_nonneg. eapply Forall_impl; [exact Hall|]. intros ? [_ ?]. assumption. }
    rewrite fmap_cons, byteLen_cons in Hlen.
    pose proof (RuneLen_pos x.1). pose proof (byteLen_nonneg (body.*1)).
    rewrite (read_within_budget s x _ Hp) by lia.
    destruct (Z.eqb_spec x.1 runeSpace) as [|_]; [contradiction|].
    unfold gets. simpl.
    destruct (Z.geb_spec (byteLen (buf s)) maxMessageSize) as [|_]; [lia|].
    unfold buf_WriteRune, modify. simpl.
    match goal with
    | |- context [readTags_loop fuel ?s1] =>
        destruct (IH fuel s1 sp rest) as (s' & Hrun & Hadv & Hpend & Hbuf);
          [reflexivity|exact Hall|exact Hsp|exact Hsp0|simpl; lia
          |simpl; rewrite byteLen_app, byteLen_cons; simpl; lia
          |simpl; rewrite Hp in Hfuel; simpl in Hfuel; lia|]
    end.
    rewrite Hrun. exists s'. split; [reflexivity|].
    split; [eapply advanced_cons; [exact Hp|exact Hadv]|].
    split; [exact Hpend|]. simpl in Hbuf. rewrite Hbuf, <- app_assoc. reflexivity.
Qed.

Lemma Forall_nonneg_weaken (P : rune * Z -> Prop) c :
  Forall (fun it : rune * Z => P it /\ 0 <= it.2) c ->
  Forall (fun it : rune * Z => 0 <= it.2) c.
Proof.
  intros H. eapply Forall_impl; [exact H|]. intros ? [_ ?]. assumption.
Qed.

Lemma readPrefix_run s body sp sps rest :
  pending (src s) = body ++ (sp :: sps) ++ rest ->
  Forall (fun it : rune * Z => it.1 <> runeSpace /\ 0 <= it.2) body ->
  Forall (fun it : rune * Z => it.1 = runeSpace /\ 0 <= it.2) (sp :: sps) ->
  currentMsgSize s + sizeOf (body ++ sp :: sps) <= maxMessageSize ->
  stopsSkip (currentMsgSize s + sizeOf (body ++ sp :: sps)) rest ->
  exists s',
    readPrefix s = Ret (body.*1, None) s'
    /\ advanced s (body ++ sp :: sps) s'
    /\ pending (src s') = rest
    /\ lastRune (src s') = None.
Proof.
  intros Hp Hbody Hsps Hsz Hstop.
  apply Forall_cons in Hsps as [[Hsp Hsp0] Hsps].
  rewrite sizeOf_app in Hsz, Hstop. simpl in Hsz, Hstop.
  pose proof (sizeOf_nonneg _ (Forall_nonneg_weaken _ _ Hbody)).
  pose proof (sizeOf_nonneg _ (Forall_nonneg_weaken _ _ Hsps)).
  destruct (readPrefix_loop_run body (fuelOf (set_buf [] s)) (set_buf [] s) sp (sps ++ rest))
    as (s1 & Hrun & Hadv & Hpend & Hbuf);
    [exact Hp|exact Hbody|exact Hsp|exact Hsp0|simpl; lia|unfold fuelOf; simpl; lia|].
  destruct Hadv as (Ha & Hb & Hc & Hd & He & Hf). simpl in Ha, Hb, Hc, Hd, He, Hf, Hbuf.
  destruct (skipSpace_run s1 sps rest) as (s2 & Hskip & Hadv2 & Hpend2 & Hbuf2 & Hlast);
    [exact Hpend|exact Hsps|rewrite Hc, sizeOf_app; simpl; lia
    |rewrite Hc, sizeOf_app; simpl;
     replace (currentMsgSize s + (sizeOf body + (sp.2 + 0)) + sizeOf sps)
       with (currentMsgSize s + (sizeOf body + (sp.2 + sizeOf sps))) by lia; exact Hstop|].
  exists s2. split.
  - unfold readPrefix, mbind, M_bind, buf_Reset, modify, gets, mret, M_ret.
    rewrite Hrun, Hskip, Hbuf. reflexivity.
  - split; [|auto].
    replace (body ++ sp :: sps) with ((body ++ [sp]) ++ sps) by (rewrite <- app_assoc; reflexivity).
    eapply advanced_trans; [|exact Hadv2].
    unfold advanced. auto 10.
Qed.

Lemma readCommand_run_space s body sp sps rest :
  pending (src s) = body ++ (sp :: sps) ++ rest ->
  Forall (fun it : rune * Z => it.1 <> runeSpace /\ it.1 <> runeCR /\ 0 <= it.2) body ->
  Forall (fun it : rune * Z => it.1 = runeSpace /\ 0 <= it.2) (sp :: sps) ->
  currentMsgSize s + sizeOf (body ++ sp :: sps) <= maxMessageSize ->
  stopsSkip (currentMsgSize s + sizeOf (body ++ sp :: sps)) rest ->
  exists s',
    readCommand s = Ret (body.*1, None) s'
    /\ advanced s (body ++ sp :: sps) s'
    /\ pending (src s') = rest
    /\ lastRune (src s') = None.
Proof.
  intros Hp Hbody Hsps Hsz Hstop.
  apply Forall_cons in Hsps as [[Hsp Hsp0] Hsps].
  rewrite sizeOf_app in Hsz, Hstop. simpl in Hsz, Hstop.
  assert (0 <= sizeOf body).
  { apply sizeOf_nonneg. eapply Forall_impl; [exact Hbody|]. intros ? (_ & _ & ?). assumption. }
  pose proof (sizeOf_nonneg _ (Forall_nonneg_weaken _ _ Hsps)).
  destruct (readCommand_loop_run body (fuelOf (set_buf [] s)) (set_buf [] s) Hbody) as [Hloop _];
    [unfold fuelOf; simpl; lia|].
  destruct (Hloop sp (sps ++ rest)) as (s1 & Hrun & Hadv & Hpend & Hbuf);
    [exact Hp|exact Hsp|exact Hsp0|simpl; lia|].
  destruct Hadv as (Ha & Hb & Hc & Hd & He & Hf). simpl in Ha, Hb, Hc, Hd, He, Hf, Hbuf.
  destruct (skipSpace_run s1 sps rest) as (s2 & Hskip & Hadv2 & Hpend2 & Hbuf2 & Hlast);
    [exact Hpend|exact Hsps|rewrite Hc, sizeOf_app; simpl; lia
    |rewrite Hc, sizeOf_app; simpl;
     replace (currentMsgSize s + (sizeOf body + (sp.2 + 0)) + sizeOf sps)
       with (currentMsgSize s + (sizeOf body + (sp.2 + sizeOf sps))) by lia; exact Hstop|].
  exists s2. split.
  - unfold readCommand, mbind, M_bind, buf_Reset, modify, gets, mret, M_ret.
    rewrite Hrun, Hskip, Hbuf2, Hbuf. reflexivity.
  - split; [|auto].
    replace (body ++ sp :: sps) with ((body ++ [sp]) ++ sps) by (rewrite <- app_assoc; reflexivity).
    eapply advanced_trans; [|exact Hadv2].
    unfold advanced. auto 10.
Qed.

Lemma readCommand_run_CR s body cr rest :
  pending (src s) = body ++ cr :: rest ->
  Forall (fun it : rune * Z => it.1 <> runeSpace /\ it.1 <> runeCR /\ 0 <= it.2) body ->
  cr.1 = runeCR -> 0 <= cr.2 ->
  currentMsgSize s + sizeOf body + cr.2 <= maxMessageSize ->
  exists s',
    readCommand s = Ret (body.*1, None) s'
    /\ advanced s body s'
    /\ pending (src s') = cr :: rest
    /\ lastRune (src s') = None.
Proof.
  intros Hp Hbody Hcr Hcr0 Hsz.
  destruct (readCommand_loop_run body (fuelOf (set_buf [] s)) (set_buf [] s) Hbody) as [_ Hloop];
    [unfold fuelOf; simpl; lia|].
  destruct (Hloop cr rest) as (s1 & Hrun & Hadv & Hpend & Hbuf & Hlast1);
    [exact Hp|exact Hcr|exact Hcr0|simpl; lia|].
  destruct Hadv as (Ha & Hb & Hc & Hd & He & Hf). simpl in Ha, Hb, Hc, Hd, He, Hf, Hbuf.
  destruct (skipSpace_run s1 [] (cr :: rest)) as (s2 & Hskip & Hadv2 & Hpend2 & Hbuf2 & Hlast);
    [exact Hpend|constructor|simpl; lia|simpl; left; rewrite Hcr; discriminate|].
  exists s2. split.
  - unfold readCommand, mbind, M_bind, buf_Reset, modify, gets, mret, M_ret.
    rewrite Hrun, Hskip, Hbuf2, Hbuf. reflexivity.
  - split; [|auto].
    rewrite <- (app_nil_r body).
    eapply advanced_trans; [|exact Hadv2].
    unfold advanced. auto 10.
Qed.

Lemma readTags_run s body sp sps rest :
  pending (src s) = body ++ (sp :: sps) ++ rest ->
  Forall (fun it : rune * Z => it.1 <> runeSpace /\ 0 <= it.2) body ->
  Forall (fun it : rune * Z => it.1 = runeSpace /\ 0 <= it.2) (sp :: sps) ->
  currentMsgSize s + sizeOf (body ++ sp :: sps) <= maxMessageSize ->
  byteLen (body.*1) <= maxMessageSize ->
  stopsSkip (currentMsgSize s + sizeOf (body ++ sp :: sps)) rest ->
  match tagMapOf (body.*1) with
  | Some tagMap =>
      exists s',
        readTags s = Ret (Some tagMap, None) s'
        /\ advanced s (body ++ sp :: sps) s'
        /\ pending (src s') = rest
        /\ lastRune (src s') = None
  | None =>
      exists s',
        readTags s = Ret (None, Some ErrMessageMalformed) s'
        /\ advanced s (body ++ [sp]) s'
  end.
Proof.
  intros Hp Hbody Hsps Hsz Hlen Hstop.
  apply Forall_cons in Hsps as [[Hsp Hsp0] Hsps].
  rewrite sizeOf_app in Hsz, Hstop. simpl in Hsz, Hstop.
  pose proof (sizeOf_nonneg _ (Forall_nonneg_weaken _ _ Hbody)).
  pose proof (sizeOf_nonneg _ (Forall_nonneg_weaken _ _ Hsps)).
  destruct (readTags_loop_run body (fuelOf (set_buf [] s)) (set_buf [] s) sp (sps ++ rest))
    as (s1 & Hrun & Hadv & Hpend & Hbuf);
    [exact Hp|exact Hbody|exact Hsp|exact Hsp0|simpl; lia|simpl; lia|unfold fuelOf; simpl; lia|].
  assert (Hadv1 : advanced s (body ++ [sp]) s1).
  { destruct Hadv as (Ha & Hb & Hc & Hd & He & Hf). unfold advanced. auto 10. }
  simpl in Hbuf.
  assert (Hr : readTags s =
    match tagMapOf (body.*1) with
    | None => Ret (None, Some ErrMessageMalformed) s1
    | Some tagMap => (skipSpace;; mret (Some tagMap, None : option error)) s1
    end).
  { unfold readTags, mbind at 1 2 3 4, M_bind at 1 2 3 4, buf_Reset, modify, gets.
    rewrite Hrun. cbv beta iota. rewrite Hbuf. unfold tagMapOf.
    destruct (if negb (Contains (body.*1) runeSemicolon) then Some ∅
              else splitTags_loop (Split (body.*1) runeSemicolon) ∅); reflexivity. }
  rewrite Hr. destruct (tagMapOf (body.*1)) as [tagMap|].
  - destruct Hadv1 as (Ha & Hb & Hc & Hd & He & Hf).
    destruct (skipSpace_run s1 sps rest) as (s2 & Hskip & Hadv2 & Hpend2 & Hbuf2 & Hlast);
      [exact Hpend|exact Hsps|rewrite Hc, sizeOf_app; simpl; lia
      |rewrite Hc, sizeOf_app; simpl;
       replace (currentMsgSize s + (sizeOf body + (sp.2 + 0)) + sizeOf sps)
         with (currentMsgSize s + (sizeOf body + (sp.2 + sizeOf sps))) by lia; exact Hstop|].
    exists s2. split.
    + unfold mbind, M_bind. rewrite Hskip. reflexivity.
    + split; [|auto].
      replace (body ++ sp :: sps) with ((body ++ [sp]) ++ sps)
        by (rewrite <- app_assoc; reflexivity).
      eapply advanced_trans; [|exact Hadv2]. unfold advanced. auto 10.
  - exists s1. auto.
Qed.

(** ** Encoded texts and the parameters of a text *)

Lemma encode_app a b : encode (a ++ b) = encode a ++ encode b.
Proof. apply map_app. Qed.

Lemma encode_fst t : (encode t).*1 = t.
Proof.
  induction t as [|r t IH]; simpl; [reflexivity|]. f_equal. exact IH.
Qed.

Lemma sizeOf_encode t : sizeOf (encode t) = byteLen t.
Proof.
  induction t as [|r t IH]; simpl; [reflexivity|]. rewrite IH. reflexivity.
Qed.

Lemma Forall_encode (P : rune -> Prop) t :
  Forall P t -> Forall (fun it : rune * Z => P it.1 /\ 0 <= it.2) (encode t).
Proof.
  induction 1 as [|r t Hr _ IH]; simpl; constructor; [|exact IH].
  simpl. split; [exact Hr|]. pose proof (RuneLen_pos r). lia.
Qed.

Lemma Forall_spaces n : Forall (fun r => r = runeSpace) (spaces n).
Proof.
  induction n as [|n IH]; simpl; constructor; [reflexivity|exact IH].
Qed.

Lemma paramsOf_walk text : paramsOf text = Params_spec text.
Proof.
  unfold paramsOf, Params_spec. rewrite params_loop_walk by lia. reflexivity.
Qed.

Lemma paramsOf_space text : paramsOf (runeSpace :: text) = paramsOf text.
Proof.
  rewrite !paramsOf_walk.
  exact (Params_spec_token [] text eq_refl eq_refl).
Qed.

Lemma paramsOf_spaces n text : paramsOf (spaces n ++ text) = paramsOf text.
Proof.
  induction n as [|n IH]; simpl; [reflexivity|]. rewrite paramsOf_space. exact IH.
Qed.

Lemma paramsOf_nil : paramsOf [] = [].
Proof. reflexivity. Qed.

Lemma leading_spaces (b : gostring) :
  exists n b', b = spaces n ++ b' /\ head b' <> Some runeSpace.
Proof.
  induction b as [|r b IH].
  - exists 0%nat, []. split; [reflexivity|discriminate].
  - destruct (Z.eq_dec r runeSpace) as [->|Hne].
    + destruct IH as (n & b' & -> & Hb'). exists (S n), b'. split; [reflexivity|exact Hb'].
    + exists 0%nat, (r :: b). split; [reflexivity|]. simpl. congruence.
Qed.

(** The reading loop of [readParams] on a parameter text followed by the
    terminator. *)
Lemma readParams_loop_run body : forall fuel s cr lf rest,
  pending (src s) = body ++ cr :: lf :: rest ->
  Forall (fun it : rune * Z => it.1 <> runeCR /\ 0 <= it.2) body ->
  cr.1 = runeCR -> lf.1 = runeLF -> 0 <= cr.2 -> 0 <= lf.2 ->
  currentMsgSize s + sizeOf body + cr.2 + lf.2 <= maxMessageSize ->
  (length (pending (src s)) < fuel)%nat ->
  exists s',
    readParams_loop fuel s = Ret None s'
    /\ advanced s (body ++ [cr; lf]) s'
    /\ pending (src s') = rest
    /\ buf s' = buf s ++ body.*1.
Proof.
  induction body as [|it body IH]; intros fuel s cr lf rest Hp Hall Hcr Hlf Hc0 Hl0 Hsz Hfuel;
    (destruct fuel as [|fuel]; [lia|]); simpl in Hp, Hsz; simpl readParams_loop;
    unfold mbind, M_bind.
  - rewrite (isLineEnd_CRLF s cr lf rest Hp Hcr Hlf) by lia. simpl.
    eexists. split; [reflexivity|]. simpl. rewrite app_nil_r.
    split; [|auto]. unfold advanced. simpl.
    rewrite Hp, Hcr, Hlf, <- app_assoc. repeat split; simpl; lia.
  - apply Forall_cons in Hall as [[Hne H0] Hall].
    assert (Hb : 0 <= sizeOf body).
    { apply sizeOf_nonneg. eapply Forall_impl; [exact Hall|]. intros ? [_ ?]. assumption. }
    rewrite (isLineEnd_other s it _ Hp Hne) by lia. simpl.
    erewrite read_within_budget; [|reflexivity|simpl; lia]. simpl.
    unfold buf_WriteRune, modify. simpl.
    match goal with
    | |- context [readParams_loop fuel ?s1] =>
        destruct (IH fuel s1 cr lf rest) as (s' & Hrun & Hadv & Hpend & Hbuf);
          [reflexivity|exact Hall|exact Hcr|exact Hlf|exact Hc0|exact Hl0
          |simpl; lia|simpl; rewrite Hp in Hfuel; simpl in Hfuel; lia|]
    end.
    rewrite Hrun. exists s'. split; [reflexivity|].
    split; [|split; [exact Hpend|simpl in Hbuf; rewrite Hbuf, <- app_assoc; reflexivity]].
    destruct Hadv as (Ha & Hb' & Hc & Hd & He & Hf). simpl in Ha, Hb', Hc, Hd, He, Hf.
    unfold advanced. simpl. rewrite Hp, Ha, Hb', Hc, <- !app_assoc.
    repeat split; auto; simpl; lia.
Qed.

Lemma readParams_run s body cr lf rest :
  pending (src s) = body ++ cr :: lf :: rest ->
  Forall (fun it : rune * Z => it.1 <> runeCR /\ 0 <= it.2) body ->
  cr.1 = runeCR -> lf.1 = runeLF -> 0 <= cr.2 -> 0 <= lf.2 ->
  currentMsgSize s + sizeOf body + cr.2 + lf.2 <= maxMessageSize ->
  exists s',
    readParams s = Ret (paramsOf (body.*1), None) s'
    /\ advanced s (body ++ [cr; lf]) s'
    /\ pending (src s') = rest.
Proof.
  intros Hp Hall Hcr Hlf Hc0 Hl0 Hsz.
  destruct (readParams_loop_run body (fuelOf (set_buf [] s)) (set_buf [] s)
              cr lf rest Hp Hall Hcr Hlf Hc0 Hl0 Hsz)
    as (s' & Hrun & Hadv & Hpend & Hbuf); [unfold fuelOf; simpl; lia|].
  exists s'. split.
  - unfold readParams, mbind, M_bind, buf_Reset, modify, gets, mret, M_ret.
    rewrite Hrun. simpl in Hbuf. rewrite Hbuf. reflexivity.
  - split; [|exact Hpend]. destruct Hadv as (Ha & Hb & Hc & Hd & He & Hf).
    unfold advanced. auto 10.
Qed.

Lemma stopsSkip_encode cur (t : gostring) rest :
  t <> [] -> head t <> Some runeSpace -> stopsSkip cur (encode t ++ rest).
Proof.
  destruct t as [|r t]; [contradiction|]. intros _ H. simpl. left. simpl in H. congruence.
Qed.

Lemma next_command_run msg s c tail rest :
  pending (src s) = encode (c ++ paramBlock tail ++ CRLF) ++ rest ->
  Forall (fun r => r <> runeSpace /\ r <> runeCR) c ->
  match tail with Some b => Forall (fun r => r <> runeCR) b | None => True end ->
  currentMsgSize s + byteLen (c ++ paramBlock tail ++ CRLF) <= maxMessageSize ->
  Params msg = [] ->
  exists s',
    next_command msg s
      = Ret (mkMessage (rawBuf s ++ c ++ paramBlock tail ++ CRLF) (Tags msg) (Prefix msg) c
               (match tail with Some b => paramsOf b | None => [] end), None) s'
    /\ pending (src s') = rest
    /\ final (src s') = final (src s) /\ message s' = message s /\ err s' = err s.
Proof.
  intros Hp Hc Htail Hsz Hps.
  assert (Hc' : Forall (fun it : rune * Z => it.1 <> runeSpace /\ it.1 <> runeCR /\ 0 <= it.2)
                  (encode c)).
  { eapply Forall_impl; [apply (Forall_encode _ _ Hc)|]. simpl. tauto. }
  pose proof (byteLen_nonneg c) as Hc0.
  destruct tail as [b|]; simpl paramBlock in *.
  - destruct (leading_spaces b) as (n & b' & -> & Hb').
    rewrite !byteLen_app, byteLen_cons, byteLen_app in Hsz.
    pose proof (byteLen_nonneg (spaces n)). pose proof (byteLen_nonneg b').
    change (byteLen CRLF) with 2 in Hsz. change (RuneLen runeSpace) with 1 in Hsz.
    apply Forall_app in Htail as [_ Htail].
    destruct (readCommand_run_space s (encode c) (runeSpace, 1) (encode (spaces n))
                (encode (b' ++ CRLF) ++ rest)) as (s1 & Hrc & Hadv & Hpend & Hlast).
    { rewrite Hp. change (runeSpace :: spaces n ++ b') with ((runeSpace :: spaces n) ++ b').
      rewrite !encode_app, <- !app_assoc. reflexivity. }
    { exact Hc'. }
    { change ((runeSpace, 1) :: encode (spaces n)) with (encode (spaces (S n))).
      apply (Forall_encode _ _ (Forall_spaces (S n))). }
    { rewrite sizeOf_app. simpl. rewrite !sizeOf_encode. lia. }
    { destruct b' as [|y b']; simpl; left; [discriminate|]. simpl in Hb'. congruence. }
    destruct Hadv as (Ha & Hb & Hcs & Hd & He & Hf).
    rewrite sizeOf_app in Hcs. simpl in Hcs. rewrite !sizeOf_encode in Hcs.
    rewrite fmap_app, fmap_cons, !encode_fst in Hb. simpl in Hb.
    unfold next_command, mbind at 1, M_bind at 1. rewrite Hrc. cbv beta iota.
    destruct b' as [|y b'].
    + (* only spaces after the command *)
      simpl in Hpend.
      unfold mbind at 1, M_bind at 1.
      rewrite (isLineEnd_CRLF s1 (runeCR, 1) (runeLF, 1) rest Hpend eq_refl eq_refl)
        by (simpl; lia).
      cbv beta iota. unfold gets, mbind, M_bind, mret, M_ret. simpl.
      eexists. split.
      { rewrite paramsOf_spaces, paramsOf_nil, encode_fst, !app_nil_r.
        unfold with_Raw, with_Command. simpl. rewrite Hps, Hb, <- !app_assoc. reflexivity. }
      simpl. auto.
    + apply Forall_cons in Htail as Hy. destruct Hy as [Hy Htail'].
      simpl in Hb'.
      assert (Hpend' : pending (src s1)
                = (y, RuneLen y) :: encode b' ++ (runeCR, 1) :: (runeLF, 1) :: rest).
      { rewrite Hpend, encode_app, <- app_assoc. reflexivity. }
      rewrite byteLen_cons in Hsz. pose proof (RuneLen_pos y). pose proof (byteLen_nonneg b').
      unfold mbind at 1, M_bind at 1.
      rewrite (isLineEnd_other s1 (y, RuneLen y) _ Hpend' Hy) by (simpl; lia).
      cbv beta iota. unfold mbind at 1, M_bind at 1.
      rewrite unread_twice by reflexivity.
      match goal with
      | |- exists _, (readParams ≫= _) ?s2 = _ /\ _ =>
          destruct (readParams_run s2 (encode (y :: b')) (runeCR, 1) (runeLF, 1) rest)
            as (s3 & Hrp & Hadv3 & Hpend3);
            [reflexivity
            |apply (Forall_encode (fun r => r <> runeCR)); constructor; assumption
            |reflexivity|reflexivity|simpl; lia|simpl; lia
            |simpl; rewrite sizeOf_encode; lia|]
      end.
      unfold mbind at 1, M_bind at 1. rewrite Hrp. cbv beta iota.
      unfold gets, mbind, M_bind, mret, M_ret.
      destruct Hadv3 as (Ha3 & Hb3 & Hc3 & Hd3 & He3 & Hf3). simpl in Ha3, Hb3, Hc3, Hd3, He3, Hf3.
      exists s3. split; [|split; [exact Hpend3|split; [|split]; congruence]].
      rewrite !encode_fst, paramsOf_spaces.
      unfold with_Raw, with_Params, with_Command. simpl.
      rewrite Hb3, Hb, fmap_app, fmap_cons, !encode_fst, <- !app_assoc. reflexivity.
  - rewrite app_nil_l in Hp. rewrite app_nil_l, byteLen_app in Hsz.
    change (byteLen CRLF) with 2 in Hsz.
    destruct (readCommand_run_CR s (encode c) (runeCR, 1) ((runeLF, 1) :: rest))
      as (s1 & Hrc & Hadv & Hpend & Hlast).
    { rewrite Hp, encode_app, <- app_assoc. reflexivity. }
    { exact Hc'. }
    { reflexivity. }
    { simpl; lia. }
    { rewrite sizeOf_encode. simpl. lia. }
    destruct Hadv as (Ha & Hb & Hcs & Hd & He & Hf).
    rewrite sizeOf_encode in Hcs. rewrite encode_fst in Hb.
    unfold next_command, mbind at 1, M_bind at 1. rewrite Hrc. cbv beta iota.
    unfold mbind at 1, M_bind at 1.
    rewrite (isLineEnd_CRLF s1 (runeCR, 1) (runeLF, 1) rest Hpend eq_refl eq_refl)
      by (simpl; lia).
    cbv beta iota. unfold gets, mbind, M_bind, mret, M_ret. simpl.
    eexists. split.
    { rewrite encode_fst.
      unfold with_Raw, with_Command. simpl. rewrite Hps, Hb, <- !app_assoc. reflexivity. }
    simpl. auto.
Qed.

(** ** Formatting *)

Lemma Contains_app a b sep : Contains (a ++ b) sep = Contains a sep || Contains b sep.
Proof.
  induction a as [|c a IH]; simpl; [reflexivity|]. rewrite IH, orb_assoc. reflexivity.
Qed.

Lemma Join_cons2 t t' ts sep : Join (t :: t' :: ts) sep = t ++ sep :: Join (t' :: ts) sep.
Proof. reflexivity. Qed.

Lemma Split_Join toks sep :
  toks <> [] -> Forall (fun t => Contains t sep = false) toks ->
  Split (Join toks sep) sep = toks.
Proof.
  induction toks as [|t toks IH]; intros Hne Hall; [contradiction|].
  apply Forall_cons in Hall as [Ht Hall]. destruct toks as [|t' ts].
  - simpl. apply Split_no_sep. exact Ht.
  - rewrite Join_cons2, (Split_app_sep _ _ _ Ht), IH; [reflexivity|discriminate|exact Hall].
Qed.

Lemma Contains_Join toks sep : (2 <= length toks)%nat -> Contains (Join toks sep) sep = true.
Proof.
  destruct toks as [|t [|t' ts]]; simpl length; try lia. intros _.
  rewrite Join_cons2, Contains_app. simpl. rewrite Z.eqb_refl, orb_true_r. reflexivity.
Qed.

Lemma paramsOf_paramsText middle trailing :
  Forall plainParam middle ->
  paramsOf (paramsText middle trailing)
  = middle ++ match trailing with Some t => [t] | None => [] end.
Proof.
  intros Hall. rewrite paramsOf_walk. unfold paramsText, paramTokens.
  induction Hall as [|w middle (Hne & Hsp & Hcolon) Hall IH].
  - destruct trailing as [t|]; [apply Params_spec_trailing|reflexivity].
  - destruct (middle ++ match trailing with Some t => [runeColon :: t] | None => [] end)
      as [|w' ws] eqn:Hrest.
    + destruct middle; [|discriminate]. destruct trailing; [discriminate|].
      simpl. unfold Params_spec. rewrite (Split_no_sep _ _ Hsp).
      destruct w as [|c w]; [contradiction|]. simpl in Hcolon |- *. rewrite Hcolon.
      reflexivity.
    + simpl app. rewrite Hrest, Join_cons2, (Params_spec_token _ _ Hsp Hcolon).
      rewrite bool_decide_eq_false_2 by exact Hne. rewrite IH. reflexivity.
Qed.

Lemma Split_token_equals k v :
  Contains k runeEquals = false -> Contains v runeEquals = false ->
  Split (k ++ runeEquals :: v) runeEquals = [k; v].
Proof.
  intros Hk Hv. rewrite (Split_app_sep _ _ _ Hk), (Split_no_sep _ _ Hv). reflexivity.
Qed.

Lemma splitTags_loop_entries entries : forall m,
  Forall plainTag entries ->
  splitTags_loop (tagToken <$> entries) m
  = Some (foldl (fun m e => <[e.1 := default [] e.2]> m) m entries).
Proof.
  induction entries as [|[k [v|]] entries IH]; intros m Hall; [reflexivity| |];
    apply Forall_cons in Hall as [(Hks & Hke & Hv) Hall]; simpl in Hks, Hke, Hv;
    rewrite fmap_cons; unfold tagToken at 1; cbn [fst snd]; simpl splitTags_loop.
  - destruct Hv as [_ Hve].
    rewrite Contains_app. simpl. rewrite orb_true_r.
    rewrite (Split_token_equals _ _ Hke Hve). simpl. apply IH. exact Hall.
  - rewrite Hke. apply IH. exact Hall.
Qed.

Lemma tagToken_no_semicolon e : plainTag e -> Contains (tagToken e) runeSemicolon = false.
Proof.
  destruct e as [k [v|]]; intros (Hks & _ & Hv); unfold tagToken; simpl in *; [|exact Hks].
  rewrite Contains_app. simpl. destruct Hv as [-> _]. rewrite Hks. reflexivity.
Qed.

Lemma tagMapOf_tagsText entries :
  (2 <= length entries)%nat -> Forall plainTag entries ->
  tagMapOf (tagsText entries) = Some (tagsMap entries).
Proof.
  intros Hlen Hall. unfold tagMapOf, tagsText, tagsMap.
  rewrite Contains_Join by (rewrite length_fmap; exact Hlen). simpl.
  rewrite Split_Join.
  - apply splitTags_loop_entries. exact Hall.
  - destruct entries; [simpl in Hlen; lia|discriminate].
  - apply Forall_fmap. eapply Forall_impl; [exact Hall|]. intros e. apply tagToken_no_semicolon.
Qed.

(** ** Whole lines *)

Lemma byteLen_spaces n : byteLen (spaces n) = Z.of_nat n.
Proof.
  induction n as [|n IH]; [reflexivity|].
  change (spaces (S n)) with (runeSpace :: spaces n). rewrite byteLen_cons, IH.
  change (RuneLen runeSpace) with 1. lia.
Qed.

(** The first rune of the main block of a well-formed line. *)
Lemma mainBlock_head l :
  wellFormed l ->
  exists x mtail,
    mainBlock l = x :: mtail
    /\ x <> runeSpace
    /\ (lineTags l = None -> x <> runeAt)
    /\ match linePrefix l with
       | Some _ => x = runeColon
       | None => x <> runeColon
       end.
Proof.
  intros (Hne & Hc & Ht & Hp & _ & _). unfold mainBlock, prefixBlock.
  destruct (linePrefix l) as [[p n]|].
  - eexists _, _. split; [reflexivity|]. split; [discriminate|].
    split; [discriminate|reflexivity].
  - destruct (lineCommand l) as [|y c] eqn:Hcmd; [contradiction|].
    eexists _, _. split; [reflexivity|].
    apply Forall_cons in Hc as [[Hy _] _]. split; [exact Hy|].
    simpl in Hp. split; [|congruence].
    intros Hnone. rewrite Hnone in Ht. simpl in Ht. congruence.
Qed.

Lemma next_main_run l msg s x mtail R rest :
  wellFormed l ->
  mainBlock l = x :: mtail ->
  pending (src s) = encode mtail ++ rest ->
  lastRune (src s) = Some (x, RuneLen x) ->
  lastRuneSize s = RuneLen x ->
  currentMsgSize s = RuneLen x ->
  rawBuf s = R ++ [x] ->
  Prefix msg = [] -> Params msg = [] ->
  exists s',
    (r ← next_prefix msg x;
     match r with
     | inr e => mret (zeroMessage, Some e)
     | inl msg => next_command msg
     end) s
    = Ret (mkMessage (R ++ mainBlock l) (Tags msg)
             (match linePrefix l with Some (p, _) => p | None => [] end)
             (lineCommand l)
             (match lineParams l with Some b => paramsOf b | None => [] end), None) s'
    /\ pending (src s') = rest
    /\ final (src s') = final (src s) /\ message s' = message s /\ err s' = err s.
Proof.
  intros Hwf Hmain Hp Hlast Hlsz Hcur Hraw Hpfx Hps.
  destruct (mainBlock_head l Hwf) as (x' & mtail' & Hmain' & Hxsp & _ & Hx).
  rewrite Hmain in Hmain'. injection Hmain' as <- <-.
  destruct Hwf as (Hne & Hc & _ & Hpf & Hpar & Hsz).
  unfold mainBlock, prefixBlock in Hmain, Hsz |- *.
  pose proof (RuneLen_pos x) as Hx1.
  unfold mbind at 1, M_bind at 1, next_prefix.
  destruct (linePrefix l) as [[p n]|].
  - (* a prefix *)
    subst x. rewrite Z.eqb_refl.
    simpl in Hmain. injection Hmain as Hmain. subst mtail.
    rewrite !byteLen_app in Hsz. simpl app in Hsz. rewrite byteLen_cons, byteLen_app in Hsz.
    rewrite byteLen_spaces in Hsz. change (RuneLen runeColon) with 1 in Hsz, Hcur, Hlsz.
    change (byteLen CRLF) with 2 in Hsz.
    pose proof (byteLen_nonneg p). pose proof (byteLen_nonneg (lineCommand l)).
    pose proof (byteLen_nonneg (paramBlock (lineParams l))).
    destruct (readPrefix_run s (encode p) (runeSpace, 1) (encode (spaces n))
                (encode (lineCommand l ++ paramBlock (lineParams l) ++ CRLF) ++ rest))
      as (s1 & Hrp & Hadv & Hpend & Hlast1).
    { rewrite Hp. rewrite <- app_assoc.
      change (spaces (S n)) with (runeSpace :: spaces n).
      rewrite !encode_app, <- !app_assoc. reflexivity. }
    { apply (Forall_encode _ _ Hpf). }
    { change ((runeSpace, 1) :: encode (spaces n)) with (encode (spaces (S n))).
      apply (Forall_encode _ _ (Forall_spaces (S n))). }
    { rewrite sizeOf_app. simpl. rewrite !sizeOf_encode, byteLen_spaces. lia. }
    { apply stopsSkip_encode.
      - destruct (lineCommand l); [contradiction|discriminate].
      - destruct (lineCommand l) as [|y c]; [contradiction|].
        apply Forall_cons in Hc as [[Hy _] _]. simpl. congruence. }
    unfold mbind at 1, M_bind at 1. rewrite Hrp. cbv beta iota.
    unfold mret at 1, M_ret at 1.
    destruct Hadv as (Ha & Hb & Hcs & Hd & He & Hf).
    rewrite sizeOf_app in Hcs. simpl in Hcs. rewrite !sizeOf_encode, byteLen_spaces in Hcs.
    rewrite fmap_app, fmap_cons, !encode_fst in Hb. simpl in Hb.
    destruct (next_command_run (with_Prefix (encode p).*1 msg) s1 (lineCommand l)
                (lineParams l) rest Hpend Hc Hpar) as (s2 & Hnc & Hpend2 & Hd2 & He2 & Hf2).
    { rewrite !byteLen_app. change (byteLen CRLF) with 2. lia. }
    { exact Hps. }
    exists s2. split; [|split; [exact Hpend2|split; [|split]; congruence]].
    rewrite Hnc. f_equal. f_equal. simpl. rewrite encode_fst, Hb, Hraw.
    change (spaces (S n)) with (runeSpace :: spaces n).
    rewrite <- !app_assoc. reflexivity.
  - (* no prefix: the rune is pushed back *)
    simpl in Hmain.
    destruct (Z.eqb_spec x runeColon) as [|_]; [contradiction|].
    unfold mbind at 1, M_bind at 1.
    rewrite (unread_last s (x, RuneLen x) R x Hlast Hraw). cbv beta iota.
    unfold mret at 1, M_ret at 1. cbv beta iota.
    match goal with
    | |- exists _, next_command _ ?s1 = _ /\ _ =>
        destruct (next_command_run msg s1 (lineCommand l) (lineParams l) rest)
          as (s2 & Hnc & Hpend2 & Hd2 & He2 & Hf2);
          [simpl; rewrite Hp, Hmain; reflexivity|exact Hc|exact Hpar
          |simpl in Hsz |- *; lia|exact Hps|]
    end.
    exists s2. split; [|split; [exact Hpend2|auto]].
    rewrite Hnc. simpl. rewrite Hpfx. reflexivity.
Qed.

(** The tag text of no tag at all, or of two tags and more, decodes to the
    map of the tags. *)
Lemma tagMapOf_tagsText_block entries :
  length entries <> 1%nat -> Forall plainTag entries ->
  tagMapOf (tagsText entries) = Some (tagsMap entries).
Proof.
  intros Hlen Hall. destruct entries as [|e [|e' entries]].
  - reflexivity.
  - contradiction Hlen. reflexivity.
  - apply tagMapOf_tagsText; [simpl; lia|exact Hall].
Qed.

Lemma encode_cons r t : encode (r :: t) = (r, RuneLen r) :: encode t.
Proof. reflexivity. Qed.

Ltac norm_encode :=
  repeat (rewrite encode_app || rewrite encode_cons || rewrite <- app_assoc
          || rewrite <- app_comm_cons).

Lemma next_run s l rest :
  wellFormed l ->
  pending (src s) = encode (wire l) ++ rest ->
  exists s',
    next s = Ret (parsed l, None) s'
    /\ pending (src s') = rest
    /\ final (src s') = final (src s) /\ message s' = message s /\ err s' = err s.
Proof.
  intros Hwf Hp.
  destruct (mainBlock_head l Hwf) as (x & mtail & Hmain & Hxsp & Hxat & Hx).
  pose proof Hwf as (Hne & Hc & Ht & Hpf & Hpar & Hsz).
  pose proof (RuneLen_pos x) as Hx1.
  assert (Hx512 : RuneLen x <= maxMessageSize).
  { rewrite Hmain, byteLen_cons in Hsz. pose proof (byteLen_nonneg mtail). lia. }
  unfold next, mbind at 1 2, M_bind at 1 2, modify.
  set (s0 := set_currentMsgSize 0 (set_rawBuf [] s)).
  unfold wire, parsed in *. unfold tagBlock in *.
  destruct (lineTags l) as [[entries n]|] eqn:Htags.
  - (* a tag block *)
    destruct Ht as (Htsp & (Hplain & Hlen) & Htsz).
    pose proof (tagMapOf_tagsText_block entries Hlen Hplain) as Htm.
    set (t := tagsText entries) in *. set (tm := tagsMap entries) in *.
    rewrite byteLen_cons, byteLen_app, byteLen_spaces in Htsz.
    change (RuneLen runeAt) with 1 in Htsz. pose proof (byteLen_nonneg t).
    assert (Hp0 : pending (src s0)
              = (runeAt, 1) :: encode t ++ ((runeSpace, 1) :: encode (spaces n))
                  ++ encode (mainBlock l) ++ rest).
    { simpl. rewrite Hp. change (spaces (S n)) with (runeSpace :: spaces n).
      norm_encode. reflexivity. }
    unfold mbind at 1, M_bind at 1.
    rewrite (read_within_budget s0 (runeAt, 1) _ Hp0) by (simpl; lia).
    cbv beta iota. unfold mbind at 1, M_bind at 1.
    unfold next_tags. cbn [fst snd]. change (runeAt =? runeAt) with true. cbv iota.
    unfold mbind at 1, M_bind at 1.
    match goal with
    | |- exists _, match match readTags ?s1 with _ => _ end with _ => _ end = _ /\ _ =>
        pose proof (readTags_run s1 (encode t) (runeSpace, 1) (encode (spaces n))
                      (encode (mainBlock l) ++ rest)) as Hrt
    end.
    rewrite encode_fst, Htm in Hrt.
    destruct Hrt as (s2 & Hrt & Hadv & Hpend & Hlast).
    { reflexivity. }
    { apply (Forall_encode _ _ Htsp). }
    { change ((runeSpace, 1) :: encode (spaces n)) with (encode (spaces (S n))).
      apply (Forall_encode _ _ (Forall_spaces (S n))). }
    { simpl. rewrite sizeOf_app. simpl. rewrite !sizeOf_encode, byteLen_spaces. lia. }
    { lia. }
    { rewrite Hmain. simpl. left. exact Hxsp. }
    rewrite Hrt. cbv beta iota.
    unfold mbind at 1 2, M_bind at 1 2, modify.
    destruct Hadv as (Ha & Hb & Hcs & Hd & He & Hf). simpl in Ha, Hb, Hcs, Hd, He, Hf.
    rewrite fmap_app, fmap_cons, !encode_fst in Hb. simpl in Hb.
    assert (Hp2 : pending (src (set_currentMsgSize 0 s2)) = (x, RuneLen x) :: encode mtail ++ rest).
    { simpl. rewrite Hpend, Hmain. reflexivity. }
    rewrite (read_within_budget (set_currentMsgSize 0 s2) (x, RuneLen x) _ Hp2) by (simpl; lia).
    cbv beta iota. unfold mret at 1, M_ret at 1. cbn [fst snd].
    match goal with
    | |- exists _, (_ ≫= _) ?s3 = _ /\ _ =>
        destruct (next_main_run l (with_Tags (Some tm) zeroMessage) s3 x mtail
                    (runeAt :: t ++ spaces (S n)) rest Hwf Hmain)
          as (s4 & Hrun & Hpend4 & Hd4 & He4 & Hf4);
          [reflexivity|reflexivity|reflexivity|reflexivity
          |simpl; rewrite Hb; reflexivity|reflexivity|reflexivity|]
    end.
    exists s4. split; [|split; [exact Hpend4|simpl in Hd4, He4, Hf4; split; [|split]; congruence]].
    rewrite Hrun. unfold wire, tagBlock. rewrite Htags.
    destruct (lineParams l); [rewrite paramsOf_walk|]; reflexivity.
  - (* no tag block *)
    simpl in Hp. specialize (Hxat eq_refl).
    assert (Hp0 : pending (src s0) = (x, RuneLen x) :: encode mtail ++ rest).
    { simpl. rewrite Hp, Hmain. reflexivity. }
    unfold mbind at 1, M_bind at 1.
    rewrite (read_within_budget s0 (x, RuneLen x) _ Hp0) by (simpl; lia).
    cbv beta iota. unfold mbind at 1, M_bind at 1.
    unfold next_tags. cbn [fst snd]. destruct (Z.eqb_spec x runeAt) as [|_]; [contradiction|].
    unfold mret at 1, M_ret at 1. cbv beta iota.
    match goal with
    | |- exists _, (_ ≫= _) ?s3 = _ /\ _ =>
        destruct (next_main_run l zeroMessage s3 x mtail [] rest Hwf Hmain)
          as (s4 & Hrun & Hpend4 & Hd4 & He4 & Hf4);
          [reflexivity|reflexivity|reflexivity|reflexivity
          |reflexivity|reflexivity|reflexivity|]
    end.
    exists s4. split; [|split; [exact Hpend4|simpl in Hd4, He4, Hf4; auto]].
    rewrite Hrun. unfold wire, tagBlock. rewrite Htags.
    destruct (lineParams l); [rewrite paramsOf_walk|]; reflexivity.
Qed.

(** ** The loop of the caller *)

Lemma Scan_true s s' :
  Scan s = Ret true s' ->
  err s = None /\ exists m s1, next s = Ret (m, None) s1 /\ s' = set_message m s1.
Proof.
  unfold Scan, mbind, M_bind, gets, modify. destruct (err s) as [e|] eqn:He; simpl.
  - discriminate.
  - destruct (next s) as [[m [e|]] s1| |] eqn:Hn; simpl; try discriminate.
    intros [= <-]. eauto.
Qed.

Lemma Scan_next_ok s m s1 :
  err s = None -> next s = Ret (m, None) s1 -> Scan s = Ret true (set_message m s1).
Proof.
  intros He Hn. unfold Scan, mbind, M_bind, gets, modify. rewrite He, Hn. reflexivity.
Qed.

Lemma Scan_exhausted s :
  pending (src s) = [] -> err s = None ->
  exists s', Scan s = Ret false s' /\ Err s' = finalErr (final (src s)).
Proof.
  intros Hp He.
  unfold Scan, next, mbind, M_bind, gets, modify, read, ReadRune; simpl.
  rewrite He, Hp. simpl. eexists. split; reflexivity.
Qed.

Lemma wire_length l : (2 <= length (wire l))%nat.
Proof.
  unfold wire, mainBlock. rewrite !length_app. simpl. lia.
Qed.

Lemma concat_wire_length ls : (length ls <= length (concat (wire <$> ls)))%nat.
Proof.
  induction ls as [|l ls IH]; [simpl; lia|].
  rewrite fmap_cons.
  change (concat (wire l :: (wire <$> ls))) with (wire l ++ concat (wire <$> ls)).
  rewrite length_app. pose proof (wire_length l). cbn [length]. lia.
Qed.

(** ** Failures of the tag loop *)

Lemma Split_length_Contains v sep :
  Contains v sep = (1 <? length (Split v sep))%nat.
Proof.
  induction v as [|c v IH]; simpl; [reflexivity|].
  pose proof (Split_nonempty v sep) as Hne.
  destruct (c =? sep); simpl.
  - destruct (Split v sep); [contradiction|]. reflexivity.
  - rewrite IH. destruct (Split v sep); [contradiction|]. reflexivity.
Qed.

Lemma splitTags_loop_None toks : forall m,
  splitTags_loop toks m = None
  <-> Exists (fun v => (2 < length (Split v runeEquals))%nat) toks.
Proof.
  induction toks as [|v toks IH]; intros m; simpl.
  - split; [discriminate|]. intros H. inversion H.
  - rewrite Exists_cons. rewrite (Split_length_Contains v runeEquals).
    destruct (Nat.ltb_spec 1 (length (Split v runeEquals))) as [H1|H1].
    + destruct (Nat.ltb_spec (length (Split v runeEquals)) 2) as [|_]; [lia|]. simpl.
      destruct (Nat.ltb_spec 2 (length (Split v runeEquals))) as [H2|H2].
      * split; auto.
      * rewrite IH. split; [auto|]. intros [|]; [lia|assumption].
    + rewrite IH. split; [auto|]. intros [|]; [lia|assumption].
Qed.

(** ** What the readers put in their results *)

Lemma read_buf s r s' : read s = Ret r s' -> buf s' = buf s.
Proof.
  unfold read, ReadRune. destruct (pending (src s)) as [|it rest]; simpl.
  - intros [= _ <-]. reflexivity.
  - destruct (_ >? _); intros [= _ <-]; reflexivity.
Qed.

Lemma unread_buf s r s' : unread s = Ret r s' -> buf s' = buf s.
Proof.
  unfold unread, UnreadRune. destruct (lastRune (src s)); simpl.
  - destruct (rawBuf s); [discriminate|]. intros [= _ <-]. reflexivity.
  - intros [= _ <-]. reflexivity.
Qed.

Lemma skipSpace_loop_buf fuel : forall s s',
  skipSpace_loop fuel s = Ret tt s' -> buf s' = buf s.
Proof.
  induction fuel as [|fuel IH]; intros s s'; simpl; [discriminate|].
  unfold mbind, M_bind. destruct (read s) as [[ch e] s1| |] eqn:Hr; try discriminate.
  apply read_buf in Hr. destruct (negb (ch =? runeSpace)).
  - destruct (unread s1) as [? s2| |] eqn:Hu; try discriminate.
    apply unread_buf in Hu. intros [= <-]. congruence.
  - intros H. apply IH in H. congruence.
Qed.

Lemma skipSpace_buf s s' : skipSpace s = Ret tt s' -> buf s' = buf s.
Proof. apply skipSpace_loop_buf. Qed.

Lemma readPrefix_loop_buf fuel : forall s s',
  readPrefix_loop fuel s = Ret None s' ->
  exists w, buf s' = buf s ++ w /\ Forall (fun r => r <> runeSpace) w.
Proof.
  induction fuel as [|fuel IH]; intros s s'; simpl; [discriminate|].
  unfold mbind, M_bind. destruct (read s) as [[ch [e|]] s1| |] eqn:Hr; try discriminate.
  { destruct (error_eqb e EOF); discriminate. }
  apply read_buf in Hr. destruct (Z.eqb_spec ch runeSpace) as [|Hne].
  - intros [= <-]. exists []. rewrite app_nil_r. auto.
  - unfold buf_WriteRune, modify. intros H. apply IH in H as (w & Hw & Hall).
    simpl in Hw. exists (ch :: w). rewrite Hw, Hr, <- app_assoc. auto.
Qed.

Lemma readTags_loop_buf fuel : forall s s',
  readTags_loop fuel s = Ret None s' ->
  exists w, buf s' = buf s ++ w /\ Forall (fun r => r <> runeSpace) w.
Proof.
  induction fuel as [|fuel IH]; intros s s'; simpl; [discriminate|].
  unfold mbind, M_bind. destruct (read s) as [[ch [e|]] s1| |] eqn:Hr; try discriminate.
  { destruct (error_eqb e EOF); discriminate. }
  apply read_buf in Hr. destruct (Z.eqb_spec ch runeSpace) as [|Hne].
  - intros [= <-]. exists []. rewrite app_nil_r. auto.
  - unfold gets. destruct (_ >=? _); [discriminate|].
    unfold buf_WriteRune, modify. intros H. apply IH in H as (w & Hw & Hall).
    simpl in Hw. exists (ch :: w). rewrite Hw, Hr, <- app_assoc. auto.
Qed.

Lemma readCommand_loop_buf fuel : forall s s',
  readCommand_loop fuel s = Ret None s' ->
  exists w, buf s' = buf s ++ w /\ Forall (fun r => r <> runeSpace /\ r <> runeCR) w.
Proof.
  induction fuel as [|fuel IH]; intros s s'; simpl; [discriminate|].
  unfold mbind, M_bind. destruct (read s) as [[ch [e|]] s1| |] eqn:Hr; try discriminate.
  { destruct (error_eqb e EOF); discriminate. }
  apply read_buf in Hr. destruct (Z.eqb_spec ch runeSpace) as [|Hne].
  - intros [= <-]. exists []. rewrite app_nil_r. auto.
  - destruct (Z.eqb_spec ch runeCR) as [|Hcr].
    + destruct (unread s1) as [? s2| |] eqn:Hu; try discriminate.
      apply unread_buf in Hu. intros [= <-]. exists []. rewrite app_nil_r. split; [congruence|auto].
    + unfold buf_WriteRune, modify. intros H. apply IH in H as (w & Hw & Hall).
      simpl in Hw. exists (ch :: w). rewrite Hw, Hr, <- app_assoc. auto.
Qed.

Lemma readPrefix_clean s p s' :
  readPrefix s = Ret (p, None) s' -> Forall (fun r => r <> runeSpace) p.
Proof.
  unfold readPrefix, mbind, M_bind, buf_Reset, modify, gets, mret, M_ret.
  destruct (readPrefix_loop _ _) as [[e|] s1| |] eqn:Hl; try discriminate.
  apply readPrefix_loop_buf in Hl as (w & Hw & Hall). simpl in Hw.
  destruct (skipSpace s1) as [[] s2| |]; try discriminate.
  intros [= <- _]. rewrite Hw. exact Hall.
Qed.

Lemma readCommand_clean s c s' :
  readCommand s = Ret (c, None) s' -> Forall (fun r => r <> runeSpace /\ r <> runeCR) c.
Proof.
  unfold readCommand, mbind, M_bind, buf_Reset, modify, gets, mret, M_ret.
  destruct (readCommand_loop _ _) as [[e|] s1| |] eqn:Hl; try discriminate.
  apply readCommand_loop_buf in Hl as (w & Hw & Hall). simpl in Hw.
  destruct (skipSpace s1) as [[] s2| |] eqn:Hs; try discriminate.
  apply skipSpace_buf in Hs. intros [= <- _]. rewrite Hs, Hw. exact Hall.
Qed.

Lemma readTags_result s t s' :
  readTags s = Ret (t, None) s' ->
  exists text tagMap,
    t = Some tagMap /\ tagMapOf text = Some tagMap
    /\ Forall (fun r => r <> runeSpace) text.
Proof.
  unfold readTags, mbind, M_bind, buf_Reset, modify, gets, mret, M_ret.
  destruct (readTags_loop _ _) as [[e|] s1| |] eqn:Hl; try discriminate.
  apply readTags_loop_buf in Hl as (w & Hw & Hall). simpl in Hw.
  fold (tagMapOf (buf s1)). destruct (tagMapOf (buf s1)) as [tagMap|] eqn:Htm; [|discriminate].
  destruct (skipSpace s1) as [[] s2| |]; try discriminate.
  intros [= <- _]. exists (buf s1), tagMap. rewrite Hw in Htm |- *. auto.
Qed.

Lemma next_command_inv msg s m s' :
  next_command msg s = Ret (m, None) s' ->
  Tags m = Tags msg /\ Prefix m = Prefix msg
  /\ (exists s1, readCommand s = Ret (Command m, None) s1)
  /\ (Params m = Params msg \/ exists s2 s3, readParams s2 = Ret (Params m, None) s3).
Proof.
  unfold next_command, mbind, M_bind, gets, mret, M_ret.
  destruct (readCommand s) as [[c [e|]] s1| |] eqn:Hrc; try discriminate.
  destruct (isLineEnd s1) as [[end_ [e|]] s2| |]; try discriminate.
  destruct end_.
  - intros [= <- <-]. simpl. eauto 10.
  - destruct (unread s2) as [? s3| |]; try discriminate.
    destruct (readParams s3) as [[ps [e|]] s4| |] eqn:Hrp; try discriminate.
    intros [= <- <-]. simpl. eauto 10.
Qed.

Lemma next_prefix_inv msg ch s msg' s' :
  next_prefix msg ch s = Ret (inl msg') s' ->
  Tags msg' = Tags msg /\ Params msg' = Params msg
  /\ ((ch <> runeColon /\ Prefix msg' = Prefix msg)
      \/ (ch = runeColon /\ readPrefix s = Ret (Prefix msg', None) s')).
Proof.
  unfold next_prefix, mbind, M_bind, mret, M_ret.
  destruct (Z.eqb_spec ch runeColon) as [->|Hne].
  - destruct (readPrefix s) as [[p [e|]] s1| |]; try discriminate.
    intros [= <- <-]. simpl. auto.
  - destruct (unread s) as [? s1| |]; try discriminate.
    intros [= <- <-]. auto.
Qed.

Lemma next_tags_inv msg ch s msg' ch' s' :
  next_tags msg ch s = Ret (inl (msg', ch')) s' ->
  Prefix msg' = Prefix msg /\ Params msg' = Params msg
  /\ ((ch <> runeAt /\ msg' = msg /\ ch' = ch)
      \/ (ch = runeAt /\ exists text tagMap,
            Tags msg' = Some tagMap /\ tagMapOf text = Some tagMap
            /\ Forall (fun r => r <> runeSpace) text)).
Proof.
  unfold next_tags, mbind, M_bind, mret, M_ret, modify.
  destruct (Z.eqb_spec ch runeAt) as [->|Hne].
  - destruct (readTags s) as [[t [e|]] s1| |] eqn:Hrt; try discriminate.
    apply readTags_result in Hrt as (text & tagMap & -> & Htm & Hall).
    destruct (read _) as [[c [e|]] s2| |]; try discriminate.
    { destruct (error_eqb e EOF); discriminate. }
    intros [= <- <- <-]. simpl. eauto 10.
  - intros [= <- <- <-]. auto 10.
Qed.

Lemma next_inv s m s' :
  next s = Ret (m, None) s' ->
  exists it rest s1 msg1 ch1 s2 msg2 s3,
    pending (src s) = it :: rest
    /\ next_tags zeroMessage it.1 s1 = Ret (inl (msg1, ch1)) s2
    /\ next_prefix msg1 ch1 s2 = Ret (inl msg2) s3
    /\ next_command msg2 s3 = Ret (m, None) s'.
Proof.
  unfold next, mbind at 1 2 3, M_bind at 1 2 3, modify.
  destruct (pending (src s)) as [|it rest] eqn:Hp.
  { rewrite read_at_end by exact Hp. discriminate. }
  destruct (Z.gtb_spec (0 + it.2) maxMessageSize) as [Hgt|Hle].
  { rewrite (read_over_budget _ it rest) by (simpl; auto; lia). discriminate. }
  rewrite (read_within_budget _ it rest) by (simpl; auto; lia).
  cbv beta iota. unfold mbind, M_bind.
  destruct (next_tags _ _ _) as [[[msg1 ch1]|e] s2| |] eqn:Ht; try discriminate.
  destruct (next_prefix _ _ _) as [[msg2|e] s3| |] eqn:Hpf; try discriminate.
  intros Hc. eauto 12.
Qed.

Lemma Split_Forall (Q : rune -> Prop) s sep :
  Forall Q s -> Forall (Forall Q) (Split s sep).
Proof.
  induction 1 as [|c s Hc _ IH]; simpl; [repeat constructor|].
  destruct (c =? sep); [constructor; [constructor|exact IH]|].
  destruct (Split s sep) as [|t ts]; [repeat constructor; exact Hc|].
  apply Forall_cons in IH as [Ht Hts]. constructor; [constructor; assumption|exact Hts].
Qed.

Lemma Split_Forall_ne s sep : Forall (Forall (fun r => r <> sep)) (Split s sep).
Proof.
  induction s as [|c s IH]; simpl; [repeat constructor|].
  destruct (Z.eqb_spec c sep) as [|Hne]; [constructor; [constructor|exact IH]|].
  destruct (Split s sep) as [|t ts]; [repeat constructor; exact Hne|].
  apply Forall_cons in IH as [Ht Hts]. constructor; [constructor; assumption|exact Hts].
Qed.

Lemma Contains_false_Forall s sep : Contains s sep = false <-> Forall (fun r => r <> sep) s.
Proof.
  induction s as [|c s IH]; simpl; [split; auto|].
  rewrite Forall_cons, <- IH. destruct (Z.eqb_spec c sep); simpl; split; try tauto;
    try discriminate.
Qed.

Lemma walkTokens_plain toks :
  Forall (fun t => Contains t runeSpace = false) toks ->
  forall i p, walkTokens_spec toks !! i = Some p ->
    (S i < length (walkTokens_spec toks))%nat -> plainParam p.
Proof.
  induction 1 as [|t toks Ht Hall IH]; intros i p Hi Hlen; [discriminate|].
  destruct t as [|c tail]; [exact (IH i p Hi Hlen)|].
  simpl in Hi, Hlen. destruct (Z.eqb_spec c runeColon) as [Hc|Hc].
  - simpl in Hlen. lia.
  - destruct i as [|i].
    + injection Hi as <-. split; [discriminate|]. split; [exact Ht|].
      simpl. destruct (Z.eqb_spec c runeColon); [contradiction|reflexivity].
    + simpl in Hi, Hlen. apply (IH i p Hi). lia.
Qed.

Lemma Params_spec_plain text i p :
  Params_spec text !! i = Some p -> (S i < length (Params_spec text))%nat -> plainParam p.
Proof.
  apply walkTokens_plain.
  eapply Forall_impl; [apply (Split_Forall_ne text runeSpace)|].
  intros t Ht. apply Contains_false_Forall. exact Ht.
Qed.

Lemma splitTags_loop_words toks : forall m tm,
  Forall (Forall (fun r => r <> runeSpace /\ r <> runeSemicolon)) toks ->
  map_Forall (fun k v => tagWord k /\ tagWord v) m ->
  splitTags_loop toks m = Some tm ->
  map_Forall (fun k v => tagWord k /\ tagWord v) tm.
Proof.
  induction toks as [|v toks IH]; intros m tm Hall Hm; simpl.
  - intros [= <-]. exact Hm.
  - apply Forall_cons in Hall as [Hv Hall].
    destruct (Contains v runeEquals) eqn:Hc.
    + pose proof (Split_Forall _ v runeEquals Hv) as H1.
      pose proof (Split_Forall_ne v runeEquals) as H2.
      destruct (Split v runeEquals) as [|k [|val [|x pair]]]; simpl; try discriminate.
      apply IH; [exact Hall|]. apply map_Forall_insert_2; [|exact Hm].
      apply Forall_cons in H1 as [Hk1 H1]. apply Forall_cons in H1 as [Hv1 _].
      apply Forall_cons in H2 as [Hk2 H2]. apply Forall_cons in H2 as [Hv2 _].
      unfold tagWord. split; apply Forall_forall; intros r Hr.
      * pose proof (proj1 (Forall_forall _ _) Hk1 r Hr) as [? ?].
        pose proof (proj1 (Forall_forall _ _) Hk2 r Hr). auto.
      * pose proof (proj1 (Forall_forall _ _) Hv1 r Hr) as [? ?].
        pose proof (proj1 (Forall_forall _ _) Hv2 r Hr). auto.
    + apply IH; [exact Hall|]. apply map_Forall_insert_2; [|exact Hm].
      apply Contains_false_Forall in Hc.
      unfold tagWord. split; [|constructor]. apply Forall_forall. intros r Hr.
      pose proof (proj1 (Forall_forall _ _) Hv r Hr) as [? ?].
      pose proof (proj1 (Forall_forall _ _) Hc r Hr). auto.
Qed.

Lemma tagMapOf_words text tm :
  Forall (fun r => r <> runeSpace) text ->
  tagMapOf text = Some tm ->
  map_Forall (fun k v => tagWord k /\ tagWord v) tm.
Proof.
  intros Htext. unfold tagMapOf. destruct (Contains text runeSemicolon); simpl.
  - apply splitTags_loop_words; [|apply map_Forall_empty].
    pose proof (Split_Forall _ text runeSemicolon Htext) as H1.
    pose proof (Split_Forall_ne text runeSemicolon) as H2.
    apply Forall_forall. intros t Ht. apply Forall_forall. intros r Hr.
    pose proof (proj1 (Forall_forall _ _) (proj1 (Forall_forall _ _) H1 t Ht) r Hr).
    pose proof (proj1 (Forall_forall _ _) (proj1 (Forall_forall _ _) H2 t Ht) r Hr).
    auto.
  - intros [= <-]. apply map_Forall_empty.
Qed.

Lemma next_fields s m s' :
  next s = Ret (m, None) s' ->
  exists it rest,
    pending (src s) = it :: rest
    /\ (Tags m = None <-> it.1 <> runeAt)
    /\ (it.1 <> runeAt -> it.1 <> runeColon -> Prefix m = [])
    /\ Forall (fun r => r <> runeSpace) (Prefix m)
    /\ Forall (fun r => r <> runeSpace /\ r <> runeCR) (Command m)
    /\ (forall i p, Params m !! i = Some p -> (S i < length (Params m))%nat -> plainParam p)
    /\ (forall tagMap, Tags m = Some tagMap ->
          map_Forall (fun k v => tagWord k /\ tagWord v) tagMap).
Proof.
  intros H.
  destruct (next_inv _ _ _ H)
    as (it & rest & s1 & msg1 & ch1 & s2 & msg2 & s3 & Hp & Ht & Hpf & Hc).
  exists it, rest. split; [exact Hp|].
  apply next_tags_inv in Ht as (Hpfx1 & Hps1 & Ht).
  apply next_prefix_inv in Hpf as (Htags2 & Hps2 & Hpf).
  apply next_command_inv in Hc as (Htags & Hpfx & (s4 & Hrc) & Hps).
  simpl in Hpfx1, Hps1.
  split; [|split; [|split; [|split; [|split]]]].
  - rewrite Htags, Htags2.
    destruct Ht as [(Hne & -> & _)|(Heq & text & tm & Htm & _)].
    + simpl. tauto.
    + rewrite Htm. split; [discriminate|]. intros Hne. contradiction.
  - intros Hat Hcolon. rewrite Hpfx.
    destruct Ht as [(_ & -> & ->)|(Heq & _)]; [|contradiction].
    destruct Hpf as [(_ & ->)|(Heq & _)]; [reflexivity|contradiction].
  - rewrite Hpfx. destruct Hpf as [(_ & ->)|(_ & Hrp)].
    + rewrite Hpfx1. constructor.
    + apply (readPrefix_clean _ _ _ Hrp).
  - apply (readCommand_clean _ _ _ Hrc).
  - destruct Hps as [Hps|(s5 & s6 & Hrp)].
    + rewrite Hps, Hps2, Hps1. intros i p Hi. discriminate.
    + apply readParams_result in Hrp. rewrite Hrp. intros i p. apply Params_spec_plain.
  - intros tm Htm. rewrite Htags, Htags2 in Htm.
    destruct Ht as [(_ & -> & _)|(_ & text & tm' & Htm' & Hof & Htext)]; [discriminate|].
    rewrite Htm' in Htm. injection Htm as <-. apply (tagMapOf_words _ _ Htext Hof).
Qed.

(** ** The stages of a call of [next]

    A successful call of [next], cut at the calls it makes. *)

Lemma next_tags_stages msg s msg' ch' s' :
  next_tags msg runeAt s = Ret (inl (msg', ch')) s' ->
  exists tags sT,
    readTags s = Ret (tags, None) sT
    /\ read (set_currentMsgSize 0 sT) = Ret (ch', None) s'
    /\ msg' = with_Tags tags msg.
Proof.
  unfold next_tags, mbind, M_bind, mret, M_ret, modify.
  change (runeAt =? runeAt) with true. cbv beta iota.
  destruct (readTags s) as [[t [e|]] sT| |]; try discriminate.
  destruct (read (set_currentMsgSize 0 sT)) as [[c [e2|]] s2| |] eqn:Hrd;
    try discriminate.
  { destruct (error_eqb e2 EOF); discriminate. }
  intros [= <- <- <-]. exists t, sT. auto.
Qed.

Lemma next_command_stages msg s m s' :
  next_command msg s = Ret (m, None) s' ->
  Tags m = Tags msg /\ Prefix m = Prefix msg /\ Raw m = rawBuf s'
  /\ exists s4 end_ s5,
       readCommand s = Ret (Command m, None) s4
       /\ isLineEnd s4 = Ret (end_, None) s5
       /\ if (end_ : bool) then s' = s5 /\ Params m = Params msg
          else exists e s6, unread s5 = Ret e s6
                 /\ readParams s6 = Ret (Params m, None) s'.
Proof.
  unfold next_command, mbind, M_bind, gets, mret, M_ret.
  destruct (readCommand s) as [[c [e|]] s1| |] eqn:Hrc; try discriminate.
  destruct (isLineEnd s1) as [[end_ [e|]] s2| |] eqn:Hle; try discriminate.
  destruct end_.
  - intros [= <- <-]. simpl. split; [reflexivity|]. split; [reflexivity|].
    split; [reflexivity|]. exists s1, true, s2. auto.
  - destruct (unread s2) as [e s3| |] eqn:Hu; try discriminate.
    destruct (readParams s3) as [[ps [e'|]] s4| |] eqn:Hrp; try discriminate.
    intros [= <- <-]. simpl. split; [reflexivity|]. split; [reflexivity|].
    split; [reflexivity|]. exists s1, false, s2. eauto 10.
Qed.

Lemma next_stages s m s' :
  next s = Ret (m, None) s' ->
  exists it rest msg1 ch1 s2 msg2,
    pending (src s) = it :: rest
    /\ read (set_currentMsgSize 0 (set_rawBuf [] s)) = Ret (it.1, None) (firstRead s)
    /\ next_tags zeroMessage it.1 (firstRead s) = Ret (inl (msg1, ch1)) s2
    /\ next_prefix msg1 ch1 s2 = Ret (inl msg2) (commandStart s)
    /\ next_command msg2 (commandStart s) = Ret (m, None) s'.
Proof.
  unfold commandStart, firstRead, readStep, stateAfter.
  unfold next, mbind at 1 2 3, M_bind at 1 2 3, modify.
  destruct (pending (src s)) as [|it rest] eqn:Hp.
  { rewrite read_at_end by exact Hp. discriminate. }
  destruct (Z.gtb_spec (0 + it.2) maxMessageSize) as [Hgt|Hle].
  { rewrite (read_over_budget _ it rest) by (simpl; auto; lia). discriminate. }
  rewrite (read_within_budget _ it rest) by (simpl; auto; lia).
  cbv beta iota. unfold mbind, M_bind.
  destruct (next_tags _ _ _) as [[[msg1 ch1]|e] s2| |] eqn:Ht; try discriminate.
  destruct (next_prefix _ _ _) as [[msg2|e] s3| |] eqn:Hpf; try discriminate.
  intros Hc. exists it, rest, msg1, ch1, s2, msg2. auto 10.
Qed.

Lemma next_segments s m s' :
  next s = Ret (m, None) s' ->
  exists k c body,
    pending (src s) = k ++ pending (src (segmentStart s))
    /\ pending (src (segmentStart s)) = c ++ pending (src s')
    /\ Raw m = (k ++ c).*1 /\ Raw m = body ++ CRLF
    /\ sizeOf k <= maxMessageSize /\ sizeOf c <= maxMessageSize
    /\ currentMsgSize s' = sizeOf c.
Proof.
  intros H.
  destruct (next_stages _ _ _ H)
    as (it & rest & msg1 & ch1 & s2 & msg2 & Hp & Hrd & Ht & Hpf & Hc).
  pose proof (wp_elim _ _ _ _ _
                (read_first (set_currentMsgSize 0 (set_rawBuf [] s)) eq_refl eq_refl) Hrd)
    as (_ & _ & _ & H1).
  simpl in H1. rewrite Hp in H1. destruct H1 as (HI1 & Hl1 & _).
  unfold segmentStart, startsWithAt. rewrite Hp.
  destruct (Z.eqb_spec it.1 runeAt) as [Hat|Hat].
  - rewrite Hat in Ht.
    destruct (next_tags_stages _ _ _ _ _ Ht) as (tags & sT & Hrt & Hrd2 & _).
    assert (HsT : tagsRead s = sT).
    { unfold tagsRead, stateAfter. rewrite Hrt. reflexivity. }
    rewrite HsT.
    destruct (wp_elim _ _ _ _ _ (readTags_wp _ _ _ _ _ _ _ HI1) Hrt)
      as (cT & HIT & HszT & HlT). simpl in HszT, HlT.
    pose proof (Inv_checkpoint _ _ _ _ _ _ HIT HlT) as HI0.
    destruct (wp_elim _ _ _ _ _ (read_cases _ _ _ _ _ _ _ HI0) Hrd2)
      as (_ & _ & [(e & [= _ ?] & _)|(it2 & _ & _ & HI2 & _ & _)]).
    destruct (wp_elim _ _ _ _ _ (next_prefix_wp _ _ _ _ msg1 ch1 _ _ _ HI2) Hpf)
      as (_ & _ & _ & c3 & HI3).
    destruct (wp_elim _ _ _ _ _ (next_command_wp _ _ _ _ msg2 _ _ _ HI3) Hc)
      as (_ & _ & c4 & HI4 & Hok).
    destruct (Hok eq_refl) as ((Hsz4 & body & Hbody) & Hraw & _). simpl in Hraw.
    destruct HIT as (HinT & _).
    destruct HI4 as (Hin4 & Hraw4 & Hcs4 & _).
    simpl in HinT.
    exists cT, c4, body.
    split; [exact HinT|].
    split; [rewrite HinT in Hin4; apply app_inv_head in Hin4; exact Hin4|].
    rewrite Hraw. auto 10.
  - assert (Hs2 : msg1 = zeroMessage /\ ch1 = it.1 /\ s2 = firstRead s).
    { unfold next_tags in Ht. destruct (Z.eqb_spec it.1 runeAt) as [|_]; [contradiction|].
      injection Ht as <- <- <-. auto. }
    destruct Hs2 as (-> & -> & ->).
    destruct (wp_elim _ _ _ _ _ (next_prefix_wp _ _ _ _ zeroMessage it.1 _ _ _ HI1) Hpf)
      as (_ & _ & _ & c3 & HI3).
    destruct (wp_elim _ _ _ _ _ (next_command_wp _ _ _ _ msg2 _ _ _ HI3) Hc)
      as (_ & _ & c4 & HI4 & Hok).
    destruct (Hok eq_refl) as ((Hsz4 & body & Hbody) & Hraw & _). simpl in Hraw.
    destruct HI4 as (Hin4 & Hraw4 & Hcs4 & _).
    simpl in Hin4.
    exists [], c4, body.
    split; [rewrite Hp; reflexivity|]. split; [rewrite Hp; exact Hin4|].
    rewrite Hraw. unfold maxMessageSize in *. simpl. auto 10 with lia.
Qed.

Lemma next_command_stage s m s' :
  next s = Ret (m, None) s' ->
  readCommand (commandStart s) = Ret (Command m, None) (commandEnd s)
  /\ (Command m = [] <-> atSeparator (commandStart s))
  /\ (exists pre, pending (src s) = pre ++ pending (src (commandStart s)))
  /\ (forall it rest, pending (src s) = it :: rest ->
        it.1 <> runeAt -> it.1 <> runeColon ->
        pending (src (commandStart s)) = pending (src s)).
Proof.
  intros H.
  destruct (next_stages _ _ _ H)
    as (it & rest & msg1 & ch1 & s2 & msg2 & Hp & Hrd & Ht & Hpf & Hc).
  pose proof (wp_elim _ _ _ _ _
                (read_first (set_currentMsgSize 0 (set_rawBuf [] s)) eq_refl eq_refl) Hrd)
    as (_ & _ & _ & H1).
  simpl in H1. rewrite Hp in H1. destruct H1 as (HI1 & Hl1 & _).
  destruct (wp_elim _ _ _ _ _ (next_tags_wp _ _ _ _ zeroMessage it.1 _ _ HI1) Ht)
    as (Hsame & _ & _ & k & c2 & HI2 & _).
  destruct (wp_elim _ _ _ _ _ (next_prefix_wp _ _ _ _ msg1 ch1 _ _ _ HI2) Hpf)
    as (_ & _ & Hback & c3 & HI3).
  destruct (wp_elim _ _ _ _ _ (next_command_wp _ _ _ _ msg2 _ _ _ HI3) Hc)
    as (_ & _ & c4 & HI4 & Hok).
  destruct (Hok eq_refl) as (_ & _ & (s4 & Hrc) & Hsep & _). simpl in Hrc, Hsep.
  split; [unfold commandEnd, stateAfter; rewrite Hrc; reflexivity|].
  split; [exact Hsep|].
  split.
  - exists (k ++ c3). destruct HI3 as (Hin & _). rewrite Hp, <- app_assoc. exact Hin.
  - intros it' rest' Hp' Hat Hcolon. rewrite Hp in Hp'. injection Hp' as <- <-.
    destruct (Hsame Hat) as ([= -> ->] & ->).
    rewrite (Hback Hcolon it Hl1), Hp. f_equal.
    destruct HI1 as (Hin & _). simpl in Hin. injection Hin as <-. reflexivity.
Qed.

Lemma next_params_stage s m s' :
  next s = Ret (m, None) s' ->
  exists end_ s5,
    isLineEnd (commandEnd s) = Ret (end_, None) s5
    /\ if (end_ : bool) then Params m = [] /\ s' = s5
       else readParams (paramsStart s) = Ret (Params m, None) s'
            /\ Params m = Params_spec (buf s').
Proof.
  intros H.
  destruct (next_stages _ _ _ H)
    as (it & rest & msg1 & ch1 & s2 & msg2 & Hp & Hrd & Ht & Hpf & Hc).
  destruct (next_tags_inv _ _ _ _ _ _ Ht) as (_ & Hps1 & _).
  destruct (next_prefix_inv _ _ _ _ _ Hpf) as (_ & Hps2 & _).
  destruct (next_command_stages _ _ _ _ Hc)
    as (_ & _ & _ & s4 & end_ & s5 & Hrc & Hle & Hrest).
  assert (Hs4 : commandEnd s = s4).
  { unfold commandEnd, stateAfter. rewrite Hrc. reflexivity. }
  exists end_, s5. rewrite Hs4. split; [exact Hle|].
  destruct end_.
  - destruct Hrest as (-> & ->). rewrite Hps2, Hps1. auto.
  - destruct Hrest as (e & s6 & Hu & Hrp).
    assert (Hs6 : paramsStart s = s6).
    { unfold paramsStart, stateAfter. rewrite Hs4, Hle, Hu. reflexivity. }
    rewrite Hs6. split; [exact Hrp|]. apply (readParams_result _ _ _ Hrp).
Qed.

(** ** [ParsePrefix] *)

Lemma ParsePrefix_start s :
  startsName s ->
  ParsePrefix s = Some
    match cutAt runeBang s with
    | Some (nickname, rest) =>
        match cutAt runeAt rest with
        | Some (user, host) => Parsed.mkPrefix s false nickname user host
        | None => Parsed.mkPrefix s false nickname rest []
        end
    | None =>
        match cutAt runeAt s with
        | Some (nickname, host) => Parsed.mkPrefix s false nickname [] host
        | None =>
            if Contains s runeDot then Parsed.mkPrefix s true [] [] s
            else Parsed.mkPrefix s false s [] []
        end
    end.
Proof.
  intros Hs. rewrite ParsePrefix_refines. unfold ParsePrefix_spec.
  destruct s as [|c s]; [contradiction|]. destruct Hs as [Hb Ha].
  destruct (Z.eqb_spec c runeBang); [contradiction|].
  destruct (Z.eqb_spec c runeAt); [contradiction|]. reflexivity.
Qed.

Lemma ParsePrefix_Some s p : ParsePrefix s = Some p -> startsName s.
Proof.
  destruct s as [|c s]; [discriminate|]. simpl.
  destruct (Z.eqb_spec c runeBang); [discriminate|].
  destruct (Z.eqb_spec c runeAt); [discriminate|]. auto.
Qed.

Lemma startsName_app a b : startsName a -> startsName (a ++ b).
Proof. destruct a; [contradiction|]. auto. Qed.

Lemma Index_range s sep : -1 <= Index s sep < Z.of_nat (length s).
Proof.
  induction s as [|c s IH]; simpl length; [simpl; lia|]. simpl Index.
  destruct (c =? sep); [lia|].
  destruct (Z.ltb_spec (Index s sep) 0); lia.
Qed.

Lemma sliceChecked_from {A} (s : list A) lo :
  0 <= lo <= Z.of_nat (length s) ->
  sliceChecked s lo (Z.of_nat (length s)) = Some (sliceFrom s lo).
Proof.
  intros Hlo. unfold sliceChecked, slice, sliceFrom.
  destruct (Z.leb_spec 0 lo); [|lia].
  destruct (Z.leb_spec lo (Z.of_nat (length s))); [|lia].
  destruct (Z.leb_spec (Z.of_nat (length s)) (Z.of_nat (length s))); [|lia].
  simpl. f_equal. apply take_ge. rewrite length_drop. lia.
Qed.

Lemma sliceChecked_to {A} (s : list A) hi :
  0 <= hi <= Z.of_nat (length s) ->
  sliceChecked s 0 hi = Some (sliceTo s hi).
Proof.
  intros Hhi. unfold sliceChecked, slice, sliceTo.
  destruct (Z.leb_spec 0 0); [|lia].
  destruct (Z.leb_spec 0 hi); [|lia].
  destruct (Z.leb_spec hi (Z.of_nat (length s))); [|lia].
  simpl. rewrite Z.sub_0_r. reflexivity.
Qed.

Lemma sliceChecked_slice {A} (s : list A) lo hi :
  0 <= lo -> lo <= hi -> hi <= Z.of_nat (length s) ->
  sliceChecked s lo hi = Some (slice s lo hi).
Proof.
  intros H1 H2 H3. unfold sliceChecked.
  destruct (Z.leb_spec 0 lo); [|lia].
  destruct (Z.leb_spec lo hi); [|lia].
  destruct (Z.leb_spec hi (Z.of_nat (length s))); [|lia].
  reflexivity.
Qed.

(** ** Pushing back, and the earlier version *)

Lemma unread_lastRune s r s' : unread s = Ret r s' -> lastRune (src s') = None.
Proof.
  unfold unread, UnreadRune. destruct (lastRune (src s)) eqn:Hl; simpl.
  - destruct (rawBuf s); [discriminate|]. intros [= _ <-]. reflexivity.
  - intros [= _ <-]. exact Hl.
Qed.

Lemma isLineEnd_false_lastRune s s' :
  isLineEnd s = Ret (false, None) s' -> lastRune (src s') = None.
Proof.
  unfold isLineEnd, mbind, M_bind, mret, M_ret.
  destruct (read s) as [[ch [e|]] s1| |]; try discriminate.
  destruct (ch =? runeCR).
  - destruct (read s1) as [[ch2 [e|]] s2| |]; try discriminate.
    destruct (ch2 =? runeLF); [discriminate|].
    destruct (unread s2) as [? s3| |]; try discriminate.
    destruct (unread s3) as [? s4| |] eqn:Hu; try discriminate.
    intros [= <-]. apply (unread_lastRune _ _ _ Hu).
  - destruct (unread s1) as [? s2| |] eqn:Hu; try discriminate.
    intros [= <-]. apply (unread_lastRune _ _ _ Hu).
Qed.

Lemma readTrailingParam_loop_run body : forall fuel s cr rest,
  pending (src s) = body ++ cr :: rest ->
  Forall (fun it : rune * Z => it.1 <> runeCR /\ 0 <= it.2) body ->
  cr.1 = runeCR -> 0 <= cr.2 ->
  currentMsgSize s + sizeOf body + cr.2 <= maxMessageSize ->
  (length (pending (src s)) < fuel)%nat ->
  exists s1,
    advanced s (body ++ [cr]) s1
    /\ pending (src s1) = rest
    /\ buf s1 = buf s ++ body.*1
    /\ readTrailingParam_loop fuel s
       = ('(ch, _) ← read;
          if negb (ch =? runeLF) then mret (Some ErrMessageMalformed) else mret None) s1.
Proof.
  induction body as [|x body IH]; intros fuel s cr rest Hp Hall Hcr Hcr0 Hsz Hfuel;
    (destruct fuel as [|fuel]; [lia|]); simpl in Hp, Hsz;
    simpl readTrailingParam_loop; unfold mbind at 1, M_bind at 1.
  - rewrite (read_within_budget s cr rest Hp) by lia. rewrite Hcr. simpl.
    eexists. split; [|split; [|split]]; [| | |reflexivity]; simpl; auto.
    + unfold advanced. simpl. rewrite Hp, Hcr. repeat split; lia.
    + rewrite app_nil_r. reflexivity.
  - apply Forall_cons in Hall as [[Hx Hx0] Hall].
    assert (0 <= sizeOf body).
    { apply sizeOf_nonneg. eapply Forall_impl; [exact Hall|]. intros ? [_ ?]. assumption. }
    rewrite (read_within_budget s x _ Hp) by lia.
    destruct (Z.eqb_spec x.1 runeCR) as [|_]; [contradiction|].
    unfold buf_WriteRune, modify, mbind at 1, M_bind at 1. simpl.
    match goal with
    | |- context [readTrailingParam_loop fuel ?s1] =>
        destruct (IH fuel s1 cr rest) as (s' & Hadv & Hpend & Hbuf & Hrun);
          [reflexivity|exact Hall|exact Hcr|exact Hcr0|simpl; lia
          |simpl; rewrite Hp in Hfuel; simpl in Hfuel; lia|]
    end.
    exists s'. split; [eapply advanced_cons; [exact Hp|exact Hadv]|].
    split; [exact Hpend|]. split; [simpl in Hbuf; rewrite Hbuf, <- app_assoc; reflexivity|].
    exact Hrun.
Qed.

(** ** Scanners that agree on the cursor *)

Lemma sameCursor_weaken w a b : sameCursor w a b -> sameCursor false a b.
Proof.
  intros (H1 & H2 & H3 & H4 & _). unfold sameCursor. repeat split; auto. discriminate.
Qed.

Lemma sameRun_weaken {A} w (o1 o2 : outcome A) : sameRun w o1 o2 -> sameRun false o1 o2.
Proof.
  destruct o1, o2; simpl; auto. intros [? H]. split; [assumption|].
  apply (sameCursor_weaken _ _ _ H).
Qed.

Lemma sameRun_bind {A B} w w' (m : M A) (f : A -> M B) a b :
  sameRun w (m a) (m b) ->
  (forall x a' b', sameCursor w a' b' -> sameRun w' (f x a') (f x b')) ->
  sameRun w' ((m ≫= f) a) ((m ≫= f) b).
Proof.
  unfold mbind, M_bind. destruct (m a), (m b); simpl; try tauto.
  intros [-> H] Hf. apply Hf. exact H.
Qed.

Lemma sameRun_ret {A} w (x : A) a b : sameCursor w a b -> sameRun w (Ret x a) (Ret x b).
Proof. intros H. split; [reflexivity|exact H]. Qed.

Lemma read_agree w a b : sameCursor w a b -> sameRun w (read a) (read b).
Proof.
  intros (H1 & H2 & H3 & H4 & H5). unfold read. rewrite H1.
  destruct (ReadRune (src b)) as [[[rn n] [e|]] r]; simpl.
  - unfold sameCursor. simpl. auto 10.
  - rewrite H2, H3. destruct (_ >? _); simpl; unfold sameCursor; simpl; auto 10.
Qed.

Lemma unread_agree w a b : sameCursor w a b -> sameRun w (unread a) (unread b).
Proof.
  intros (H1 & H2 & H3 & H4 & H5). unfold unread. rewrite H1.
  destruct (UnreadRune (src b)) as [[e|] r]; simpl.
  - unfold sameCursor. simpl. auto 10.
  - rewrite H2, H3, H4. destruct (rawBuf b); simpl; [exact I|].
    unfold sameCursor. simpl. auto 10.
Qed.

Lemma fuelOf_agree w a b : sameCursor w a b -> fuelOf a = fuelOf b.
Proof. intros (H1 & _). unfold fuelOf. rewrite H1. reflexivity. Qed.

Lemma buf_WriteRune_agree ch a b :
  sameCursor true a b -> sameRun true (buf_WriteRune ch a) (buf_WriteRune ch b).
Proof.
  intros (H1 & H2 & H3 & H4 & H5). unfold buf_WriteRune, modify. simpl.
  split; [reflexivity|]. unfold sameCursor. simpl. rewrite (H5 eq_refl). auto 10.
Qed.

Lemma buf_Reset_agree w a b : sameCursor w a b -> sameRun true (buf_Reset a) (buf_Reset b).
Proof.
  intros (H1 & H2 & H3 & H4 & H5). unfold buf_Reset, modify. simpl.
  split; [reflexivity|]. unfold sameCursor. simpl. auto 10.
Qed.

Lemma skipSpace_loop_agree w fuel : forall a b,
  sameCursor w a b -> sameRun w (skipSpace_loop fuel a) (skipSpace_loop fuel b).
Proof.
  induction fuel as [|fuel IH]; intros a b H; simpl; [exact I|].
  eapply sameRun_bind; [apply read_agree; exact H|]. intros [ch e] a' b' H'.
  destruct (negb (ch =? runeSpace)); [|apply IH; exact H'].
  eapply sameRun_bind; [apply unread_agree; exact H'|]. intros _ a2 b2 H2.
  apply sameRun_ret. exact H2.
Qed.

Lemma skipSpace_agree w a b : sameCursor w a b -> sameRun w (skipSpace a) (skipSpace b).
Proof.
  intros H. unfold skipSpace, mbind, M_bind, gets. rewrite (fuelOf_agree _ _ _ H).
  apply skipSpace_loop_agree. exact H.
Qed.

Ltac sameRun_error e :=
  destruct (error_eqb e EOF); apply sameRun_ret; assumption.

Lemma readTags_loop_agree fuel : forall a b,
  sameCursor true a b -> sameRun true (readTags_loop fuel a) (readTags_loop fuel b).
Proof.
  induction fuel as [|fuel IH]; intros a b H; simpl; [exact I|].
  eapply sameRun_bind; [apply read_agree; exact H|]. intros [ch [e|]] a' b' H'; [sameRun_error e|].
  destruct (ch =? runeSpace); [apply sameRun_ret; exact H'|].
  unfold mbind at 1 3, M_bind at 1 3, gets.
  destruct H' as (H1 & H2 & H3 & H4 & H5) eqn:HH. rewrite (H5 eq_refl).
  destruct (_ >=? _); [apply sameRun_ret; exact H'|].
  eapply sameRun_bind; [apply buf_WriteRune_agree; exact H'|]. intros _ a2 b2 H2'.
  apply IH. exact H2'.
Qed.

Lemma readPrefix_loop_agree fuel : forall a b,
  sameCursor true a b -> sameRun true (readPrefix_loop fuel a) (readPrefix_loop fuel b).
Proof.
  induction fuel as [|fuel IH]; intros a b H; simpl; [exact I|].
  eapply sameRun_bind; [apply read_agree; exact H|]. intros [ch [e|]] a' b' H'; [sameRun_error e|].
  destruct (ch =? runeSpace); [apply sameRun_ret; exact H'|].
  eapply sameRun_bind; [apply buf_WriteRune_agree; exact H'|]. intros _ a2 b2 H2'.
  apply IH. exact H2'.
Qed.

Lemma readCommand_loop_agree fuel : forall a b,
  sameCursor true a b -> sameRun true (readCommand_loop fuel a) (readCommand_loop fuel b).
Proof.
  induction fuel as [|fuel IH]; intros a b H; simpl; [exact I|].
  eapply sameRun_bind; [apply read_agree; exact H|]. intros [ch [e|]] a' b' H'; [sameRun_error e|].
  destruct (ch =? runeSpace); [apply sameRun_ret; exact H'|].
  destruct (ch =? runeCR).
  - eapply sameRun_bind; [apply unread_agree; exact H'|]. intros _ a2 b2 H2'.
    apply sameRun_ret. exact H2'.
  - eapply sameRun_bind; [apply buf_WriteRune_agree; exact H'|]. intros _ a2 b2 H2'.
    apply IH. exact H2'.
Qed.

Lemma isLineEnd_agree w a b : sameCursor w a b -> sameRun w (isLineEnd a) (isLineEnd b).
Proof.
  intros H. unfold isLineEnd.
  eapply sameRun_bind; [apply read_agree; exact H|].
  intros [ch [e|]] a' b' H'; [apply sameRun_ret; exact H'|].
  destruct (ch =? runeCR).
  - eapply sameRun_bind; [apply read_agree; exact H'|].
    intros [ch2 [e|]] a2 b2 H2; [apply sameRun_ret; exact H2|].
    destruct (ch2 =? runeLF); [apply sameRun_ret; exact H2|].
    eapply sameRun_bind; [apply unread_agree; exact H2|]. intros _ a3 b3 H3.
    eapply sameRun_bind; [apply unread_agree; exact H3|]. intros _ a4 b4 H4.
    apply sameRun_ret. exact H4.
  - eapply sameRun_bind; [apply unread_agree; exact H'|]. intros _ a3 b3 H3.
    apply sameRun_ret. exact H3.
Qed.

Lemma readParams_loop_agree fuel : forall a b,
  sameCursor true a b -> sameRun true (readParams_loop fuel a) (readParams_loop fuel b).
Proof.
  induction fuel as [|fuel IH]; intros a b H; simpl; [exact I|].
  eapply sameRun_bind; [apply isLineEnd_agree; exact H|]. intros [end_ e0] a1 b1 H1.
  destruct end_; [apply sameRun_ret; exact H1|].
  eapply sameRun_bind; [apply read_agree; exact H1|]. intros [ch [e|]] a' b' H'; [sameRun_error e|].
  eapply sameRun_bind; [apply buf_WriteRune_agree; exact H'|]. intros _ a2 b2 H2'.
  apply IH. exact H2'.
Qed.

Lemma gets_buf_agree {B} (f : gostring -> M B) a b :
  sameCursor true a b ->
  (forall x a' b', sameCursor true a' b' -> sameRun true (f x a') (f x b')) ->
  sameRun true ((gets buf ≫= f) a) ((gets buf ≫= f) b).
Proof.
  intros H Hf. unfold mbind, M_bind, gets.
  destruct H as (H1 & H2 & H3 & H4 & H5) eqn:HH. rewrite (H5 eq_refl).
  apply Hf. exact H.
Qed.

Lemma gets_fuelOf_agree {B} w w' (f : nat -> M B) a b :
  sameCursor w a b ->
  (forall x a' b', sameCursor w a' b' -> sameRun w' (f x a') (f x b')) ->
  sameRun w' ((gets fuelOf ≫= f) a) ((gets fuelOf ≫= f) b).
Proof.
  intros H Hf. unfold mbind, M_bind, gets. rewrite (fuelOf_agree _ _ _ H).
  apply Hf. exact H.
Qed.

Lemma readTags_agree w a b : sameCursor w a b -> sameRun true (readTags a) (readTags b).
Proof.
  intros H. unfold readTags.
  eapply sameRun_bind; [apply (buf_Reset_agree w); exact H|]. intros _ a1 b1 H1.
  apply (gets_fuelOf_agree true); [exact H1|]. intros fuel a2 b2 H2.
  eapply sameRun_bind; [apply readTags_loop_agree; exact H2|]. intros [e|] a3 b3 H3.
  { apply sameRun_ret. exact H3. }
  apply gets_buf_agree; [exact H3|]. intros text a4 b4 H4.
  destruct (if negb (Contains text runeSemicolon) then _ else _) as [tagMap|].
  - eapply sameRun_bind; [apply skipSpace_agree; exact H4|]. intros _ a5 b5 H5.
    apply sameRun_ret. exact H5.
  - apply sameRun_ret. exact H4.
Qed.

Lemma readPrefix_agree w a b : sameCursor w a b -> sameRun true (readPrefix a) (readPrefix b).
Proof.
  intros H. unfold readPrefix.
  eapply sameRun_bind; [apply (buf_Reset_agree w); exact H|]. intros _ a1 b1 H1.
  apply (gets_fuelOf_agree true); [exact H1|]. intros fuel a2 b2 H2.
  eapply sameRun_bind; [apply readPrefix_loop_agree; exact H2|]. intros [e|] a3 b3 H3.
  { apply sameRun_ret. exact H3. }
  apply gets_buf_agree; [exact H3|]. intros text a4 b4 H4.
  eapply sameRun_bind; [apply skipSpace_agree; exact H4|]. intros _ a5 b5 H5.
  apply sameRun_ret. exact H5.
Qed.

Lemma readCommand_agree w a b : sameCursor w a b -> sameRun true (readCommand a) (readCommand b).
Proof.
  intros H. unfold readCommand.
  eapply sameRun_bind; [apply (buf_Reset_agree w); exact H|]. intros _ a1 b1 H1.
  apply (gets_fuelOf_agree true); [exact H1|]. intros fuel a2 b2 H2.
  eapply sameRun_bind; [apply readCommand_loop_agree; exact H2|]. intros [e|] a3 b3 H3.
  { apply sameRun_ret. exact H3. }
  eapply sameRun_bind; [apply skipSpace_agree; exact H3|]. intros _ a4 b4 H4.
  apply gets_buf_agree; [exact H4|]. intros text a5 b5 H5.
  apply sameRun_ret. exact H5.
Qed.

Lemma readParams_agree w a b : sameCursor w a b -> sameRun true (readParams a) (readParams b).
Proof.
  intros H. unfold readParams.
  eapply sameRun_bind; [apply (buf_Reset_agree w); exact H|]. intros _ a1 b1 H1.
  apply (gets_fuelOf_agree true); [exact H1|]. intros fuel a2 b2 H2.
  eapply sameRun_bind; [apply readParams_loop_agree; exact H2|]. intros [e|] a3 b3 H3.
  { apply sameRun_ret. exact H3. }
  apply gets_buf_agree; [exact H3|]. intros text a4 b4 H4.
  apply sameRun_ret. exact H4.
Qed.

Lemma gets_rawBuf_agree {B} w (f : gostring -> M B) a b :
  sameCursor w a b ->
  (forall x a' b', sameCursor w a' b' -> sameRun w (f x a') (f x b')) ->
  sameRun w ((gets rawBuf ≫= f) a) ((gets rawBuf ≫= f) b).
Proof.
  intros H Hf. unfold mbind, M_bind, gets.
  destruct H as (H1 & H2 & H3 & H4 & H5) eqn:HH. rewrite H2.
  apply Hf. exact H.
Qed.

Lemma next_command_agree w msg a b :
  sameCursor w a b -> sameRun true (next_command msg a) (next_command msg b).
Proof.
  intros H. unfold next_command.
  eapply sameRun_bind; [apply (readCommand_agree w); exact H|].
  intros [c [e|]] a1 b1 H1; [apply sameRun_ret; exact H1|].
  eapply sameRun_bind; [apply isLineEnd_agree; exact H1|].
  intros [end_ [e|]] a2 b2 H2; [apply sameRun_ret; exact H2|].
  destruct end_.
  - apply gets_rawBuf_agree; [exact H2|]. intros raw a3 b3 H3. apply sameRun_ret. exact H3.
  - eapply sameRun_bind; [apply unread_agree; exact H2|]. intros _ a3 b3 H3.
    eapply sameRun_bind; [apply (readParams_agree true); exact H3|].
    intros [ps [e|]] a4 b4 H4; [apply sameRun_ret; exact H4|].
    apply gets_rawBuf_agree; [exact H4|]. intros raw a5 b5 H5. apply sameRun_ret. exact H5.
Qed.

Lemma next_prefix_agree w msg ch a b :
  sameCursor w a b -> sameRun false (next_prefix msg ch a) (next_prefix msg ch b).
Proof.
  intros H. unfold next_prefix. destruct (ch =? runeColon).
  - apply (sameRun_weaken true).
    eapply sameRun_bind; [apply (readPrefix_agree w); exact H|].
    intros [p [e|]] a1 b1 H1; apply sameRun_ret; exact H1.
  - apply (sameRun_weaken w).
    eapply sameRun_bind; [apply unread_agree; exact H|]. intros _ a1 b1 H1.
    apply sameRun_ret. exact H1.
Qed.

Lemma next_tags_agree w msg ch a b :
  sameCursor w a b -> sameRun false (next_tags msg ch a) (next_tags msg ch b).
Proof.
  intros H. unfold next_tags. destruct (ch =? runeAt).
  - apply (sameRun_weaken true).
    eapply sameRun_bind; [apply (readTags_agree w); exact H|].
    intros [t [e|]] a1 b1 H1; [apply sameRun_ret; exact H1|].
    eapply (sameRun_bind true).
    { unfold modify. split; [reflexivity|].
      destruct H1 as (? & ? & ? & ? & ?). unfold sameCursor. simpl. auto 10. }
    intros _ a2 b2 H2.
    eapply sameRun_bind; [apply read_agree; exact H2|].
    intros [c [e|]] a3 b3 H3; [sameRun_error e|]. apply sameRun_ret. exact H3.
  - apply (sameRun_weaken w). apply sameRun_ret. exact H.
Qed.

(** * Side conditions on concrete inputs *)

(** Decidable side conditions, by evaluation. *)
Ltac by_decide :=
  match goal with |- ?P => apply (bool_decide_unpack P) end; vm_compute; exact I.

(** A concrete list of tags is plain. *)
Ltac plain_tags :=
  repeat (apply Forall_cons; split;
          [unfold plainTag; cbn [fst snd];
           repeat (split; [vm_compute; reflexivity|]);
           first [exact I | vm_compute; reflexivity]|]);
  apply List.Forall_nil.

(** * C1: parameters *)

(** C1.  A successful [readParams] returns the parameters obtained from the
    accumulated parameter text by splitting it on single spaces and walking
    the tokens as the specification says ([Params_spec]); on a line whose
    parameter area holds no carriage return and fits the size budget, that
    text is the whole area up to the terminator.  The parameters of a
    message returned by [next] are fixed by the run: [next] tests for the
    end of the line in the state the command reader has left; when the test
    answers true, the parameter area is empty and the message has no
    parameters; when it answers false, the parameters are the ones
    [readParams] returns from the state [next] calls it in, that is the ones
    so obtained from the text it has accumulated.  They are fixed by the
    input as well: on a well-formed line (an optional tag block, an optional
    prefix, a command, optionally a space and a parameter text without
    carriage return, the terminator; the blocks within their budgets) the
    message returned has the parameters the specification reads off the
    parameter text of the line, and none when the line has no parameter
    text.  The text after the marker of a trailing parameter is kept as it
    is, runs of spaces included; and the two lines of the claim give the
    parameters it states. *)
Theorem readParams_walks_tokens :
  (forall s ps s', readParams s = Ret (ps, None) s' -> ps = Params_spec (buf s'))
  /\ (forall s body cr lf rest,
        pending (src s) = body ++ cr :: lf :: rest ->
        Forall (fun it : rune * Z => it.1 <> runeCR /\ 0 <= it.2) body ->
        cr.1 = runeCR -> lf.1 = runeLF -> 0 <= cr.2 -> 0 <= lf.2 ->
        currentMsgSize s + sizeOf body + cr.2 + lf.2 <= maxMessageSize ->
        exists s', readParams s = Ret (Params_spec (body.*1), None) s'
                   /\ pending (src s') = rest)
  /\ (forall s m s', next s = Ret (m, None) s' ->
        exists end_ s5,
          isLineEnd (commandEnd s) = Ret (end_, None) s5
          /\ if (end_ : bool) then Params m = [] /\ s' = s5
             else readParams (paramsStart s) = Ret (Params m, None) s'
                  /\ Params m = Params_spec (buf s'))
  /\ (forall s l rest,
        wellFormed l ->
        pending (src s) = encode (wire l) ++ rest ->
        exists m s',
          next s = Ret (m, None) s'
          /\ Params m = match lineParams l with
                        | Some b => Params_spec b
                        | None => []
                        end)
  /\ (forall t, Params_spec (runeColon :: t) = [t])
  /\ Params <$> scanned (str "FOO   bar    baz" ++ CRLF) = Some [str "bar"; str "baz"]
  /\ (fun m => last (Params m))
       <$> scanned (str "PRIVMSG foo :A string  with spaces   " ++ CRLF)
     = Some (Some (str "A string  with spaces   ")).
Proof.
  split; [exact readParams_result|]. split; [exact readParams_of_line|].
  split; [exact next_params_stage|].
  split.
  { intros s l rest Hwf Hp. destruct (next_run s l rest Hwf Hp) as (s' & Hn & _).
    exists (parsed l), s'. split; [exact Hn|reflexivity]. }
  split; [exact Params_spec_trailing|].
  split; vm_compute; reflexivity.
Qed.

(** C1 on concrete inputs, through the general statements: [readParams] on a
    parameter area, and [next] on a line with tags, a prefix, two middle
    parameters and a trailing one, and on a line without parameters. *)
Lemma readParams_walks_tokens_witness :
  (exists s',
     readParams (NewScanner (NewReader (str "bar    baz :x  y" ++ CRLF ++ str "NEXT")))
       = Ret ([str "bar"; str "baz"; str "x  y"], None) s'
     /\ pending (src s') = pending (NewReader (str "NEXT")))
  /\ (exists m s',
        next (NewScanner (NewReader
                (str "@a=1;b :nick PRIVMSG #chan x  :hello  there" ++ CRLF ++ str "NEXT")))
          = Ret (m, None) s'
        /\ Params m = [str "#chan"; str "x"; str "hello  there"]
        /\ readParams (paramsStart (NewScanner (NewReader
                (str "@a=1;b :nick PRIVMSG #chan x  :hello  there" ++ CRLF ++ str "NEXT"))))
           = Ret (Params m, None) s')
  /\ (exists m s',
        next (NewScanner (NewReader (str ":nick QUIT" ++ CRLF))) = Ret (m, None) s'
        /\ Params m = []).
Proof.
  split; [|split].
  - apply (proj1 (proj2 readParams_walks_tokens)
             (NewScanner (NewReader (str "bar    baz :x  y" ++ CRLF ++ str "NEXT")))
             (pending (NewReader (str "bar    baz :x  y")))
             (runeCR, 1) (runeLF, 1) (pending (NewReader (str "NEXT"))));
      try reflexivity; try (vm_compute; discriminate).
    apply Forall_forall. intros it Hit. apply list_elem_of_fmap in Hit as (r & -> & Hr).
    simpl. split; [|pose proof (RuneLen_pos r); lia].
    intros ->. vm_compute in Hr. repeat (apply elem_of_cons in Hr as [Hr|Hr]; [discriminate|]).
    apply elem_of_nil in Hr. exact Hr.
  - destruct (proj1 (proj2 (proj2 (proj2 readParams_walks_tokens)))
                (NewScanner (NewReader
                   (str "@a=1;b :nick PRIVMSG #chan x  :hello  there" ++ CRLF ++ str "NEXT")))
                (mkLine (Some ([(str "a", Some (str "1")); (str "b", None)], 0%nat))
                   (Some (str "nick", 0%nat)) (str "PRIVMSG")
                   (Some (str "#chan x  :hello  there")))
                (encode (str "NEXT")))
      as (m & s' & Hn & Hps).
    + unfold wellFormed. cbn [lineTags linePrefix lineCommand lineParams].
      split; [discriminate|]. split; [by_decide|].
      split; [split; [by_decide|split; [split; [plain_tags|discriminate]|by_decide]]|].
      split; [by_decide|]. split; by_decide.
    + reflexivity.
    + exists m, s'. split; [exact Hn|]. split; [rewrite Hps; vm_compute; reflexivity|].
      destruct (proj1 (proj2 (proj2 readParams_walks_tokens)) _ _ _ Hn)
        as (end_ & s5 & Hle & Hrest).
      assert (Hend : end_ = false).
      { destruct end_; [|reflexivity]. destruct Hrest as (Hnil & _).
        rewrite Hps in Hnil. vm_compute in Hnil. discriminate. }
      subst end_. exact (proj1 Hrest).
  - destruct (proj1 (proj2 (proj2 (proj2 readParams_walks_tokens)))
                (NewScanner (NewReader (str ":nick QUIT" ++ CRLF)))
                (mkLine None (Some (str "nick", 0%nat)) (str "QUIT") None) [])
      as (m & s' & Hn & Hps).
    + unfold wellFormed. cbn [lineTags linePrefix lineCommand lineParams].
      split; [discriminate|]. split; [by_decide|]. split; [exact I|].
      split; [by_decide|]. split; [exact I|by_decide].
    + reflexivity.
    + exists m, s'. split; [exact Hn|exact Hps].
Defined.

(** * C2: tags *)

(** C2.  The code at the inputs that separate it from the claim: a tag block
    with a single tag (no semicolon) is not decoded at all, so ["@a=b "]
    yields the empty map instead of [{"a":"b"}] and ["@a=b=c "] is accepted
    instead of aborting the scan; with a semicolon present the tokens are
    decoded as claimed (["@test=super;single "]) and a token with two [=]
    aborts the scan with [ErrMessageMalformed]. *)
Theorem readTags_ignores_single_tag :
  Tags <$> scanned (str "@a=b FOO" ++ CRLF) = Some (Some ∅)
  /\ Tags <$> scanned (str "@a=b=c FOO" ++ CRLF) = Some (Some ∅)
  /\ Tags <$> scanned (str "@test=super;single FOO" ++ CRLF)
     = Some (Some (<[str "single" := []]> (<[str "test" := str "super"]> ∅)))
  /\ scanError (str "@a=b=c;d FOO" ++ CRLF) = Some ErrMessageMalformed.
Proof.
  repeat split; vm_compute; reflexivity.
Qed.

(** * C3: prefixes *)

Lemma cutAt_Some_iff sep s before after :
  cutAt sep s = Some (before, after) <->
  s = before ++ sep :: after /\ Contains before sep = false.
Proof.
  revert before after. induction s as [|c s IH]; intros a b; simpl.
  - split; [discriminate|]. intros [H _]. destruct a; discriminate.
  - destruct (Z.eqb_spec c sep) as [->|Hne].
    + split.
      * intros [= <- <-]. auto.
      * intros [H Hc]. destruct a as [|x a]; simpl in *.
        -- injection H as ->. reflexivity.
        -- injection H as <- _. rewrite Z.eqb_refl in Hc. discriminate.
    + destruct (cutAt sep s) as [[a' b']|] eqn:Hcut.
      * destruct (IH a' b') as [IH1 _]. destruct (IH1 eq_refl) as [-> Hc']. split.
        -- intros [= <- <-]. simpl. split; [reflexivity|].
           destruct (Z.eqb_spec c sep); [contradiction|exact Hc'].
        -- intros [H Hc]. destruct a as [|x a]; simpl in *;
             [injection H as H _; contradiction|].
           injection H as <- H. apply orb_false_elim in Hc as [_ Hc].
           destruct (IH a b) as [_ IH2]. specialize (IH2 (conj H Hc)).
           injection IH2 as <- <-. reflexivity.
      * split; [discriminate|]. intros [H Hc].
        destruct a as [|x a]; simpl in *; [injection H as H _; contradiction|].
        injection H as <- H. apply orb_false_elim in Hc as [_ Hc].
        destruct (IH a b) as [_ IH2]. specialize (IH2 (conj H Hc)). discriminate.
Qed.

Lemma cutAt_None_iff sep s : cutAt sep s = None <-> Contains s sep = false.
Proof.
  induction s as [|c s IH]; simpl; [tauto|].
  destruct (c =? sep); simpl; [split; discriminate|].
  destruct (cutAt sep s) as [[a b]|].
  - split; [discriminate|]. intros H. apply IH in H. discriminate.
  - split; [|reflexivity]. intros _. apply IH. reflexivity.
Qed.

(** C3.  [ParsePrefix] computes, for every input, the result the
    specification describes ([ParsePrefix_spec], whose [cutAt] is the text
    before and after the first occurrence of a character), and the rows of
    the claim's table hold. *)
Theorem ParsePrefix_matches_spec :
  (forall s, ParsePrefix s = ParsePrefix_spec s)
  /\ ParsePrefix (str "nick")
     = Some (Parsed.mkPrefix (str "nick") false (str "nick") [] [])
  /\ ParsePrefix (str "nick!user")
     = Some (Parsed.mkPrefix (str "nick!user") false (str "nick") (str "user") [])
  /\ ParsePrefix (str "se.rv.er")
     = Some (Parsed.mkPrefix (str "se.rv.er") true [] [] (str "se.rv.er"))
  /\ ParsePrefix (str "nick!user@host")
     = Some (Parsed.mkPrefix (str "nick!user@host") false
               (str "nick") (str "user") (str "host"))
  /\ ParsePrefix [] = None
  /\ ParsePrefix (str "@host") = None
  /\ ParsePrefix (str "!user@host") = None.
Proof.
  split; [exact ParsePrefix_refines|]. repeat split; vm_compute; reflexivity.
Qed.

(** * C4: the end of the input *)

(** A stream that is exhausted when a message is about to start ends the
    scan cleanly. *)
Lemma Scan_at_end_of_input s :
  pending (src s) = [] -> final (src s) = EOF -> err s = None ->
  exists s', Scan s = Ret false s' /\ Err s' = None.
Proof.
  intros Hp Hf He.
  unfold Scan, next, mbind, M_bind, gets, modify, read, ReadRune; simpl.
  rewrite He, Hp, Hf. simpl. eexists. split; reflexivity.
Qed.

(** C4.  The code at the inputs that separate it from the claim: a stream
    that ends right after a complete message ends the loop cleanly, and one
    that ends in the middle of the command fails with
    [io.ErrUnexpectedEOF], as claimed; but a stream that ends after the
    carriage return, or after the space that follows the command, makes
    [isLineEnd] return [io.EOF], which [next] passes on unchanged, so [Err]
    reports a clean end although no line terminator was seen. *)
Theorem Scan_end_of_input_cases :
  (fun r : list Message * option error => (map Command r.1, r.2))
    <$> scanAll (str "FOO" ++ CRLF)
    = Some ([str "FOO"], None)
  /\ scanAll (str "FOO") = Some ([], Some ErrUnexpectedEOF)
  /\ scanAll (str "FOO" ++ [runeCR]) = Some ([], None)
  /\ scanAll (str "FOO ") = Some ([], None)
  /\ scanError (str "FOO bar" ++ [runeCR]) = Some ErrUnexpectedEOF.
Proof.
  repeat split; vm_compute; reflexivity.
Qed.

(** * C5: the size budgets *)




(** * C6: the command *)

(** C6, as the claim states it, fails on the code: the bare line made of the
    terminator alone is returned without error and with an empty [Command];
    so is a line that starts with a space. *)
Lemma Command_can_be_empty :
  (fun m => (Command m, Params m, Raw m)) <$> scanned CRLF = Some ([], [], CRLF)
  /\ (fun m => (Command m, Params m)) <$> scanned (str " FOO" ++ CRLF)
     = Some ([], [str "FOO"]).
Proof.
  split; vm_compute; reflexivity.
Qed.

(** C6, amended.  The [Command] of a message returned by [next] is the token
    [readCommand] returns from the state [next] calls it in, after the first
    [read], the tag block and the prefix block; it is empty exactly when the
    next rune of the source in that state is a space or a carriage return.
    That state has the source somewhere further on in the line, and at the
    start of the line when the line starts with neither [@] nor [:].  So
    [Command] is non-empty whenever the command reader starts at any other
    rune; in particular, on a well-formed line, whose command is not empty,
    the [Command] returned is the command of the line. *)
Theorem Command_empty_iff_at_separator :
  (forall s m s',
     next s = Ret (m, None) s' ->
     readCommand (commandStart s) = Ret (Command m, None) (commandEnd s)
     /\ (Command m = [] <-> atSeparator (commandStart s))
     /\ (exists pre, pending (src s) = pre ++ pending (src (commandStart s)))
     /\ (forall it rest, pending (src s) = it :: rest ->
           it.1 <> runeAt -> it.1 <> runeColon ->
           pending (src (commandStart s)) = pending (src s)))
  /\ (forall s l rest,
        wellFormed l ->
        pending (src s) = encode (wire l) ++ rest ->
        exists m s',
          next s = Ret (m, None) s'
          /\ Command m = lineCommand l
          /\ lineCommand l <> []).
Proof.
  split; [exact next_command_stage|].
  intros s l rest Hwf Hp. destruct (next_run s l rest Hwf Hp) as (s' & Hn & _).
  exists (parsed l), s'. split; [exact Hn|]. split; [reflexivity|apply Hwf].
Qed.

(** C6 (amended) on concrete lines: a line with a tag block and a prefix,
    where the command reader starts at the command, and a line that starts
    with a space, where it starts at the space. *)
Lemma Command_empty_iff_at_separator_witness :
  (exists m s',
     next (NewScanner (NewReader (str "@a;b :nick  FOO bar" ++ CRLF))) = Ret (m, None) s'
     /\ pending (src (commandStart (NewScanner (NewReader (str "@a;b :nick  FOO bar" ++ CRLF)))))
        = encode (str "FOO bar" ++ CRLF)
     /\ readCommand (commandStart (NewScanner (NewReader (str "@a;b :nick  FOO bar" ++ CRLF))))
        = Ret (Command m, None)
            (commandEnd (NewScanner (NewReader (str "@a;b :nick  FOO bar" ++ CRLF))))
     /\ Command m = str "FOO")
  /\ (exists m s',
        next (NewScanner (NewReader (str " FOO" ++ CRLF))) = Ret (m, None) s'
        /\ pending (src (commandStart (NewScanner (NewReader (str " FOO" ++ CRLF)))))
           = encode (str " FOO" ++ CRLF)
        /\ atSeparator (commandStart (NewScanner (NewReader (str " FOO" ++ CRLF))))
        /\ Command m = []).
Proof.
  split.
  - destruct (proj2 Command_empty_iff_at_separator
                (NewScanner (NewReader (str "@a;b :nick  FOO bar" ++ CRLF)))
                (mkLine (Some ([(str "a", None); (str "b", None)], 0%nat))
                   (Some (str "nick", 1%nat)) (str "FOO") (Some (str "bar")))
                [])
      as (m & s' & Hn & Hcmd & _).
    + unfold wellFormed. cbn [lineTags linePrefix lineCommand lineParams].
      split; [discriminate|]. split; [by_decide|].
      split; [split; [by_decide|split; [split; [plain_tags|discriminate]|by_decide]]|].
      split; [by_decide|]. split; by_decide.
    + reflexivity.
    + exists m, s'. split; [exact Hn|]. split; [vm_compute; reflexivity|].
      split; [|exact Hcmd].
      apply (proj1 Command_empty_iff_at_separator _ _ _ Hn).
  - exists (messageAfter next (NewScanner (NewReader (str " FOO" ++ CRLF)))),
           (stateAfter next (NewScanner (NewReader (str " FOO" ++ CRLF)))).
    assert (Hn : next (NewScanner (NewReader (str " FOO" ++ CRLF)))
                 = Ret (messageAfter next (NewScanner (NewReader (str " FOO" ++ CRLF))), None)
                     (stateAfter next (NewScanner (NewReader (str " FOO" ++ CRLF)))))
      by (vm_compute; reflexivity).
    split; [exact Hn|].
    destruct (proj1 Command_empty_iff_at_separator _ _ _ Hn) as (_ & Hiff & _ & Hstart).
    split; [apply (Hstart (32, 1) (encode (str "FOO" ++ CRLF))); [reflexivity|discriminate..]|].
    split; [apply Hiff|]; vm_compute; reflexivity.
Defined.

(** * C7: the line-end detector *)

(** C7.  What the code does where the claim says that both characters are
    pushed back: when [isLineEnd] reads a carriage return followed by a rune
    [x] that is not a line feed (both within the size budget), it answers
    [false], but only [x] is pushed back; the second [unread] fails in
    [bufio] ([UnreadRune] right after an [UnreadRune]), the carriage return
    stays consumed (and stays in [rawBuf]), and the next [read] delivers [x].
    In a whole line, ["FOO a\rb"] is scanned with the single parameter
    ["ab"]. *)
Theorem isLineEnd_pushes_back_one_rune :
  (forall s cr x rest,
     pending (src s) = cr :: x :: rest ->
     cr.1 = runeCR -> x.1 <> runeLF ->
     currentMsgSize s + cr.2 <= maxMessageSize ->
     currentMsgSize s + cr.2 + x.2 <= maxMessageSize ->
     exists s',
       isLineEnd s = Ret (false, None) s'
       /\ pending (src s') = x :: rest
       /\ rawBuf s' = rawBuf s ++ [runeCR]
       /\ exists s'', read s' = Ret (x.1, None) s'')
  /\ Params <$> scanned (str "FOO a" ++ [runeCR] ++ str "b" ++ CRLF) = Some [str "ab"].
Proof.
  split; [|vm_compute; reflexivity].
  intros s cr x rest Hp Hcr Hlf Hsz1 Hsz2.
  unfold isLineEnd, mbind, M_bind.
  rewrite (read_within_budget s cr (x :: rest) Hp Hsz1).
  rewrite Hcr. simpl.
  erewrite read_within_budget; [|reflexivity|simpl; lia]. simpl.
  destruct (Z.eqb_spec x.1 runeLF) as [|_]; [contradiction|].
  erewrite unread_last; [|reflexivity|reflexivity]. simpl.
  eexists. split; [reflexivity|]. simpl. split; [reflexivity|]. split; [reflexivity|].
  erewrite read_within_budget; [|reflexivity|simpl; lia]. eauto.
Qed.

(** C7 on the concrete input: a carriage return followed by [b]. *)
Lemma isLineEnd_pushes_back_one_rune_witness :
  exists s',
    isLineEnd (NewScanner (NewReader ([runeCR] ++ str "b" ++ CRLF))) = Ret (false, None) s'
    /\ pending (src s') = pending (NewReader (str "b" ++ CRLF))
    /\ rawBuf s' = [runeCR]
    /\ exists s'', read s' = Ret (98, None) s''.
Proof.
  apply (proj1 isLineEnd_pushes_back_one_rune
           (NewScanner (NewReader ([runeCR] ++ str "b" ++ CRLF)))
           (runeCR, 1) (98, 1) (pending (NewReader CRLF)));
    [reflexivity | reflexivity | discriminate | vm_compute; discriminate
    | vm_compute; discriminate].
Defined.

(** * C8: the raw text *)

(** C8, as the claim states it, fails on a source that is not valid UTF-8.
    [ReadRune] delivers every byte that starts no valid encoding as U+FFFD
    with size 1: the size counter counts one unit for it, while [Raw], made
    from the runes read, holds the three-byte encoding of U+FFFD in its
    place.  A line of 512 bytes, 505 of them invalid, is returned with a
    [Raw] of 512 runes and 1522 bytes: [Raw] is not the text consumed, and
    the 1520 bytes before its terminator exceed the two budgets together. *)
Lemma Raw_recodes_undecodable_input :
  sizeOf (encode (str "FOO :") ++ repeat (65533, 1) 505 ++ encode CRLF) = 512
  /\ snd <$> resultOf
       (next (NewScanner
                (mkReader (encode (str "FOO :") ++ repeat (65533, 1) 505 ++ encode CRLF)
                   None EOF)))
     = Some None
  /\ pending (src (stateAfter next
       (NewScanner
          (mkReader (encode (str "FOO :") ++ repeat (65533, 1) 505 ++ encode CRLF)
             None EOF)))) = []
  /\ Z.of_nat (length (Raw (messageAfter next
       (NewScanner
          (mkReader (encode (str "FOO :") ++ repeat (65533, 1) 505 ++ encode CRLF)
             None EOF))))) = 512
  /\ byteLen (Raw (messageAfter next
       (NewScanner
          (mkReader (encode (str "FOO :") ++ repeat (65533, 1) 505 ++ encode CRLF)
             None EOF)))) = 1522.
Proof.
  repeat split; vm_compute; reflexivity.
Qed.

(** C8, amended.  The [Raw] field of a message returned by [next] is exactly
    the run of runes read from the source for that message, each as
    [ReadRune] has decoded it, and it ends with the carriage-return/line-feed
    pair.  The runes consumed up to the place where the last segment starts
    (after the tag block, if any) and those consumed from there on each have
    a size of at most 512, so that the text before the terminator is at most
    512 + 512 runes long (every rune has a size of at least one).  When the
    source is validly encoded (the size of every rune is the length of its
    encoding), and only then in general, [Raw] has as many bytes as were
    consumed and at most 512 + 512 of them before the terminator. *)
Theorem Raw_is_the_consumed_input s m s' :
  next s = Ret (m, None) s' ->
  exists k c body,
    pending (src s) = k ++ pending (src (segmentStart s))
    /\ pending (src (segmentStart s)) = c ++ pending (src s')
    /\ Raw m = (k ++ c).*1
    /\ Raw m = body ++ CRLF
    /\ sizeOf k <= maxMessageSize
    /\ sizeOf c <= maxMessageSize
    /\ (Forall (fun it : rune * Z => 1 <= it.2) (pending (src s)) ->
        Z.of_nat (length body) <= maxMessageSize + maxMessageSize)
    /\ (Forall (fun it : rune * Z => it.2 = RuneLen it.1) (pending (src s)) ->
        byteLen (Raw m) = sizeOf (k ++ c)
        /\ byteLen body <= maxMessageSize + maxMessageSize).
Proof.
  intros H.
  destruct (next_segments _ _ _ H) as (k & c & body & Hk & Hc & Hraw & Hbody & Hszk & Hszc & _).
  assert (Hin : pending (src s) = (k ++ c) ++ pending (src s')).
  { rewrite Hk, Hc, app_assoc. reflexivity. }
  exists k, c, body.
  do 6 (split; [assumption|]). split; intros Hall;
    rewrite Hin in Hall; apply Forall_app in Hall as [Hall _].
  - apply sizeOf_length in Hall. rewrite sizeOf_app in Hall.
    assert (Hlen : length (Raw m) = length (k ++ c)) by (rewrite Hraw; apply length_fmap).
    rewrite Hbody, length_app in Hlen. simpl in Hlen. lia.
  - apply byteLen_fst in Hall. rewrite <- Hraw in Hall. split; [exact Hall|].
    rewrite Hbody, byteLen_app, sizeOf_app in Hall. pose proof (byteLen_nonneg CRLF). lia.
Qed.

(** C8 (amended) on a concrete line with tags, prefix and parameters,
    followed by the start of another line. *)
Lemma Raw_is_the_consumed_input_witness :
  exists m s',
    next (NewScanner (NewReader (str "@t=1;u :nick FOO bar :baz qux" ++ CRLF ++ str "NEXT")))
      = Ret (m, None) s'
    /\ Raw m = str "@t=1;u :nick FOO bar :baz qux" ++ CRLF
    /\ pending (src s') = pending (NewReader (str "NEXT"))
    /\ exists k c body,
         pending (NewReader (str "@t=1;u :nick FOO bar :baz qux" ++ CRLF ++ str "NEXT"))
           = k ++ pending (src (segmentStart (NewScanner (NewReader
                  (str "@t=1;u :nick FOO bar :baz qux" ++ CRLF ++ str "NEXT")))))
         /\ pending (src (segmentStart (NewScanner (NewReader
                  (str "@t=1;u :nick FOO bar :baz qux" ++ CRLF ++ str "NEXT")))))
            = c ++ pending (src s')
         /\ Raw m = (k ++ c).*1
         /\ Raw m = body ++ CRLF
         /\ sizeOf k <= maxMessageSize
         /\ sizeOf c <= maxMessageSize
         /\ Z.of_nat (length body) <= maxMessageSize + maxMessageSize
         /\ byteLen (Raw m) = sizeOf (k ++ c)
         /\ byteLen body <= maxMessageSize + maxMessageSize.
Proof.
  eexists _, _. split; [vm_compute; reflexivity|]. split; [vm_compute; reflexivity|].
  split; [vm_compute; reflexivity|].
  destruct (Raw_is_the_consumed_input
              (NewScanner (NewReader (str "@t=1;u :nick FOO bar :baz qux" ++ CRLF ++ str "NEXT")))
              (messageAfter next
                 (NewScanner (NewReader (str "@t=1;u :nick FOO bar :baz qux" ++ CRLF ++ str "NEXT"))))
              (stateAfter next
                 (NewScanner (NewReader (str "@t=1;u :nick FOO bar :baz qux" ++ CRLF ++ str "NEXT")))))
    as (k & c & body & H1 & H2 & H3 & H4 & H5 & H6 & H7 & H8); [vm_compute; reflexivity|].
  exists k, c, body. do 6 (split; [assumption|]).
  split; [apply H7|apply H8]; apply Forall_forall; intros it Hit;
    apply list_elem_of_fmap in Hit as (r & -> & _); simpl;
    [apply RuneLen_pos | reflexivity].
Defined.

(** * C9 and C10: the scanner after a failure *)

Lemma Scan_false s s' :
  Scan s = Ret false s' ->
  (exists e, err s = Some e /\ s' = s)
  \/ (err s = None /\
      exists e s1, next s = Ret (zeroMessage, Some e) s1
                   /\ message s1 = message s /\ s' = set_err (Some e) s1).
Proof.
  unfold Scan, mbind, M_bind, gets, modify. destruct (err s) as [e|] eqn:He; simpl.
  - intros [= <-]. left. eauto.
  - destruct (next s) as [[m [e|]] s1| |] eqn:Hn; simpl; try discriminate.
    intros [= <-]. right. split; [reflexivity|].
    destruct (next_post _ _ _ _ Hn) as (Hm & _ & Hz & _).
    rewrite Hz by discriminate. eauto.
Qed.

(** C9.  When [Scan] answers [false] the scanner holds an error, the one the
    failed call of [next] returned if none was held before; from then on any
    number of further calls of [Scan] answer [false] and leave the scanner,
    its source included, exactly as it is: nothing is read and no message is
    delivered. *)
Theorem Scan_is_terminal_after_failure s s' :
  Scan s = Ret false s' ->
  (exists e, err s' = Some e
             /\ (err s = None -> exists m s1, next s = Ret (m, Some e) s1))
  /\ forall n, repeatScan n s' = Ret false s'.
Proof.
  intros H.
  assert (He : exists e, err s' = Some e
                 /\ (err s = None -> exists m s1, next s = Ret (m, Some e) s1)).
  { destruct (Scan_false _ _ H) as [(e & He & ->)|(He & e & s1 & Hn & _ & ->)].
    - exists e. split; [exact He|]. congruence.
    - exists e. split; [reflexivity|]. eauto. }
  split; [exact He|]. destruct He as (e & He & _).
  assert (Hs : Scan s' = Ret false s').
  { unfold Scan, mbind, M_bind, gets. rewrite He. reflexivity. }
  induction n as [|n IH]; simpl; [exact Hs|].
  unfold mbind, M_bind. rewrite Hs. exact IH.
Qed.

(** C9 on a concrete input that ends in the middle of a line. *)
Lemma Scan_is_terminal_after_failure_witness :
  exists s',
    Scan (NewScanner (NewReader (str "FOO bar"))) = Ret false s'
    /\ err s' = Some ErrUnexpectedEOF
    /\ forall n, repeatScan n s' = Ret false s'.
Proof.
  eexists. split; [vm_compute; reflexivity|]. split; [reflexivity|].
  apply (Scan_is_terminal_after_failure (NewScanner (NewReader (str "FOO bar")))).
  vm_compute; reflexivity.
Defined.

(** C10.  A call of [Scan] that answers [false] leaves the stored message
    unchanged, so [Message()] returns afterwards what it returned before;
    when the call failed in [next], [next] returned the zero [Message] with
    its error; and a scanner that never delivered a message holds the zero
    [Message]. *)
Theorem failed_Scan_keeps_the_message :
  (forall s s',
     Scan s = Ret false s' ->
     MessageOf s' = MessageOf s
     /\ (err s = None -> exists e s1, next s = Ret (zeroMessage, Some e) s1))
  /\ (forall r, MessageOf (NewScanner r) = zeroMessage).
Proof.
  split; [|reflexivity].
  intros s s' H. unfold MessageOf.
  destruct (Scan_false _ _ H) as [(e & He & ->)|(He & e & s1 & Hn & Hm & ->)].
  - split; [reflexivity|]. congruence.
  - split; [exact Hm|]. eauto.
Qed.

(** C10 on a concrete input: one message, then a line cut short. *)
Lemma failed_Scan_keeps_the_message_witness :
  exists s1 s2,
    Scan (NewScanner (NewReader (str "FOO bar" ++ CRLF ++ str "BAZ"))) = Ret true s1
    /\ Scan s1 = Ret false s2
    /\ Command (MessageOf s1) = str "FOO"
    /\ MessageOf s2 = MessageOf s1.
Proof.
  eexists _, _. split; [vm_compute; reflexivity|]. split; [vm_compute; reflexivity|].
  split; [reflexivity|].
  refine (proj1 (proj1 failed_Scan_keeps_the_message _ _ _)). vm_compute; reflexivity.
Defined.

(** * Further properties of the scanner *)

(** ** [read] and [unread] *)

(** X1.  A [read] that consumed a rune, whether it returned it or failed
    with [ErrMessageMalformed] because the budget was exceeded, is undone by
    the [unread] that follows: the rune is pending again, and the raw
    buffer, the size counter, the scratch buffer, the stored message and the
    stored error are what they were. *)
Theorem unread_undoes_read s it rest :
  pending (src s) = it :: rest ->
  exists r s1 s2,
    read s = Ret r s1
    /\ (r = (it.1, None) \/ r = (0, Some ErrMessageMalformed))
    /\ unread s1 = Ret None s2
    /\ pending (src s2) = pending (src s)
    /\ rawBuf s2 = rawBuf s
    /\ currentMsgSize s2 = currentMsgSize s
    /\ buf s2 = buf s /\ message s2 = message s /\ err s2 = err s.
Proof.
  intros Hp. destruct (read_then_unread s it rest Hp) as (s1 & Hr & Hu).
  eexists _, s1, _. split; [exact Hr|]. split.
  { destruct (_ >? _); auto. }
  split; [exact Hu|]. simpl. rewrite Hp. auto 10.
Qed.

Lemma unread_undoes_read_witness :
  exists r s1 s2,
    read (NewScanner (NewReader (str "AB"))) = Ret r s1
    /\ (r = (65, None) \/ r = (0, Some ErrMessageMalformed))
    /\ unread s1 = Ret None s2
    /\ pending (src s2) = pending (NewReader (str "AB"))
    /\ rawBuf s2 = []
    /\ currentMsgSize s2 = 0
    /\ buf s2 = [] /\ message s2 = zeroMessage /\ err s2 = None.
Proof.
  apply (unread_undoes_read (NewScanner (NewReader (str "AB"))) (65, 1)
           (pending (NewReader (str "B")))).
  reflexivity.
Defined.

(** X2.  [unread] goes back one rune only: right after an [unread], and
    right after a call of [isLineEnd] that answered [false] without error
    (it ends with an [unread]), a further [unread] fails with
    [bufio.ErrInvalidUnreadRune] and changes nothing.  The [s.unread()] that
    [next] makes after [isLineEnd] therefore never moves the cursor. *)
Theorem unread_goes_back_one_rune_only :
  (forall s r s1,
     unread s = Ret r s1 -> unread s1 = Ret (Some ErrInvalidUnreadRune) s1)
  /\ (forall s s1,
        isLineEnd s = Ret (false, None) s1 ->
        unread s1 = Ret (Some ErrInvalidUnreadRune) s1).
Proof.
  split.
  - intros s r s1 H. apply unread_twice. apply (unread_lastRune _ _ _ H).
  - intros s s1 H. apply unread_twice. apply (isLineEnd_false_lastRune _ _ H).
Qed.

Lemma unread_goes_back_one_rune_only_witness :
  unread (stateAfter isLineEnd (NewScanner (NewReader (str "AB"))))
  = Ret (Some ErrInvalidUnreadRune)
        (stateAfter isLineEnd (NewScanner (NewReader (str "AB")))).
Proof.
  apply (proj2 unread_goes_back_one_rune_only (NewScanner (NewReader (str "AB")))).
  vm_compute. reflexivity.
Defined.

(** ** The token readers *)

(** X3.  [skipSpace] consumes the leading spaces of the input and nothing
    else: with the spaces [sp] pending, all within the size budget, it ends
    with exactly [sp] consumed (they are added to the raw buffer and to the
    size counter) at the first place [rest] where the source is exhausted,
    or the next rune is not a space, or reading it would exceed the budget;
    the scratch buffer is not touched. *)
Theorem skipSpace_consumes_leading_spaces s sp rest :
  pending (src s) = sp ++ rest ->
  Forall (fun it : rune * Z => it.1 = runeSpace /\ 0 <= it.2) sp ->
  currentMsgSize s + sizeOf sp <= maxMessageSize ->
  stopsSkip (currentMsgSize s + sizeOf sp) rest ->
  exists s',
    skipSpace s = Ret tt s'
    /\ advanced s sp s'
    /\ pending (src s') = rest
    /\ buf s' = buf s.
Proof.
  intros Hp Hall Hsz Hstop.
  destruct (skipSpace_run s sp rest Hp Hall Hsz Hstop) as (s' & H1 & H2 & H3 & H4 & _).
  eauto.
Qed.

Lemma skipSpace_consumes_leading_spaces_witness :
  exists s',
    skipSpace (NewScanner (NewReader (str "   FOO"))) = Ret tt s'
    /\ advanced (NewScanner (NewReader (str "   FOO"))) (encode (str "   ")) s'
    /\ pending (src s') = encode (str "FOO")
    /\ buf s' = [].
Proof.
  apply (skipSpace_consumes_leading_spaces (NewScanner (NewReader (str "   FOO")))
           (encode (str "   ")) (encode (str "FOO"))).
  - reflexivity.
  - by_decide.
  - by_decide.
  - left. discriminate.
Defined.

(** X4.  [readPrefix] returns the text up to the first space, whatever it
    holds otherwise (carriage returns and line feeds included), and consumes
    that space and the spaces after it: with the runes [body] (none a space)
    pending, followed by the spaces [sp :: sps], all within the size budget,
    it returns [body] and leaves the source at [rest], the place where
    [skipSpace] stops. *)
Theorem readPrefix_returns_first_token s body sp sps rest :
  pending (src s) = body ++ (sp :: sps) ++ rest ->
  Forall (fun it : rune * Z => it.1 <> runeSpace /\ 0 <= it.2) body ->
  Forall (fun it : rune * Z => it.1 = runeSpace /\ 0 <= it.2) (sp :: sps) ->
  currentMsgSize s + sizeOf (body ++ sp :: sps) <= maxMessageSize ->
  stopsSkip (currentMsgSize s + sizeOf (body ++ sp :: sps)) rest ->
  exists s',
    readPrefix s = Ret (body.*1, None) s'
    /\ advanced s (body ++ sp :: sps) s'
    /\ pending (src s') = rest.
Proof.
  intros Hp Hbody Hsps Hsz Hstop.
  destruct (readPrefix_run s body sp sps rest Hp Hbody Hsps Hsz Hstop)
    as (s' & H1 & H2 & H3 & _).
  eauto.
Qed.

Lemma readPrefix_returns_first_token_witness :
  exists s',
    readPrefix (NewScanner (NewReader (str "nick!user@host  PRIVMSG")))
      = Ret (str "nick!user@host", None) s'
    /\ advanced (NewScanner (NewReader (str "nick!user@host  PRIVMSG")))
         (encode (str "nick!user@host  ")) s'
    /\ pending (src s') = encode (str "PRIVMSG").
Proof.
  apply (readPrefix_returns_first_token
           (NewScanner (NewReader (str "nick!user@host  PRIVMSG")))
           (encode (str "nick!user@host")) (runeSpace, 1) (encode (str " "))
           (encode (str "PRIVMSG"))).
  - reflexivity.
  - by_decide.
  - by_decide.
  - by_decide.
  - left. discriminate.
Defined.



(** ** Tags *)



(** X7.  The loop of [readTags] over the tokens of a tag block fails exactly
    when one of the tokens splits into more than two parts at [=], that is,
    holds [=] twice or more; so a tag text is rejected as malformed exactly
    when it holds a semicolon and one of its tokens holds [=] twice or more.
    A text without semicolon is never rejected. *)
Theorem tag_block_fails_iff_double_equals :
  (forall splitTags tagMap,
     splitTags_loop splitTags tagMap = None
     <-> Exists (fun v => (2 < length (Split v runeEquals))%nat) splitTags)
  /\ (forall text,
        tagMapOf text = None
        <-> Contains text runeSemicolon = true
            /\ Exists (fun v => (2 < length (Split v runeEquals))%nat)
                 (Split text runeSemicolon)).
Proof.
  split; [exact splitTags_loop_None|]. intros text.
  unfold tagMapOf. destruct (Contains text runeSemicolon); simpl.
  - rewrite splitTags_loop_None. tauto.
  - split; [discriminate|]. intros [? _]. discriminate.
Qed.

(** ** Parameters *)

(** X8.  [readParams] inverts the formatting of a parameter list: on a
    parameter area that holds the parameters [middle] (each non-empty,
    without space and not starting with a colon) separated by single spaces,
    optionally followed by a space, a colon and a trailing parameter, and
    then the line terminator (no carriage return before it, all within the
    size budget), it returns [middle] followed by the trailing parameter as
    given, and consumes the area and the terminator. *)
Theorem readParams_inverts_formatting s middle trailing body cr lf rest :
  Forall plainParam middle ->
  pending (src s) = body ++ cr :: lf :: rest ->
  body.*1 = paramsText middle trailing ->
  Forall (fun it : rune * Z => it.1 <> runeCR /\ 0 <= it.2) body ->
  cr.1 = runeCR -> lf.1 = runeLF -> 0 <= cr.2 -> 0 <= lf.2 ->
  currentMsgSize s + sizeOf body + cr.2 + lf.2 <= maxMessageSize ->
  exists s',
    readParams s
      = Ret (middle ++ match trailing with Some t => [t] | None => [] end, None) s'
    /\ advanced s (body ++ [cr; lf]) s'
    /\ pending (src s') = rest.
Proof.
  intros Hmid Hp Htext Hall Hcr Hlf Hc0 Hl0 Hsz.
  destruct (readParams_run s body cr lf rest Hp Hall Hcr Hlf Hc0 Hl0 Hsz)
    as (s' & H1 & H2 & H3).
  exists s'. rewrite Htext, (paramsOf_paramsText _ _ Hmid) in H1. auto.
Qed.

Lemma readParams_inverts_formatting_witness :
  exists s',
    readParams (NewScanner (NewReader (str "#chan nick :hello  there " ++ CRLF ++ str "NEXT")))
      = Ret ([str "#chan"; str "nick"; str "hello  there "], None) s'
    /\ advanced (NewScanner (NewReader (str "#chan nick :hello  there " ++ CRLF ++ str "NEXT")))
         (encode (str "#chan nick :hello  there " ++ CRLF)) s'
    /\ pending (src s') = encode (str "NEXT").
Proof.
  apply (readParams_inverts_formatting
           (NewScanner (NewReader (str "#chan nick :hello  there " ++ CRLF ++ str "NEXT")))
           [str "#chan"; str "nick"] (Some (str "hello  there "))
           (encode (str "#chan nick :hello  there ")) (runeCR, 1) (runeLF, 1)
           (encode (str "NEXT"))).
  - repeat constructor; discriminate.
  - reflexivity.
  - reflexivity.
  - by_decide.
  - reflexivity.
  - reflexivity.
  - by_decide.
  - by_decide.
  - by_decide.
Defined.

(** ** The line terminator *)

(** X9.  [isLineEnd] answers [true] only when it has consumed a carriage
    return immediately followed by a line feed, both within the size budget:
    then it returns no error, exactly these two runes have left the source,
    and they are the last two runes of the raw buffer. *)
Theorem isLineEnd_true_only_at_CRLF s e s' :
  isLineEnd s = Ret (true, e) s' ->
  e = None
  /\ exists cr lf,
       pending (src s) = cr :: lf :: pending (src s')
       /\ cr.1 = runeCR /\ lf.1 = runeLF
       /\ rawBuf s' = rawBuf s ++ CRLF
       /\ currentMsgSize s' = currentMsgSize s + cr.2 + lf.2
       /\ currentMsgSize s' <= maxMessageSize.
Proof.
  unfold isLineEnd, mbind, M_bind, mret, M_ret.
  destruct (pending (src s)) as [|cr rest] eqn:Hp.
  { rewrite (read_at_end s Hp). discriminate. }
  destruct (Z.gtb_spec (currentMsgSize s + cr.2) maxMessageSize) as [Hgt|Hle].
  { rewrite (read_over_budget s cr rest Hp) by lia. discriminate. }
  rewrite (read_within_budget s cr rest Hp Hle).
  destruct (Z.eqb_spec cr.1 runeCR) as [Hcr|Hcr].
  2:{ destruct (unread _) as [? ?| |]; discriminate. }
  destruct rest as [|lf rest].
  { erewrite read_at_end by reflexivity. discriminate. }
  destruct (Z.gtb_spec (currentMsgSize s + cr.2 + lf.2) maxMessageSize) as [Hgt2|Hle2].
  { erewrite read_over_budget; [|reflexivity|simpl; lia]. discriminate. }
  erewrite read_within_budget; [|reflexivity|simpl; lia]. cbn [fst snd].
  destruct (Z.eqb_spec lf.1 runeLF) as [Hlf|Hlf].
  2:{ destruct (unread _) as [? s1| |]; try discriminate.
      destruct (unread s1) as [? ?| |]; discriminate. }
  intros [= <- <-]. split; [reflexivity|]. exists cr, lf. simpl.
  rewrite Hcr, Hlf, <- app_assoc. repeat split; auto.
Qed.

Lemma isLineEnd_true_only_at_CRLF_witness :
  exists cr lf,
    pending (NewReader (CRLF ++ str "NEXT"))
      = cr :: lf :: pending (src (stateAfter isLineEnd (NewScanner (NewReader (CRLF ++ str "NEXT")))))
    /\ cr.1 = runeCR /\ lf.1 = runeLF
    /\ rawBuf (stateAfter isLineEnd (NewScanner (NewReader (CRLF ++ str "NEXT")))) = [] ++ CRLF
    /\ currentMsgSize (stateAfter isLineEnd (NewScanner (NewReader (CRLF ++ str "NEXT"))))
       = 0 + cr.2 + lf.2
    /\ currentMsgSize (stateAfter isLineEnd (NewScanner (NewReader (CRLF ++ str "NEXT"))))
       <= maxMessageSize.
Proof.
  apply (isLineEnd_true_only_at_CRLF (NewScanner (NewReader (CRLF ++ str "NEXT"))) None).
  vm_compute. reflexivity.
Defined.

(** ** Whole lines *)

(** X10.  [next] parses every well-formed line into its parts.  A line is
    an optional tag block ([@], the tags joined with semicolons, each a key
    or a key, [=] and a value, then one or more spaces), an optional prefix
    ([:], the prefix, one or more spaces), a non-empty command, optionally a
    space and a parameter text, and the terminator; it is well formed when
    keys and values hold neither [;] nor [=], the tag text and the prefix
    hold no space, the tag block holds no tag or at least two (a block with
    exactly one tag is left out: it is decoded to the empty map), the
    command holds neither space nor carriage return, the parameter text
    holds no carriage return, the command does not start with a character
    that would be taken for the start of a missing tag block or prefix, and
    the tag block and the rest of the line each fit the 512-byte budget.  On
    a source that holds such a line, validly encoded, followed by anything,
    [next] returns the message made of the whole line as [Raw], the map that
    binds every key of the tag block to its value (the empty string for a
    bare key, the last value for a repeated key; no map without a tag
    block), the prefix, the command and the parameters the specification
    reads off the parameter text, and leaves the source right after the
    terminator. *)
Theorem next_parses_well_formed_line s l rest :
  wellFormed l ->
  pending (src s) = encode (wire l) ++ rest ->
  exists s',
    next s = Ret (parsed l, None) s'
    /\ pending (src s') = rest
    /\ final (src s') = final (src s) /\ message s' = message s /\ err s' = err s.
Proof.
  apply next_run.
Qed.

Lemma next_parses_well_formed_line_witness :
  exists s',
    next (NewScanner (NewReader
            (str "@a=1;b  :nick!user@host   PRIVMSG #chan  :hello there" ++ CRLF ++ str "NEXT")))
      = Ret (mkMessage (str "@a=1;b  :nick!user@host   PRIVMSG #chan  :hello there" ++ CRLF)
               (Some (<[str "b" := []]> (<[str "a" := str "1"]> ∅)))
               (str "nick!user@host") (str "PRIVMSG")
               [str "#chan"; str "hello there"], None) s'
    /\ pending (src s') = encode (str "NEXT").
Proof.
  destruct (next_parses_well_formed_line
              (NewScanner (NewReader
                 (str "@a=1;b  :nick!user@host   PRIVMSG #chan  :hello there"
                  ++ CRLF ++ str "NEXT")))
              (mkLine (Some ([(str "a", Some (str "1")); (str "b", None)], 1%nat))
                 (Some (str "nick!user@host", 2%nat))
                 (str "PRIVMSG") (Some (str "#chan  :hello there")))
              (encode (str "NEXT")))
    as (s' & H1 & H2 & _).
  - unfold wellFormed. cbn [lineTags linePrefix lineCommand lineParams].
    split; [discriminate|]. split; [by_decide|].
    split; [split; [by_decide|split; [split; [repeat constructor|discriminate]|by_decide]]|].
    split; [by_decide|]. split; by_decide.
  - reflexivity.
  - exists s'. split; [|exact H2]. rewrite H1. vm_compute. reflexivity.
Defined.

(** X11.  The loop of the caller, [for s.Scan() { ... s.Message() ... }]
    followed by [s.Err()], delivers every line of a stream of well-formed
    lines, in order, and then reports what the exhausted source answered:
    no error when that is [io.EOF].  In particular scanning the text made
    of well-formed lines from a fresh scanner gives their messages and a
    clean end. *)
Theorem scanAll_delivers_every_line :
  (forall ls fuel s acc,
     Forall wellFormed ls ->
     pending (src s) = encode (concat (wire <$> ls)) ->
     err s = None ->
     (length ls < fuel)%nat ->
     scanLoop fuel s acc = Some (acc ++ (parsed <$> ls), finalErr (final (src s))))
  /\ (forall ls,
        Forall wellFormed ls ->
        scanAll (concat (wire <$> ls)) = Some (parsed <$> ls, None)).
Proof.
  assert (Hloop : forall ls fuel s acc,
            Forall wellFormed ls ->
            pending (src s) = encode (concat (wire <$> ls)) ->
            err s = None ->
            (length ls < fuel)%nat ->
            scanLoop fuel s acc
            = Some (acc ++ (parsed <$> ls), finalErr (final (src s)))).
  { induction ls as [|l ls IH]; intros fuel s acc Hwf Hp He Hfuel;
      (destruct fuel as [|fuel]; [simpl in Hfuel; lia|]); simpl scanLoop.
    - destruct (Scan_exhausted s Hp He) as (s' & -> & ->). rewrite app_nil_r. reflexivity.
    - apply Forall_cons in Hwf as [Hl Hwf]. simpl in Hp. rewrite encode_app in Hp.
      destruct (next_run s l _ Hl Hp) as (s1 & Hn & Hp1 & Hf1 & Hm1 & He1).
      rewrite (Scan_next_ok s _ _ He Hn).
      rewrite (IH fuel (set_message (parsed l) s1) (acc ++ [MessageOf (set_message (parsed l) s1)]));
        [|exact Hwf|exact Hp1|simpl; congruence|simpl in Hfuel; lia].
      simpl. rewrite Hf1, <- app_assoc. reflexivity. }
  split; [exact Hloop|].
  intros ls Hwf. unfold scanAll.
  rewrite (Hloop ls _ _ [] Hwf); [reflexivity|reflexivity|reflexivity|].
  pose proof (concat_wire_length ls). lia.
Qed.

Lemma scanAll_delivers_every_line_witness :
  scanAll (str ":irc.example.org 001 nick :Welcome" ++ CRLF
           ++ str "@a=1;b :nick PRIVMSG #chan :hi" ++ CRLF
           ++ str "PING :abc" ++ CRLF)
  = Some ([mkMessage (str ":irc.example.org 001 nick :Welcome" ++ CRLF) None
             (str "irc.example.org") (str "001") [str "nick"; str "Welcome"];
           mkMessage (str "@a=1;b :nick PRIVMSG #chan :hi" ++ CRLF)
             (Some (<[str "b" := []]> (<[str "a" := str "1"]> ∅)))
             (str "nick") (str "PRIVMSG") [str "#chan"; str "hi"];
           mkMessage (str "PING :abc" ++ CRLF) None [] (str "PING") [str "abc"]], None).
Proof.
  transitivity
    (scanAll (concat (wire <$>
       [mkLine None (Some (str "irc.example.org", 0%nat)) (str "001")
          (Some (str "nick :Welcome"));
        mkLine (Some ([(str "a", Some (str "1")); (str "b", None)], 0%nat))
          (Some (str "nick", 0%nat)) (str "PRIVMSG") (Some (str "#chan :hi"));
        mkLine None None (str "PING") (Some (str ":abc"))]))).
  { vm_compute. reflexivity. }
  rewrite (proj2 scanAll_delivers_every_line
             [mkLine None (Some (str "irc.example.org", 0%nat)) (str "001")
                (Some (str "nick :Welcome"));
              mkLine (Some ([(str "a", Some (str "1")); (str "b", None)], 0%nat))
                (Some (str "nick", 0%nat)) (str "PRIVMSG") (Some (str "#chan :hi"));
              mkLine None None (str "PING") (Some (str ":abc"))]).
  - vm_compute. reflexivity.
  - repeat (apply Forall_cons; split;
            [unfold wellFormed; cbn [lineTags linePrefix lineCommand lineParams];
             repeat split; try discriminate; try plain_tags; by_decide|]).
    apply List.Forall_nil.
Defined.

(** X12.  The loop of the caller terminates on every scanner, whatever the
    source holds: within one more call of [Scan] than there are runes
    pending, [Scan] has answered [false].  The [Raw] texts of the messages
    delivered, put end to end, are the runes read from the start of the
    source, so no input is skipped between or inside messages, and each
    ends with the line terminator. *)
Theorem scanLoop_terminates s acc :
  exists msgs e rest,
    scanLoop (S (length (pending (src s)))) s acc = Some (acc ++ msgs, e)
    /\ (pending (src s)).*1 = concat (Raw <$> msgs) ++ rest
    /\ Forall (fun m => exists body, Raw m = body ++ CRLF) msgs.
Proof.
  assert (Hloop : forall fuel s acc,
            (length (pending (src s)) < fuel)%nat ->
            exists msgs e rest,
              scanLoop fuel s acc = Some (acc ++ msgs, e)
              /\ (pending (src s)).*1 = concat (Raw <$> msgs) ++ rest
              /\ Forall (fun m => exists body, Raw m = body ++ CRLF) msgs).
  { clear s acc. induction fuel as [|fuel IH]; intros s acc Hfuel; [lia|]. simpl.
    destruct (Scan_total s) as ([|] & s' & HS); rewrite HS.
    - destruct (Scan_true _ _ HS) as (He & m & s1 & Hn & ->).
      destruct (next_post _ _ _ _ Hn) as (_ & _ & _ & _ & Hok).
      destruct (Hok eq_refl) as ((k & c & Hin & Hraw & _ & _ & _ & _ & body & Hbody) & _).
      assert (Hlen : length (Raw m) = length (k ++ c)) by (rewrite Hraw; apply length_fmap).
      rewrite Hbody, length_app in Hlen. simpl in Hlen.
      destruct (IH (set_message m s1) (acc ++ [MessageOf (set_message m s1)]))
        as (msgs & e & rest & Hrun & Hpre & Hall).
      { simpl. rewrite Hin, app_assoc, length_app in Hfuel. lia. }
      exists (m :: msgs), e, rest. split; [|split].
      + rewrite Hrun. simpl. rewrite <- app_assoc. reflexivity.
      + simpl in Hpre |- *. rewrite Hin, app_assoc, fmap_app, Hpre, Hraw, <- app_assoc.
        reflexivity.
      + constructor; [eauto|exact Hall].
    - exists [], (Err s'), ((pending (src s)).*1). rewrite app_nil_r. auto. }
  apply Hloop. lia.
Qed.

(** X13.  [next] never returns a message from a source that holds no line
    feed: it returns the zero message and an error.  The text scanned by the
    repository's benchmark of [Scan] is such a source. *)
Theorem next_fails_without_line_feed s :
  Forall (fun it : rune * Z => it.1 <> runeLF) (pending (src s)) ->
  exists e s', next s = Ret (zeroMessage, Some e) s'.
Proof.
  intros Hall. destruct (next_total s) as ([m e] & s' & H).
  destruct (next_post _ _ _ _ H) as (_ & _ & Hz & _ & Hok).
  destruct e as [e|].
  - rewrite Hz in H by discriminate. eauto.
  - exfalso.
    destruct (Hok eq_refl) as ((k & c & Hin & Hraw & _ & _ & _ & _ & body & Hbody) & _).
    rewrite Hin, app_assoc in Hall. apply Forall_app in Hall as [Hall _].
    assert (Hlf : runeLF ∈ (k ++ c).*1).
    { rewrite <- Hraw, Hbody. apply elem_of_app. right. unfold CRLF.
      apply elem_of_cons. right. apply list_elem_of_singleton. reflexivity. }
    apply list_elem_of_fmap in Hlf as (it & Hit & Hin').
    apply (proj1 (Forall_forall _ _) Hall it Hin'). symmetry. exact Hit.
Qed.

Lemma next_fails_without_line_feed_witness :
  exists e s',
    next (NewScanner (NewReader
            (str ":nickname!user@example.comPRIVMSG #example :hello there")))
    = Ret (zeroMessage, Some e) s'.
Proof.
  apply (next_fails_without_line_feed
           (NewScanner (NewReader
              (str ":nickname!user@example.comPRIVMSG #example :hello there")))).
  by_decide.
Defined.

(** X14.  In every message [next] returns, the prefix holds no space, the
    command holds neither space nor carriage return, and every parameter
    but the last is non-empty, holds no space and does not start with a
    colon; a line that starts with neither [@] nor [:] gives an empty
    prefix. *)
Theorem next_fields_are_clean s m s' :
  next s = Ret (m, None) s' ->
  Forall (fun r => r <> runeSpace) (Prefix m)
  /\ Forall (fun r => r <> runeSpace /\ r <> runeCR) (Command m)
  /\ (forall i p, Params m !! i = Some p -> (S i < length (Params m))%nat -> plainParam p)
  /\ (forall it rest, pending (src s) = it :: rest ->
        it.1 <> runeAt -> it.1 <> runeColon -> Prefix m = []).
Proof.
  intros H.
  destruct (next_fields _ _ _ H) as (it & rest & Hp & _ & Hpfx & H1 & H2 & H3 & _).
  do 3 (split; [assumption|]).
  intros it' rest' Hp'. rewrite Hp in Hp'. injection Hp' as <- <-. exact Hpfx.
Qed.

Lemma next_fields_are_clean_witness :
  Forall (fun r => r <> runeSpace)
    (Prefix (messageAfter next (NewScanner (NewReader (str ":n  FOO a  b :c d" ++ CRLF)))))
  /\ Forall (fun r => r <> runeSpace /\ r <> runeCR)
       (Command (messageAfter next (NewScanner (NewReader (str ":n  FOO a  b :c d" ++ CRLF)))))
  /\ Params (messageAfter next (NewScanner (NewReader (str ":n  FOO a  b :c d" ++ CRLF))))
     = [str "a"; str "b"; str "c d"].
Proof.
  destruct (next_fields_are_clean
              (NewScanner (NewReader (str ":n  FOO a  b :c d" ++ CRLF)))
              (messageAfter next (NewScanner (NewReader (str ":n  FOO a  b :c d" ++ CRLF))))
              (stateAfter next (NewScanner (NewReader (str ":n  FOO a  b :c d" ++ CRLF)))))
    as (H1 & H2 & _).
  - vm_compute. reflexivity.
  - split; [exact H1|]. split; [exact H2|]. vm_compute. reflexivity.
Defined.

(** X15.  The [Tags] of a message [next] returns are the nil map exactly
    when the line does not start with [@]; and the keys and values of a map
    that is returned hold no space, no semicolon and no [=]. *)
Theorem Tags_nil_iff_no_tag_block s m s' :
  next s = Ret (m, None) s' ->
  exists it rest,
    pending (src s) = it :: rest
    /\ (Tags m = None <-> it.1 <> runeAt)
    /\ (forall tagMap, Tags m = Some tagMap ->
          map_Forall (fun k v => tagWord k /\ tagWord v) tagMap).
Proof.
  intros H.
  destruct (next_fields _ _ _ H) as (it & rest & Hp & Ht & _ & _ & _ & _ & Hw).
  eauto.
Qed.

Lemma Tags_nil_iff_no_tag_block_witness :
  exists it rest,
    pending (NewReader (str "@k=v;w FOO" ++ CRLF)) = it :: rest
    /\ (Tags (messageAfter next (NewScanner (NewReader (str "@k=v;w FOO" ++ CRLF)))) = None
        <-> it.1 <> runeAt)
    /\ (forall tagMap,
          Tags (messageAfter next (NewScanner (NewReader (str "@k=v;w FOO" ++ CRLF))))
            = Some tagMap ->
          map_Forall (fun k v => tagWord k /\ tagWord v) tagMap).
Proof.
  apply (Tags_nil_iff_no_tag_block
           (NewScanner (NewReader (str "@k=v;w FOO" ++ CRLF)))
           (messageAfter next (NewScanner (NewReader (str "@k=v;w FOO" ++ CRLF))))
           (stateAfter next (NewScanner (NewReader (str "@k=v;w FOO" ++ CRLF))))).
  vm_compute. reflexivity.
Defined.

(** ** Prefixes *)

(** X16.  [ParsePrefix] inverts the formatting of a prefix.  For a nickname
    that is not empty, does not start with [!] or [@] and holds no [!]:
    [nick!user@host] gives the three parts when the user holds no [@];
    [nick!user] gives nickname and user; [nick@host] gives nickname and host
    when the nickname holds no [@] and the host no [!]; and a name without
    [!] and [@] is a server, with the name as host, when it holds a dot, and
    a nickname otherwise. *)
Theorem ParsePrefix_inverts_formatting :
  (forall nick user host,
     startsName nick -> Contains nick runeBang = false -> Contains user runeAt = false ->
     ParsePrefix (nick ++ runeBang :: user ++ runeAt :: host)
     = Some (Parsed.mkPrefix (nick ++ runeBang :: user ++ runeAt :: host)
               false nick user host))
  /\ (forall nick user,
        startsName nick -> Contains nick runeBang = false -> Contains user runeAt = false ->
        ParsePrefix (nick ++ runeBang :: user)
        = Some (Parsed.mkPrefix (nick ++ runeBang :: user) false nick user []))
  /\ (forall nick host,
        startsName nick -> Contains nick runeBang = false -> Contains nick runeAt = false ->
        Contains host runeBang = false ->
        ParsePrefix (nick ++ runeAt :: host)
        = Some (Parsed.mkPrefix (nick ++ runeAt :: host) false nick [] host))
  /\ (forall name,
        startsName name -> Contains name runeBang = false -> Contains name runeAt = false ->
        ParsePrefix name
        = Some (if Contains name runeDot
                then Parsed.mkPrefix name true [] [] name
                else Parsed.mkPrefix name false name [] [])).
Proof.
  split; [|split; [|split]].
  - intros nick user host Hs Hb Ha.
    rewrite ParsePrefix_start by (apply startsName_app; exact Hs).
    rewrite (proj2 (cutAt_Some_iff runeBang _ nick (user ++ runeAt :: host)) (conj eq_refl Hb)).
    rewrite (proj2 (cutAt_Some_iff runeAt _ user host) (conj eq_refl Ha)). reflexivity.
  - intros nick user Hs Hb Ha.
    rewrite ParsePrefix_start by (apply startsName_app; exact Hs).
    rewrite (proj2 (cutAt_Some_iff runeBang _ nick user) (conj eq_refl Hb)).
    rewrite (proj2 (cutAt_None_iff runeAt user) Ha). reflexivity.
  - intros nick host Hs Hb Ha Hhb.
    rewrite ParsePrefix_start by (apply startsName_app; exact Hs).
    rewrite (proj2 (cutAt_None_iff runeBang (nick ++ runeAt :: host))).
    2:{ rewrite Contains_app. simpl. rewrite Hb, Hhb. reflexivity. }
    rewrite (proj2 (cutAt_Some_iff runeAt _ nick host) (conj eq_refl Ha)). reflexivity.
  - intros name Hs Hb Ha. rewrite ParsePrefix_start by exact Hs.
    rewrite (proj2 (cutAt_None_iff runeBang name) Hb), (proj2 (cutAt_None_iff runeAt name) Ha).
    destruct (Contains name runeDot); reflexivity.
Qed.

Lemma ParsePrefix_inverts_formatting_witness :
  ParsePrefix (str "ni.ck" ++ runeBang :: str "us!er" ++ runeAt :: str "ho@st")
  = Some (Parsed.mkPrefix (str "ni.ck!us!er@ho@st") false
            (str "ni.ck") (str "us!er") (str "ho@st")).
Proof.
  apply (proj1 ParsePrefix_inverts_formatting (str "ni.ck") (str "us!er") (str "ho@st")).
  - split; discriminate.
  - reflexivity.
  - reflexivity.
Defined.

(** X17.  Whatever [ParsePrefix] returns keeps the whole input: [Raw] is the
    input, and the nickname, the user and the host, with a [!] between
    nickname and user and a [@] before the host where the input has them,
    put together again give the input.  The nickname never holds [!] and
    the user never holds [@].  The result is a server exactly when the input
    holds neither [!] nor [@] but holds a dot, and then the host is the
    whole input and the other parts are empty. *)
Theorem ParsePrefix_fields_reassemble s p :
  ParsePrefix s = Some p ->
  Parsed.Raw p = s
  /\ Contains (Parsed.Nickname p) runeBang = false
  /\ Contains (Parsed.User p) runeAt = false
  /\ (Parsed.IsServer p = true <->
      Contains s runeBang = false /\ Contains s runeAt = false /\ Contains s runeDot = true)
  /\ (Parsed.IsServer p = true ->
      Parsed.Nickname p = [] /\ Parsed.User p = [] /\ Parsed.Host p = s)
  /\ exists du dh,
       (du = [] \/ du = [runeBang]) /\ (dh = [] \/ dh = [runeAt])
       /\ s = Parsed.Nickname p ++ du ++ Parsed.User p ++ dh ++ Parsed.Host p.
Proof.
  intros H. pose proof (ParsePrefix_Some _ _ H) as Hs.
  rewrite (ParsePrefix_start _ Hs) in H. injection H as <-.
  destruct (cutAt runeBang s) as [[nick rest]|] eqn:Hb.
  - apply cutAt_Some_iff in Hb as [-> Hnb].
    assert (Hcb : Contains (nick ++ runeBang :: rest) runeBang = true).
    { rewrite Contains_app. simpl. rewrite orb_true_r. reflexivity. }
    destruct (cutAt runeAt rest) as [[user host]|] eqn:Ha.
    + apply cutAt_Some_iff in Ha as [-> Hua]. simpl.
      split; [reflexivity|]. split; [exact Hnb|]. split; [exact Hua|].
      split; [split; [discriminate|intros (Hx & _); congruence]|].
      split; [discriminate|].
      exists [runeBang], [runeAt]. auto.
    + apply cutAt_None_iff in Ha. simpl.
      split; [reflexivity|]. split; [exact Hnb|]. split; [exact Ha|].
      split; [split; [discriminate|intros (Hx & _); congruence]|].
      split; [discriminate|].
      exists [runeBang], []. rewrite app_nil_r. auto.
  - apply cutAt_None_iff in Hb.
    destruct (cutAt runeAt s) as [[nick host]|] eqn:Ha.
    + apply cutAt_Some_iff in Ha as [-> Hna]. simpl.
      assert (Hca : Contains (nick ++ runeAt :: host) runeAt = true).
      { rewrite Contains_app. simpl. rewrite orb_true_r. reflexivity. }
      rewrite Contains_app in Hb. apply orb_false_elim in Hb as [Hnb _].
      split; [reflexivity|]. split; [exact Hnb|]. split; [reflexivity|].
      split; [split; [discriminate|intros (_ & Hx & _); congruence]|].
      split; [discriminate|].
      exists [], [runeAt]. auto.
    + apply cutAt_None_iff in Ha.
      destruct (Contains s runeDot) eqn:Hd; simpl.
      * split; [reflexivity|]. split; [reflexivity|]. split; [reflexivity|].
        split; [tauto|]. split; [auto|]. exists [], []. auto.
      * split; [reflexivity|]. split; [exact Hb|]. split; [reflexivity|].
        split; [split; [discriminate|intros (_ & _ & Hx); congruence]|].
        split; [discriminate|]. exists [], []. rewrite !app_nil_r. auto.
Qed.

Lemma ParsePrefix_fields_reassemble_witness :
  exists p,
    ParsePrefix (str "nick@kcin!user@host") = Some p
    /\ Parsed.Raw p = str "nick@kcin!user@host"
    /\ Parsed.Nickname p = str "nick@kcin"
    /\ Contains (Parsed.Nickname p) runeBang = false
    /\ Contains (Parsed.User p) runeAt = false.
Proof.
  eexists. split; [vm_compute; reflexivity|].
  destruct (ParsePrefix_fields_reassemble (str "nick@kcin!user@host") _ eq_refl)
    as (H1 & H2 & H3 & _).
  split; [exact H1|]. split; [reflexivity|]. split; [exact H2|exact H3].
Defined.

(** X18.  [ParsePrefix] never panics: every slice expression it evaluates
    is within the bounds Go checks at run time ([0 <= lo <= hi <= len]), and
    the index expression [in[0]] is evaluated on a non-empty input only.
    With the check of every slice expression written out
    ([ParsePrefix_checked], where a violated check is a panic), the function
    returns on every input, and returns what [ParsePrefix] returns.  The
    reason is that the positions it computes are in range: the position
    after the first [!] (zero when there is none) is at most the position
    after the first [@] that follows it, which is at most the length of the
    input. *)
Theorem ParsePrefix_never_panics in_ :
  ParsePrefix_checked in_ = Some (ParsePrefix in_)
  /\ (let upos := Index in_ runeBang + 1 in
      let hpos := Index (sliceFrom in_ upos) runeAt + 1 + upos in
      0 <= upos /\ upos <= hpos /\ hpos <= Z.of_nat (length in_)).
Proof.
  pose proof (Index_range in_ runeBang) as H1.
  pose proof (Index_range (sliceFrom in_ (Index in_ runeBang + 1)) runeAt) as H2.
  rewrite (length_drop in_ (Z.to_nat (Index in_ runeBang + 1))
             : length (sliceFrom in_ (Index in_ runeBang + 1)) = _) in H2.
  split; [|cbv zeta; lia].
  unfold ParsePrefix_checked, ParsePrefix.
  destruct in_ as [|in0 t] eqn:Hin; [reflexivity|]. rewrite <- Hin in *. clear Hin.
  destruct ((in0 =? runeBang) || (in0 =? runeAt)); [reflexivity|].
  cbv zeta.
  rewrite sliceChecked_from by lia. simpl mbind.
  set (upos := Index in_ runeBang + 1) in *.
  set (hpos := Index (sliceFrom in_ upos) runeAt + 1 + upos) in *.
  destruct (Z.gtb_spec upos 0) as [Hu|Hu];
    destruct (Z.gtb_spec hpos 0) as [Hh|Hh]; simpl andb;
    try destruct (Z.ltb_spec upos hpos) as [Huh|Huh];
    try destruct (Index in_ runeDot + 1 >? 0);
    repeat (first [ rewrite sliceChecked_to by lia
                  | rewrite sliceChecked_from by lia
                  | rewrite (sliceChecked_slice in_ upos (hpos - 1)) by lia ];
            simpl mbind);
    reflexivity.
Qed.

(** ** Code that is never reached *)

(** X19.  On a validly encoded source (every rune has the size of its
    encoding), and as long as the scratch buffer holds fewer bytes than the
    size counter counts, which is the case when [next] calls [readTags]
    (the buffer is empty and [@] has been counted), the test of the buffer
    length in the loop of [readTags] never fires: the loop does exactly what
    the loop of [readPrefix] does, and a tag block is limited by the size
    counter alone. *)
Theorem readTags_length_test_never_fires fuel s :
  Forall (fun it : rune * Z => it.2 = RuneLen it.1) (pending (src s)) ->
  byteLen (buf s) < currentMsgSize s ->
  readTags_loop fuel s = readPrefix_loop fuel s.
Proof.
  revert s.
  induction fuel as [|fuel IH]; intros s Hall Hlen; [reflexivity|].
  simpl. unfold mbind, M_bind.
  destruct (pending (src s)) as [|it rest] eqn:Hp.
  { rewrite (read_at_end s Hp). reflexivity. }
  apply Forall_cons in Hall as [Hit Hall].
  destruct (Z.gtb_spec (currentMsgSize s + it.2) maxMessageSize) as [Hgt|Hle].
  { rewrite (read_over_budget s it rest Hp) by lia. reflexivity. }
  rewrite (read_within_budget s it rest Hp Hle). cbv beta iota.
  destruct (it.1 =? runeSpace); [reflexivity|].
  pose proof (RuneLen_pos it.1).
  unfold gets. simpl.
  destruct (Z.geb_spec (byteLen (buf s)) maxMessageSize) as [|_]; [lia|].
  unfold buf_WriteRune, modify. apply IH; simpl.
  - exact Hall.
  - rewrite byteLen_app, byteLen_cons. simpl. lia.
Qed.

Lemma readTags_length_test_never_fires_witness :
  readTags_loop 20 (readStep (NewScanner (NewReader (str "@a=1;b FOO"))))
  = readPrefix_loop 20 (readStep (NewScanner (NewReader (str "@a=1;b FOO")))).
Proof.
  apply (readTags_length_test_never_fires 20
           (readStep (NewScanner (NewReader (str "@a=1;b FOO"))))).
  - by_decide.
  - by_decide.
Defined.

(** ** The earlier version of the file *)

(** X20.  [readTrailingParam] (of the earlier version of the file, where
    nothing calls it) reads a text up to a carriage return.  When the
    carriage return is followed by a line feed within the size budget, it
    returns the text and has consumed the terminator; in every other case
    (another rune follows, the input ends there, or the budget is exceeded)
    it fails with [ErrMessageMalformed], the error of that second [read]
    being discarded. *)
Theorem readTrailingParam_stops_at_CRLF s body cr rest :
  pending (src s) = body ++ cr :: rest ->
  Forall (fun it : rune * Z => it.1 <> runeCR /\ 0 <= it.2) body ->
  cr.1 = runeCR -> 0 <= cr.2 ->
  currentMsgSize s + sizeOf body + cr.2 <= maxMessageSize ->
  match rest with
  | lf :: rest' =>
      if (lf.1 =? runeLF) && (currentMsgSize s + sizeOf body + cr.2 + lf.2 <=? maxMessageSize)
      then exists s', readTrailingParam s = Ret (body.*1, None) s'
                      /\ pending (src s') = rest'
                      /\ rawBuf s' = rawBuf s ++ body.*1 ++ CRLF
      else exists s', readTrailingParam s = Ret ([], Some ErrMessageMalformed) s'
  | [] => exists s', readTrailingParam s = Ret ([], Some ErrMessageMalformed) s'
  end.
Proof.
  intros Hp Hall Hcr Hcr0 Hsz.
  destruct (readTrailingParam_loop_run body (fuelOf (set_buf [] s)) (set_buf [] s) cr rest)
    as (s1 & Hadv & Hpend & Hbuf & Hrun);
    [exact Hp|exact Hall|exact Hcr|exact Hcr0|simpl; lia|unfold fuelOf; simpl; lia|].
  destruct Hadv as (Ha & Hb & Hc & _). simpl in Ha, Hb, Hc, Hbuf.
  rewrite sizeOf_app in Hc. simpl in Hc.
  assert (Hr : readTrailingParam s =
    match read s1 with
    | Ret (ch, _) s2 =>
        if negb (ch =? runeLF) then Ret ([], Some ErrMessageMalformed) s2
        else Ret (buf s2, None) s2
    | Panic => Panic
    | OutOfFuel => OutOfFuel
    end).
  { unfold readTrailingParam, mbind at 1 2 3, M_bind at 1 2 3, buf_Reset, modify, gets.
    rewrite Hrun. unfold mbind, M_bind, mret, M_ret.
    destruct (read s1) as [[ch ?] s2| |]; try reflexivity.
    destruct (negb (ch =? runeLF)); reflexivity. }
  rewrite Hr. clear Hr Hrun.
  destruct rest as [|lf rest'].
  - rewrite (read_at_end s1 Hpend). simpl. eauto.
  - destruct (Z.eqb_spec lf.1 runeLF) as [Hlf|Hlf]; simpl.
    + destruct (Z.leb_spec (currentMsgSize s + sizeOf body + cr.2 + lf.2) maxMessageSize).
      * rewrite (read_within_budget s1 lf rest' Hpend) by lia. rewrite Hlf. simpl.
        eexists. split; [rewrite Hbuf; reflexivity|]. simpl. split; [reflexivity|].
        rewrite Hb, fmap_app. simpl. rewrite Hcr, <- !app_assoc. reflexivity.
      * rewrite (read_over_budget s1 lf rest' Hpend) by lia. simpl. eauto.
    + destruct (Z.gtb_spec (currentMsgSize s1 + lf.2) maxMessageSize).
      * rewrite (read_over_budget s1 lf rest' Hpend) by lia. simpl. eauto.
      * rewrite (read_within_budget s1 lf rest' Hpend) by lia.
        destruct (Z.eqb_spec lf.1 runeLF) as [|_]; [contradiction|]. simpl. eauto.
Qed.

Lemma readTrailingParam_stops_at_CRLF_witness :
  (exists s',
     readTrailingParam (NewScanner (NewReader (str "hello  there" ++ CRLF ++ str "NEXT")))
       = Ret (str "hello  there", None) s'
     /\ pending (src s') = encode (str "NEXT")
     /\ rawBuf s' = str "hello  there" ++ CRLF)
  /\ (exists s',
        readTrailingParam (NewScanner (NewReader (str "hello" ++ [runeCR])))
          = Ret ([], Some ErrMessageMalformed) s').
Proof.
  split.
  - apply (readTrailingParam_stops_at_CRLF
             (NewScanner (NewReader (str "hello  there" ++ CRLF ++ str "NEXT")))
             (encode (str "hello  there")) (runeCR, 1) (encode (runeLF :: str "NEXT"))).
    + reflexivity.
    + by_decide.
    + reflexivity.
    + by_decide.
    + by_decide.
  - apply (readTrailingParam_stops_at_CRLF
             (NewScanner (NewReader (str "hello" ++ [runeCR])))
             (encode (str "hello")) (runeCR, 1) []).
    + reflexivity.
    + by_decide.
    + reflexivity.
    + by_decide.
    + by_decide.
Defined.

(** ** Independence of the scan steps *)

(** X21.  What [next] returns depends on the source only: on two scanners
    whose sources hold the same pending runes and the same final error,
    whatever their scratch buffers, raw buffers, size counters, stored
    messages and stored errors hold, and whatever was read last, [next]
    returns the same message and the same error, and leaves the same source,
    raw buffer and size counter.  So a message never depends on the
    messages scanned before it. *)
Theorem next_depends_on_the_source_only a b :
  pending (src a) = pending (src b) -> final (src a) = final (src b) ->
  exists r a' b',
    next a = Ret r a' /\ next b = Ret r b'
    /\ src a' = src b' /\ rawBuf a' = rawBuf b'
    /\ currentMsgSize a' = currentMsgSize b'.
Proof.
  intros Hp Hf.
  destruct (pending (src b)) as [|it rest] eqn:Hpb.
  { unfold next, mbind, M_bind, modify, read, ReadRune. simpl. rewrite Hp, Hpb, Hf. simpl.
    eexists _, _, _. split; [reflexivity|]. split; [reflexivity|]. simpl. auto. }
  assert (Hsim : sameRun false (next a) (next b)).
  { unfold next.
    match goal with
    | |- sameRun _ ((_ ≫= fun _ => _ ≫= fun _ => ?k) a) _ => set (body := k)
    end.
    change (sameRun false (body (set_currentMsgSize 0 (set_rawBuf [] a)))
              (body (set_currentMsgSize 0 (set_rawBuf [] b)))).
    subst body.
    eapply (sameRun_bind false).
    { unfold read, ReadRune. simpl. rewrite Hp, Hpb, Hf. simpl.
      destruct (_ >? _); simpl; (split; [reflexivity|]); unfold sameCursor; simpl;
        repeat split; auto; discriminate. }
    intros [ch [e|]] a1 b1 H1; [apply sameRun_ret; exact H1|].
    eapply sameRun_bind; [apply (next_tags_agree false); exact H1|].
    intros [[msg1 ch1]|e] a2 b2 H2; [|apply sameRun_ret; exact H2].
    eapply sameRun_bind; [apply (next_prefix_agree false); exact H2|].
    intros [msg2|e] a3 b3 H3; [|apply sameRun_ret; exact H3].
    apply (sameRun_weaken true). apply (next_command_agree false). exact H3. }
  destruct (next_total a) as (r & a' & Ha). rewrite Ha in Hsim.
  destruct (next b) as [r' b'| |]; simpl in Hsim; try contradiction.
  destruct Hsim as (<- & H1 & H2 & H3 & _). eauto 10.
Qed.

Lemma next_depends_on_the_source_only_witness :
  exists r a' b',
    next (stateAfter Scan (NewScanner (NewReader
            (str "@t=1;u :nick FOO bar :baz" ++ CRLF ++ str "PING :x" ++ CRLF))))
      = Ret r a'
    /\ next (NewScanner (NewReader (str "PING :x" ++ CRLF))) = Ret r b'
    /\ src a' = src b' /\ rawBuf a' = rawBuf b'
    /\ currentMsgSize a' = currentMsgSize b'.
Proof.
  apply (next_depends_on_the_source_only
           (stateAfter Scan (NewScanner (NewReader
              (str "@t=1;u :nick FOO bar :baz" ++ CRLF ++ str "PING :x" ++ CRLF))))
           (NewScanner (NewReader (str "PING :x" ++ CRLF)))).
  - vm_compute. reflexivity.
  - vm_compute. reflexivity.
Defined.
